(** * company-data-extractor: the scraping worker and its progress aggregator

    A shallow embedding of
    - [ScrapingRepository.updateItemStatus] and [updateJobProgress]
      (core/database/repositories/scraping.repository.ts), and
    - [ScrapingProcessor] (modules/scraping/processors/scraping.processor.ts):
      [process], [processItem], [fetchHtml], [tryFallbackSelectors],
      [extractWithNER], [parseCompanyData], [parseContacts], [applyRateLimit].

    Asynchronous code is written in a state-and-exception monad over a
    [World] holding the two database tables, the processor's [nerCache], the
    clock, a schedule of persistence faults and a trace of the calls made.
    The libraries the processor talks to (axios, cheerio, compromise) are
    parameters, collected in [Env] and [CheerioAPI]; each of their calls
    returns a value or throws.

    Left out: logging, [crypto.randomUUID], and the waiting itself of
    [applyRateLimit] (the delay is an event of the trace).  A repository
    method that fails changes nothing in the database; the clock does not
    move within one call of [processItem]. *)

From Stdlib Require Import NArith Ascii String DecimalString List Lia.
From stdpp Require Import gmap strings list.
Import ListNotations.

Local Open Scope nat_scope.

(** ** JavaScript strings

    A JS string is a sequence of UTF-16 code units; [length] is the JS
    [.length]. *)

Definition char16 := N.
Definition jsstring := list N.

(** An ASCII literal of the source. *)
Definition lit (s : string) : jsstring := N_of_ascii <$> list_ascii_of_string s.

(** Template-literal rendering of a non-negative integer. *)
Definition decimal (n : N) : jsstring :=
  lit (NilEmpty.string_of_uint (N.to_uint n)).

(** [a === b] on strings. *)
Definition str_eqb (a b : jsstring) : bool := bool_decide (a = b).

(** ECMAScript WhiteSpace and LineTerminator code units: what [trim] strips
    and what [\s] matches. *)
Definition is_space (c : char16) : bool :=
  ((9 <=? c) && (c <=? 13) || (c =? 32) || (c =? 160) || (c =? 5760)
   || (8192 <=? c) && (c <=? 8202) || (c =? 8232) || (c =? 8233)
   || (c =? 8239) || (c =? 8287) || (c =? 12288) || (c =? 65279))%N.

Fixpoint trimStart (s : jsstring) : jsstring :=
  match s with
  | c :: r => if is_space c then trimStart r else s
  | [] => []
  end.

Definition trimEnd (s : jsstring) : jsstring := rev (trimStart (rev s)).

Definition trim (s : jsstring) : jsstring := trimEnd (trimStart s).

(** [s.replace(/\s+/g, " ")]: every maximal run of white space becomes one
    space.  [inRun] tells that the previous code unit was white space. *)
Fixpoint collapseFrom (inRun : bool) (s : jsstring) : jsstring :=
  match s with
  | [] => []
  | c :: r =>
      if is_space c
      then (if inRun then collapseFrom true r else 32%N :: collapseFrom true r)
      else c :: collapseFrom false r
  end.

Definition collapseSpaces (s : jsstring) : jsstring := collapseFrom false s.

(** [s.substring(0, n)]. *)
Definition substring0 (n : nat) (s : jsstring) : jsstring := take n s.

Fixpoint startsWith (p s : jsstring) : bool :=
  match p, s with
  | [], _ => true
  | a :: p', b :: s' => (a =? b)%N && startsWith p' s'
  | _ :: _, [] => false
  end.

Fixpoint includes (p s : jsstring) : bool :=
  startsWith p s ||
  match s with
  | [] => false
  | _ :: s' => includes p s'
  end.

(** Truthiness of a string: non-empty. *)
Definition truthy (s : jsstring) : bool :=
  match s with [] => false | _ :: _ => true end.

(** [s || null]. *)
Definition orNull (s : jsstring) : option jsstring :=
  if truthy s then Some s else None.

(** [v || null] for [v : string | undefined]. *)
Definition optOrNull (v : option jsstring) : option jsstring :=
  match v with Some s => orNull s | None => None end.

(** ** Entities (scraping.repository.ts, schema/) *)

Definition Time := N.

Record Contact := mkContact {
  name : jsstring;
  title : jsstring;
  email : jsstring
}.

Record RawData := mkRawData {
  raw_url : jsstring;
  htmlLength : nat;
  scrapedAt : Time
}.

Module Job.
Record ScrapingJobEntity := mk {
  id : jsstring;
  userId : option jsstring;
  status : jsstring;
  totalUrls : nat;
  processedUrls : nat;
  failedUrls : nat;
  createdAt : Time;
  updatedAt : Time
}.
End Job.

Module Item.
Record ScrapingItemEntity := mk {
  id : jsstring;
  jobId : jsstring;
  url : jsstring;
  status : jsstring;
  lastError : option jsstring;
  startedAt : option Time;
  finishedAt : option Time;
  companyName : option jsstring;
  website : option jsstring;
  industry : option jsstring;
  headcountRange : option jsstring;
  hqLocation : option jsstring;
  contacts : option (list Contact);
  rawData : option RawData;
  createdAt : Time;
  updatedAt : Time
}.
End Item.

(** [Partial<ScrapingItemEntity>] as the call sites of [updateItemStatus]
    use it: [None] leaves the column alone. *)
Record ItemPatch := mkPatch {
  p_startedAt : option (option Time);
  p_finishedAt : option (option Time);
  p_lastError : option (option jsstring);
  p_companyName : option (option jsstring);
  p_website : option (option jsstring);
  p_industry : option (option jsstring);
  p_headcountRange : option (option jsstring);
  p_hqLocation : option (option jsstring);
  p_contacts : option (option (list Contact));
  p_rawData : option (option RawData)
}.

Definition noPatch : ItemPatch :=
  mkPatch None None None None None None None None None None.

(** The two tables. *)
Record DB := mkDB {
  scrapingJobs : list Job.ScrapingJobEntity;
  scrapingItems : list Item.ScrapingItemEntity
}.

(** ** Thrown values, outcomes and the world *)

Inductive Thrown :=
| ErrorObj (message : jsstring)
    (* an [Error] that is not an axios error: database driver errors,
       [new Error(msg)] *)
| AxiosError (code : option jsstring) (responseStatus : option N)
             (message : jsstring)
| NonError (asString : jsstring).
    (* any other thrown value; [asString] is [String(value)] *)

Inductive Outcome (A : Type) :=
| Ok (a : A)
| Throw (e : Thrown).
Arguments Ok {A} a.
Arguments Throw {A} e.

Inductive Event :=
| RepoUpdateItemStatus (itemId status : jsstring)
| RepoUpdateJobProgress (jobId : jsstring)
| HttpGet (url : jsstring)
| Sleep (ms : N)
| NerCall (cacheKey : jsstring)
| NlpRun (text : jsstring).

(** What [extractWithNER] returns and caches. *)
Record NerResult := mkNer {
  ner_companyName : option jsstring;
  ner_hqLocation : option jsstring;
  people : list jsstring;
  emails : list jsstring
}.

(** [faults]: the head decides the next repository call, [Some e] making it
    reject with [e]; an exhausted schedule means no more faults.
    [trace] is ghost state: the calls made so far, oldest first. *)
Record World := mkWorld {
  db : DB;
  nerCache : gmap jsstring NerResult;
  faults : list (option Thrown);
  clock : Time;
  trace : list Event
}.

Definition M (A : Type) : Type := World -> Outcome A * World.

Definition ret {A} (a : A) : M A := fun w => (Ok a, w).

Definition throw {A} (e : Thrown) : M A := fun w => (Throw e, w).

Definition bind {A B} (m : M A) (k : A -> M B) : M B := fun w =>
  match m w with
  | (Ok a, w1) => k a w1
  | (Throw e, w1) => (Throw e, w1)
  end.

Notation "x <- m ;; k" := (bind m (fun x => k))
  (at level 100, m at next level, right associativity).
Notation "m ;;; k" := (bind m (fun _ => k))
  (at level 100, right associativity).

(** [try { body } catch (e) { handler e }]. *)
Definition try_catch {A} (body : M A) (handler : Thrown -> M A) : M A := fun w =>
  match body w with
  | (Ok a, w1) => (Ok a, w1)
  | (Throw e, w1) => handler e w1
  end.

(** [try { body } finally { trailer }]: the trailer runs whatever the body
    did; if the trailer throws, that replaces the body's outcome. *)
Definition try_finally {A} (body : M A) (trailer : M unit) : M A := fun w =>
  match body w with
  | (o, w1) =>
      match trailer w1 with
      | (Ok _, w2) => (o, w2)
      | (Throw e, w2) => (Throw e, w2)
      end
  end.

(** Running a library call that may throw. *)
Definition lift {A} (o : Outcome A) : M A := fun w => (o, w).

Definition emit (ev : Event) : M unit := fun w =>
  (Ok tt, mkWorld (db w) (nerCache w) (faults w) (clock w) (trace w ++ [ev])).

(** [new Date()]. *)
Definition newDate : M Time := fun w => (Ok (clock w), w).

(** One awaited repository method: the call is traced, then either the
    database rejects (the repository logs and rethrows) or the statement
    [f] is applied. *)
Definition repoCall (ev : Event) (f : Time -> DB -> DB) : M unit := fun w =>
  let tr := trace w ++ [ev] in
  match faults w with
  | Some e :: rest => (Throw e, mkWorld (db w) (nerCache w) rest (clock w) tr)
  | None :: rest =>
      (Ok tt, mkWorld (f (clock w) (db w)) (nerCache w) rest (clock w) tr)
  | [] => (Ok tt, mkWorld (f (clock w) (db w)) (nerCache w) [] (clock w) tr)
  end.

(** ** ScrapingRepository *)

Definition patched {A} (p : option A) (old : A) : A :=
  match p with Some v => v | None => old end.

(** [UPDATE scraping_items SET status, updatedAt = now, ...data WHERE id = itemId]. *)
Definition setItem (now : Time) (itemId status : jsstring) (data : ItemPatch)
    (it : Item.ScrapingItemEntity) : Item.ScrapingItemEntity :=
  if str_eqb (Item.id it) itemId then
    Item.mk (Item.id it) (Item.jobId it) (Item.url it) status
      (patched (p_lastError data) (Item.lastError it))
      (patched (p_startedAt data) (Item.startedAt it))
      (patched (p_finishedAt data) (Item.finishedAt it))
      (patched (p_companyName data) (Item.companyName it))
      (patched (p_website data) (Item.website it))
      (patched (p_industry data) (Item.industry it))
      (patched (p_headcountRange data) (Item.headcountRange it))
      (patched (p_hqLocation data) (Item.hqLocation it))
      (patched (p_contacts data) (Item.contacts it))
      (patched (p_rawData data) (Item.rawData it))
      (Item.createdAt it) now
  else it.

Definition updateItemStatus (itemId status : jsstring) (data : ItemPatch) : M unit :=
  repoCall (RepoUpdateItemStatus itemId status)
    (fun now d =>
       mkDB (scrapingJobs d) (map (setItem now itemId status data) (scrapingItems d))).

(** [SELECT * FROM scraping_items WHERE job_id = jobId]. *)
Definition itemsOfJob (jobId : jsstring) (d : DB) : list Item.ScrapingItemEntity :=
  List.filter (fun it => str_eqb (Item.jobId it) jobId) (scrapingItems d).

Definition isProcessed (it : Item.ScrapingItemEntity) : bool :=
  str_eqb (Item.status it) (lit "completed") || str_eqb (Item.status it) (lit "failed").

Definition isFailed (it : Item.ScrapingItemEntity) : bool :=
  str_eqb (Item.status it) (lit "failed").

(** Lines 290-298 of updateJobProgress. *)
Definition jobStatusOf (completedCount failedCount totalCount : nat) : jsstring :=
  if (completedCount =? totalCount) && (0 <? totalCount) then
    if failedCount =? totalCount then lit "failed" else lit "completed"
  else lit "processing".

(** [UPDATE scraping_jobs SET processedUrls, failedUrls, status, updatedAt = now
    WHERE id = jobId]. *)
Definition setJob (now : Time) (jobId : jsstring) (completedCount failedCount : nat)
    (jobStatus : jsstring) (j : Job.ScrapingJobEntity) : Job.ScrapingJobEntity :=
  if str_eqb (Job.id j) jobId then
    Job.mk (Job.id j) (Job.userId j) jobStatus (Job.totalUrls j)
      completedCount failedCount (Job.createdAt j) now
  else j.

(** The read and the write of updateJobProgress when neither query fails. *)
Definition recalcJob (now : Time) (jobId : jsstring) (d : DB) : DB :=
  let items := itemsOfJob jobId d in
  let completedCount := length (List.filter isProcessed items) in
  let failedCount := length (List.filter isFailed items) in
  let totalCount := length items in
  let jobStatus := jobStatusOf completedCount failedCount totalCount in
  mkDB (map (setJob now jobId completedCount failedCount jobStatus) (scrapingJobs d))
       (scrapingItems d).

Definition updateJobProgress (jobId : jsstring) : M unit :=
  repoCall (RepoUpdateJobProgress jobId) (fun now d => recalcJob now jobId d).

(** ** The libraries the processor calls *)

(** One element matched by a selector: [el sel] is
    [$(element).find(sel).text()]. *)
Definition Element := jsstring -> Outcome jsstring.

(** A loaded document, seen through the queries the processor makes. *)
Record CheerioAPI := mkCheerio {
  text : jsstring -> Outcome jsstring;
    (* $(sel).text() *)
  attr : jsstring -> jsstring -> Outcome (option jsstring);
    (* $(sel).attr(a), undefined as None *)
  firstText : jsstring -> Outcome jsstring;
    (* $(sel).first().text() *)
  firstAttr : jsstring -> jsstring -> Outcome (option jsstring);
    (* $(sel).first().attr(a) *)
  each : jsstring -> Outcome (list Element)
    (* the elements $(sel).each visits, in document order *)
}.

(** What compromise returns for a text. *)
Record NlpDoc := mkNlp {
  organizations : list jsstring;
  places : list jsstring;
  nlp_people : list jsstring
}.

Record Env := mkEnv {
  axios_get : jsstring -> Outcome jsstring;
    (* axios.get(url, ...): response.data, or the rejection *)
  cheerio_load : jsstring -> Outcome CheerioAPI;
  nlp : jsstring -> Outcome NlpDoc;
  REQUEST_DELAY_MS : Z
}.

(** ** Constants of scraping.processor.ts *)

Record CompanyData := mkCompany {
  companyName : option jsstring;
  website : option jsstring;
  industry : option jsstring;
  headcountRange : option jsstring;
  hqLocation : option jsstring
}.

Definition SEL_COMPANY_NAME : jsstring := lit "h1.company-name".
Definition SEL_COMPANY_WEBSITE : jsstring := lit "a.company-website".
Definition SEL_INDUSTRY : jsstring := lit "span.industry".
Definition SEL_HEADCOUNT : jsstring := lit "span.headcount".
Definition SEL_LOCATION : jsstring := lit "span.location".
Definition SEL_CONTACT_CARD : jsstring := lit ".contact-card".
Definition SEL_CONTACT_NAME : jsstring := lit ".contact-name".
Definition SEL_CONTACT_TITLE : jsstring := lit ".contact-title".
Definition SEL_CONTACT_EMAIL : jsstring := lit ".contact-email".

(** [open"value"close], the value in double quotes. *)
Definition quoting (open value close : string) : jsstring :=
  lit open ++ [34%N] ++ lit value ++ [34%N] ++ lit close.

Definition FALLBACK_COMPANY_NAME : list jsstring :=
  [ lit "h1"; lit "title"; quoting "meta[property=" "og:site_name" "]";
    quoting "meta[name=" "application-name" "]"; lit ".company-title";
    lit ".business-name";
    quoting "[itemtype*=" "Organization" "] " ++ quoting "[itemprop=" "name" "]" ].

Definition FALLBACK_WEBSITE : list jsstring :=
  [ quoting "a[href*=" "http" "]"; quoting "link[rel=" "canonical" "]";
    quoting "meta[property=" "og:url" "]" ].

Definition FALLBACK_INDUSTRY : list jsstring :=
  [ lit ".category"; lit ".sector"; quoting "[itemprop=" "industry" "]";
    quoting "meta[name=" "keywords" "]" ].

Definition FALLBACK_HEADCOUNT : list jsstring :=
  [ lit ".employees"; lit ".team-size"; lit ".staff-count";
    quoting "[itemprop=" "numberOfEmployees" "]" ].

Definition FALLBACK_LOCATION : list jsstring :=
  [ lit ".address"; lit ".location"; lit ".city";
    quoting "[itemprop=" "address" "]"; quoting "[itemprop=" "location" "]";
    quoting "meta[name=" "geo.position" "]" ].

Definition MAX_TEXT_LENGTH : nat := N.to_nat 100000.

(** ** fetchHtml: the message of the error it throws *)

Definition codeIs (code : option jsstring) (c : string) : bool :=
  match code with Some s => str_eqb s (lit c) | None => false end.

Definition fetchErrorMessage (error : Thrown) : jsstring :=
  match error with
  | AxiosError code statusCode message =>
      match statusCode with
      | Some n =>
          if (negb (n =? 0) && (400 <=? n))%N then lit "HTTP " ++ decimal n
          else if codeIs code "ECONNABORTED" then lit "Request timeout"
          else if codeIs code "ECONNREFUSED" then lit "Connection refused"
          else if codeIs code "ENOTFOUND" then lit "DNS resolution failed"
          else if codeIs code "ECONNRESET" then lit "Connection reset by server"
          else message
      | None =>
          if codeIs code "ECONNABORTED" then lit "Request timeout"
          else if codeIs code "ECONNREFUSED" then lit "Connection refused"
          else if codeIs code "ENOTFOUND" then lit "DNS resolution failed"
          else if codeIs code "ECONNRESET" then lit "Connection reset by server"
          else message
      end
  | ErrorObj message => message
  | NonError _ => lit "Unknown error"
  end.

(** [error instanceof Error ? error.message : String(error)]. *)
Definition messageOf (error : Thrown) : jsstring :=
  match error with
  | ErrorObj message => message
  | AxiosError _ _ message => message
  | NonError s => s
  end.

(** ** tryFallbackSelectors *)

(** The query chosen by the shape of the selector. *)
Definition probe (page : CheerioAPI) (selector : jsstring) : Outcome (option jsstring) :=
  if startsWith (lit "meta") selector then attr page selector (lit "content")
  else if str_eqb selector (lit "title") then
    match text page (lit "title") with Ok v => Ok (Some v) | Throw e => Throw e end
  else if startsWith (lit "link") selector then attr page selector (lit "href")
  else if includes (lit "[href") selector then firstAttr page selector (lit "href")
  else match firstText page selector with Ok v => Ok (Some v) | Throw e => Throw e end.

(** [if (value) { cleaned = value.trim(); if (0 < cleaned.length < 500) return cleaned }]. *)
Definition accept (value : option jsstring) : option jsstring :=
  match value with
  | Some v =>
      if truthy v then
        let cleaned := trim v in
        if (0 <? length cleaned) && (length cleaned <? 500) then Some cleaned else None
      else None
  | None => None
  end.

Fixpoint tryFallbackSelectors (page : CheerioAPI) (selectors : list jsstring)
    : option jsstring :=
  match selectors with
  | [] => None
  | selector :: rest =>
      match probe page selector with
      | Ok value =>
          match accept value with
          | Some cleaned => Some cleaned
          | None => tryFallbackSelectors page rest
          end
      | Throw _ => tryFallbackSelectors page rest
      end
  end.

(** ** The e-mail pattern
    [/\b[A-Za-z0-9._%+-]+@[A-Za-z0-9.-]+\.[A-Za-z]{2,}\b/g] *)

Definition isAlpha (c : char16) : bool :=
  ((65 <=? c) && (c <=? 90) || (97 <=? c) && (c <=? 122))%N.

Definition isDigit (c : char16) : bool := ((48 <=? c) && (c <=? 57))%N.

(** [\w] *)
Definition isWordChar (c : char16) : bool := isAlpha c || isDigit c || (c =? 95)%N.

(** [[A-Za-z0-9._%+-]] *)
Definition isLocalChar (c : char16) : bool :=
  isAlpha c || isDigit c
  || ((c =? 46) || (c =? 95) || (c =? 37) || (c =? 43) || (c =? 45))%N.

(** [[A-Za-z0-9.-]] *)
Definition isDomainChar (c : char16) : bool :=
  isAlpha c || isDigit c || ((c =? 46) || (c =? 45))%N.

Fixpoint span (p : char16 -> bool) (s : jsstring) : jsstring * jsstring :=
  match s with
  | c :: r =>
      if p c then let '(run, rest) := span p r in (c :: run, rest) else ([], s)
  | [] => ([], [])
  end.

Definition wordAt (c : option char16) : bool :=
  match c with Some x => isWordChar x | None => false end.

(** [[A-Za-z]{2,}\b] at the start of [s]: only the whole run of letters can
    end at a word boundary. *)
Definition tldLength (s : jsstring) : option nat :=
  let '(letters, rest) := span isAlpha s in
  if (2 <=? length letters) && negb (wordAt (head rest))
  then Some (length letters) else None.

(** [[A-Za-z0-9.-]+\.[A-Za-z]{2,}\b] with [k] code units of the first class
    already consumed: the length matched from here on, the greedy quantifier
    preferring the longest first part. *)
Fixpoint domainRest (k : nat) (s : jsstring) : option nat :=
  match s with
  | c :: r =>
      if isDomainChar c then
        match domainRest (S k) r with
        | Some n => Some (S n)
        | None =>
            if (c =? 46)%N && (1 <=? k) then
              match tldLength r with Some t => Some (S t) | None => None end
            else None
        end
      else None
  | [] => None
  end.

(** The length of the match starting at the head of [s], [prev] being the
    code unit before it. *)
Definition matchAt (prev : option char16) (s : jsstring) : option nat :=
  if xorb (wordAt prev) (wordAt (head s)) then
    match span isLocalChar s with
    | (localPart, 64%N :: afterAt) =>
        if 1 <=? length localPart then
          match domainRest 0 afterAt with
          | Some n => Some (length localPart + 1 + n)
          | None => None
          end
        else None
    | _ => None
    end
  else None.

(** All matches, left to right; [skip] code units belong to the match just
    reported. *)
Fixpoint scanEmails (prev : option char16) (skip : nat) (s : jsstring)
    : list jsstring :=
  match s with
  | [] => []
  | c :: r =>
      match skip with
      | S k => scanEmails (Some c) k r
      | O =>
          match matchAt prev s with
          | Some n => take n s :: scanEmails (Some c) (n - 1) r
          | None => scanEmails (Some c) 0 r
          end
      end
  end.

(** [bodyText.match(emailRegex) || []]. *)
Definition matchEmails (bodyText : jsstring) : list jsstring :=
  scanEmails None 0 bodyText.

(** ** ScrapingProcessor *)

Definition cacheGet (key : jsstring) : M (option NerResult) := fun w =>
  (Ok (nerCache w !! key), w).

Definition cacheSet (key : jsstring) (r : NerResult) : M unit := fun w =>
  (Ok tt, mkWorld (db w) (<[key := r]> (nerCache w)) (faults w) (clock w) (trace w)).

Definition cacheDelete (key : jsstring) : M unit := fun w =>
  (Ok tt, mkWorld (db w) (delete key (nerCache w)) (faults w) (clock w) (trace w)).

(** [!v] for [v : string | null]. *)
Definition missing (v : option jsstring) : bool :=
  match v with Some s => negb (truthy s) | None => true end.

(** The test of [organizations.find] and [places.find]. *)
Definition plausible (s : jsstring) : bool := (1 <? length s) && (length s <? 100).

(** [[...new Set(emails)]]: first occurrences, in order. *)
Fixpoint uniqueFrom (seen : list jsstring) (l : list jsstring) : list jsstring :=
  match l with
  | [] => []
  | x :: r =>
      if bool_decide (x ∈ seen) then uniqueFrom seen r
      else x :: uniqueFrom (x :: seen) r
  end.

Definition unique (l : list jsstring) : list jsstring := uniqueFrom [] l.

(** One round [i] of the pairing loop of parseContacts. *)
Definition pairStep (people uniqueEmails : list jsstring)
    (contacts : list Contact) (i : nat) : list Contact :=
  match people !! i, uniqueEmails !! i with
  | Some person, Some email =>
      if truthy person && (1 <? length person) && (length person <? 100)
      then contacts ++ [mkContact person (lit "Unknown") email]
      else contacts
  | _, _ => contacts (* not reached: i < maxMatches *)
  end.

(** [for (let i = 0; i < maxMatches; i++) ...]. *)
Definition pairLoop (people uniqueEmails : list jsstring) (maxMatches : nat)
    (contacts : list Contact) : list Contact :=
  fold_left (pairStep people uniqueEmails) (seq 0 maxMatches) contacts.

Definition nullCompanyData : CompanyData := mkCompany None None None None None.

Section Processor.

Variable env : Env.

(** extractWithNER's computation on a cache miss, after the body text was
    read. *)
Definition nerOfText (raw : jsstring) (cacheKey : jsstring) : M NerResult :=
  let bodyText := trim (collapseSpaces raw) in
  if negb (truthy bodyText) || (length bodyText <? 50) then
    let emptyResult := mkNer None None [] [] in
    cacheSet cacheKey emptyResult ;;;
    ret emptyResult
  else
    let bodyText :=
      if MAX_TEXT_LENGTH <? length bodyText
      then substring0 MAX_TEXT_LENGTH bodyText else bodyText in
    emit (NlpRun bodyText) ;;;
    doc <- lift (nlp env bodyText) ;;
    let emails := matchEmails bodyText in
    let companyName := optOrNull (List.find plausible (organizations doc)) in
    let hqLocation := optOrNull (List.find plausible (places doc)) in
    let result := mkNer companyName hqLocation (nlp_people doc) emails in
    cacheSet cacheKey result ;;;
    ret result.

Definition extractWithNER (page : CheerioAPI) (cacheKey : jsstring) : M NerResult :=
  emit (NerCall cacheKey) ;;;
  cached <- cacheGet cacheKey ;;
  match cached with
  | Some r => ret r
  | None =>
      raw <- lift (text page (lit "body")) ;;
      nerOfText raw cacheKey
  end.

(** Layer 1 of parseCompanyData. *)
Definition layer1 (page : CheerioAPI) : M CompanyData :=
  n <- lift (text page SEL_COMPANY_NAME) ;;
  w <- lift (attr page SEL_COMPANY_WEBSITE (lit "href")) ;;
  i <- lift (text page SEL_INDUSTRY) ;;
  h <- lift (text page SEL_HEADCOUNT) ;;
  l <- lift (text page SEL_LOCATION) ;;
  ret (mkCompany (orNull (trim n)) (optOrNull w) (orNull (trim i))
         (orNull (trim h)) (orNull (trim l))).

(** [if (!v) v = tryFallbackSelectors($, selectors)]. *)
Definition fallback (page : CheerioAPI) (v : option jsstring)
    (selectors : list jsstring) : option jsstring :=
  if missing v then tryFallbackSelectors page selectors else v.

(** Layer 2 of parseCompanyData. *)
Definition layer2 (page : CheerioAPI) (d : CompanyData) : CompanyData :=
  mkCompany (fallback page (companyName d) FALLBACK_COMPANY_NAME)
    (fallback page (website d) FALLBACK_WEBSITE)
    (fallback page (industry d) FALLBACK_INDUSTRY)
    (fallback page (headcountRange d) FALLBACK_HEADCOUNT)
    (fallback page (hqLocation d) FALLBACK_LOCATION).

(** [if (!v && ner) v = ner]. *)
Definition fromNER (v ner : option jsstring) : option jsstring :=
  if missing v && negb (missing ner) then ner else v.

(** Layer 3 of parseCompanyData. *)
Definition layer3 (page : CheerioAPI) (itemId : jsstring) (d : CompanyData)
    : M CompanyData :=
  if missing (companyName d) || missing (hqLocation d) then
    nerData <- extractWithNER page itemId ;;
    ret (mkCompany (fromNER (companyName d) (ner_companyName nerData))
           (website d) (industry d) (headcountRange d)
           (fromNER (hqLocation d) (ner_hqLocation nerData)))
  else ret d.

(** The [try] block of parseCompanyData. *)
Definition parseCompanyDataTry (page : CheerioAPI) (itemId : jsstring)
    : M CompanyData :=
  d1 <- layer1 page ;;
  layer3 page itemId (layer2 page d1).

Definition parseCompanyData (page : CheerioAPI) (itemId : jsstring) : M CompanyData :=
  try_catch (parseCompanyDataTry page itemId) (fun _ => ret nullCompanyData).

(** The callback of [$(SELECTORS.CONTACT_CARD).each]. *)
Definition contactOfCard (element : Element) (contacts : list Contact)
    : M (list Contact) :=
  n <- lift (element SEL_CONTACT_NAME) ;;
  t <- lift (element SEL_CONTACT_TITLE) ;;
  e <- lift (element SEL_CONTACT_EMAIL) ;;
  let name := trim n in
  let title := trim t in
  let email := trim e in
  if truthy name && truthy title && truthy email
  then ret (contacts ++ [mkContact name title email])
  else ret contacts.

Fixpoint eachCard (elements : list Element) (contacts : list Contact)
    : M (list Contact) :=
  match elements with
  | [] => ret contacts
  | element :: rest =>
      contacts' <- contactOfCard element contacts ;;
      eachCard rest contacts'
  end.

(** The second layer of parseContacts, entered when no card gave a contact. *)
Definition contactsFromNER (page : CheerioAPI) (itemId : jsstring)
    (contacts : list Contact) : M (list Contact) :=
  nerData <- extractWithNER page itemId ;;
  if (0 <? length (people nerData)) && (0 <? length (emails nerData)) then
    let uniqueEmails := unique (emails nerData) in
    let maxMatches := Nat.min (length (people nerData)) (length uniqueEmails) in
    ret (pairLoop (people nerData) uniqueEmails maxMatches contacts)
  else ret contacts.

(** The [try] block of parseContacts. *)
Definition parseContactsTry (page : CheerioAPI) (itemId : jsstring)
    : M (option (list Contact)) :=
  elements <- lift (each page SEL_CONTACT_CARD) ;;
  contacts <- eachCard elements [] ;;
  contacts <- (if length contacts =? 0
               then contactsFromNER page itemId contacts
               else ret contacts) ;;
  ret (if 0 <? length contacts then Some contacts else None).

Definition parseContacts (page : CheerioAPI) (itemId : jsstring)
    : M (option (list Contact)) :=
  try_catch (parseContactsTry page itemId) (fun _ => ret None).

Definition applyRateLimit : M unit :=
  let delayMs := REQUEST_DELAY_MS env in
  if (0 <? delayMs)%Z then emit (Sleep (Z.to_N delayMs)) else ret tt.

Definition fetchHtml (url : jsstring) : M jsstring :=
  emit (HttpGet url) ;;;
  try_catch (lift (axios_get env url))
    (fun error => throw (ErrorObj (fetchErrorMessage error))).

(** The [try] block of processItem. *)
Definition processItemTry (itemId url jobId : jsstring) : M unit :=
  startedAt <- newDate ;;
  updateItemStatus itemId (lit "processing")
    (mkPatch (Some (Some startedAt)) None None None None None None None None None) ;;;
  applyRateLimit ;;;
  html <- fetchHtml url ;;
  page <- lift (cheerio_load env html) ;;
  companyData <- parseCompanyData page itemId ;;
  contacts <- parseContacts page itemId ;;
  cacheDelete itemId ;;;
  scrapedAt <- newDate ;;
  finishedAt <- newDate ;;
  updateItemStatus itemId (lit "completed")
    (mkPatch None (Some (Some finishedAt)) (Some None)
       (Some (companyName companyData)) (Some (website companyData))
       (Some (industry companyData)) (Some (headcountRange companyData))
       (Some (hqLocation companyData)) (Some contacts)
       (Some (Some (mkRawData url (length html) scrapedAt)))).

(** The [catch] block of processItem. *)
Definition processItemCatch (itemId : jsstring) (error : Thrown) : M unit :=
  let errorMessage := messageOf error in
  finishedAt <- newDate ;;
  updateItemStatus itemId (lit "failed")
    (mkPatch None (Some (Some finishedAt)) (Some (Some errorMessage))
       None None None None None None None).

(** The [finally] block of processItem. *)
Definition processItemFinally (jobId : jsstring) : M unit :=
  try_catch (updateJobProgress jobId) (fun _ => ret tt).

Definition processItem (itemId url jobId : jsstring) : M unit :=
  try_finally
    (try_catch (processItemTry itemId url jobId) (processItemCatch itemId))
    (processItemFinally jobId).

(** [process(job)], [job.data] being [{itemId, url, jobId}]. *)
Definition process (itemId url jobId : jsstring) : M unit :=
  try_catch (processItem itemId url jobId) (fun error => throw error).

End Processor.

(** ** Statements about the progress aggregator *)

(** The clock moving on between two calls. *)
Definition atTime (t : Time) (w : World) : World :=
  mkWorld (db w) (nerCache w) (faults w) t (trace w).

Definition inStatus (s : string) (it : Item.ScrapingItemEntity) : Prop :=
  Item.status it = lit s.

#[global] Instance inStatus_dec (s : string) (it : Item.ScrapingItemEntity)
  : Decision (inStatus s it) := decide (Item.status it = lit s).

(** The counters of a job row against a snapshot of its items. *)
Definition countsRule (snapshot : list Item.ScrapingItemEntity)
    (j : Job.ScrapingJobEntity) : Prop :=
  Job.processedUrls j
    = length (filter (fun it => inStatus "completed" it \/ inStatus "failed" it) snapshot)
  /\ Job.failedUrls j = length (filter (inStatus "failed") snapshot).

(** The status of a job row as the specification derives it from the
    counters and a total. *)
Definition statusAsSpecified (total : nat) (j : Job.ScrapingJobEntity) : Prop :=
  let processed := Job.processedUrls j in
  let failed := Job.failedUrls j in
  (Job.status j = lit "completed" <-> processed = total /\ failed < total)
  /\ (Job.status j = lit "failed" <-> processed = total /\ total = failed)
  /\ (~ (processed = total /\ failed < total) ->
      ~ (processed = total /\ total = failed) ->
      Job.status j = lit "processing").

(** The same with the guard of the code: a job without items is never
    failed. *)
Definition statusRule (total : nat) (j : Job.ScrapingJobEntity) : Prop :=
  let processed := Job.processedUrls j in
  let failed := Job.failedUrls j in
  (Job.status j = lit "completed" <-> processed = total /\ failed < total)
  /\ (Job.status j = lit "failed" <-> 0 < total /\ processed = total /\ total = failed)
  /\ (~ (processed = total /\ failed < total) ->
      ~ (0 < total /\ processed = total /\ total = failed) ->
      Job.status j = lit "processing").

(** An update that only moves [updatedAt]. *)
Definition touch (now : Time) (jobId : jsstring) (j : Job.ScrapingJobEntity)
    : Job.ScrapingJobEntity :=
  if str_eqb (Job.id j) jobId then
    Job.mk (Job.id j) (Job.userId j) (Job.status j) (Job.totalUrls j)
      (Job.processedUrls j) (Job.failedUrls j) (Job.createdAt j) now
  else j.

(** Sample rows and worlds. *)
Definition sampleJob (jobId : string) (total : nat) : Job.ScrapingJobEntity :=
  Job.mk (lit jobId) None (lit "pending") total 0 0 5%N 5%N.

Definition sampleItem (itemId jobId status : string) : Item.ScrapingItemEntity :=
  Item.mk (lit itemId) (lit jobId) (lit "http://acme.test/") (lit status)
    None None None None None None None None None None 5%N 5%N.

Definition worldOf (d : DB) (fs : list (option Thrown)) (t : Time) : World :=
  mkWorld d ∅ fs t [].

(** A job whose snapshot of items is empty. *)
Definition emptyJobWorld : World :=
  worldOf (mkDB [sampleJob "job-1" 0] []) [] 1000%N.

(** A job with two finished items of three. *)
Definition mixedJobWorld : World :=
  worldOf (mkDB [sampleJob "job-1" 3; sampleJob "job-2" 1]
             [sampleItem "a" "job-1" "completed"; sampleItem "b" "job-1" "failed";
              sampleItem "c" "job-1" "processing"; sampleItem "d" "job-2" "failed"])
          [] 1000%N.

(** The row of job-1 after one recalculation in [emptyJobWorld] and in
    [mixedJobWorld]. *)
Definition emptyJobRow : Job.ScrapingJobEntity :=
  Job.mk (lit "job-1") None (lit "processing") 0 0 0 5%N 1000%N.

Definition mixedJobRow : Job.ScrapingJobEntity :=
  Job.mk (lit "job-1") None (lit "processing") 3 2 1 5%N 1000%N.

(** ** Statements about the monad *)

(** A computation only ever appends to the trace. *)
Definition traceGrows {A} (m : M A) : Prop :=
  forall w o w', m w = (o, w') -> exists evs, trace w' = trace w ++ evs.

(** ** Sample documents and environments *)

(** A page whose only structured markup is [h1.company-name] = "Acme Corp";
    its body text is [body]. *)
Definition acmePage (body : jsstring) : CheerioAPI :=
  mkCheerio
    (fun sel =>
       if str_eqb sel SEL_COMPANY_NAME then Ok (lit "Acme Corp")
       else if str_eqb sel (lit "body") then Ok body
       else Ok [])
    (fun _ _ => Ok None)
    (fun _ => Ok [])
    (fun _ _ => Ok None)
    (fun _ => Ok []).

(** Every fetch succeeds and every page is [acmePage body]; compromise finds
    what [doc] says. *)
Definition servingEnv (body : jsstring) (doc : Outcome NlpDoc) : Env :=
  mkEnv (fun _ => Ok (lit "<html></html>")) (fun _ => Ok (acmePage body))
    (fun _ => doc) 500%Z.

(** Every fetch is rejected with [error]. *)
Definition rejectingEnv (error : Thrown) : Env :=
  mkEnv (fun _ => Throw error) (fun _ => Ok (acmePage []))
    (fun _ => Ok (mkNlp [] [] [])) 500%Z.

(** One job with one pending item; [fs] is the fault schedule. *)
Definition oneItemWorld (fs : list (option Thrown)) : World :=
  worldOf (mkDB [sampleJob "job-1" 1] [sampleItem "a" "job-1" "pending"]) fs 1000%N.

Definition dbDown : Thrown := ErrorObj (lit "Connection terminated unexpectedly").

(** ** Statements about the classification of fetch errors *)

(** A rule: when it applies to (code, status), and the message it gives. *)
Definition Rule : Type :=
  (option jsstring -> option N -> bool) * (option N -> jsstring).

(** Rules in priority order: the first that applies decides, the raw
    message of the error being the default. *)
Definition firstMatch (rules : list Rule) (code : option jsstring)
    (status : option N) (message : jsstring) : jsstring :=
  match List.find (fun r : Rule => fst r code status) rules with
  | Some r => snd r status
  | None => message
  end.

Definition byCode (c text : string) : Rule :=
  (fun code _ => codeIs code c, fun _ => lit text).

Definition httpText (status : option N) : jsstring :=
  lit "HTTP " ++ decimal (default 0%N status).

Definition transportRules : list Rule :=
  [ byCode "ECONNABORTED" "Request timeout";
    byCode "ECONNREFUSED" "Connection refused";
    byCode "ENOTFOUND" "DNS resolution failed";
    byCode "ECONNRESET" "Connection reset by server" ].

(** The order the specification gives: the four transport failures, then any
    status code. *)
Definition specifiedOrder : list Rule :=
  transportRules ++ [ (fun _ status => bool_decide (is_Some status), httpText) ].


Definition isTransportCode (code : option jsstring) : bool :=
  codeIs code "ECONNABORTED" || codeIs code "ECONNREFUSED"
  || codeIs code "ENOTFOUND" || codeIs code "ECONNRESET".

(** The errors [axios.get] rejects with under [validateStatus: status < 400]:
    a transport failure, which carries no response; a response the
    validation refused, whose status is 400 or more and whose code is axios's
    own, none of the four transport codes; or another [Error]. *)
Definition receivable (error : Thrown) : Prop :=
  match error with
  | AxiosError code status _ =>
      match status with
      | None => True
      | Some n => (400 <= n)%N /\ isTransportCode code = false
      end
  | ErrorObj _ => True
  | NonError _ => False
  end.

(** A response refused by the validation. *)
Definition badGateway : Thrown :=
  AxiosError (Some (lit "ERR_BAD_RESPONSE")) (Some 502%N)
    (lit "Request failed with status code 502").

Definition dnsFailure : Thrown :=
  AxiosError (Some (lit "ENOTFOUND")) None (lit "getaddrinfo ENOTFOUND acme.test").

(** ** Statements about the extractor *)

(** Worlds after a step. *)
Definition traced (evs : list Event) (w : World) : World :=
  mkWorld (db w) (nerCache w) (faults w) (clock w) (trace w ++ evs).

Definition cached (key : jsstring) (r : NerResult) (w : World) : World :=
  mkWorld (db w) (<[key := r]> (nerCache w)) (faults w) (clock w) (trace w).

(** A later value keeps an earlier one that is present. *)
Definition keepsField (earlier later : option jsstring) : Prop :=
  forall v, earlier = Some v -> v <> [] -> later = Some v.

Definition keeps (d d' : CompanyData) : Prop :=
  keepsField (companyName d) (companyName d')
  /\ keepsField (website d) (website d')
  /\ keepsField (industry d) (industry d')
  /\ keepsField (headcountRange d) (headcountRange d')
  /\ keepsField (hqLocation d) (hqLocation d').

(** A length strictly between 1 and 100. *)
Definition inBand (s : jsstring) : Prop := 1 < length s < 100.

(** [o] is the first element of [l] that satisfies [P], or null when there is
    none. *)
Definition firstIn (P : jsstring -> Prop) (l : list jsstring)
    (o : option jsstring) : Prop :=
  match o with
  | Some x =>
      exists i, l !! i = Some x /\ P x
                /\ forall j y, j < i -> l !! j = Some y -> ~ P y
  | None => forall y, y ∈ l -> ~ P y
  end.

Definition complete (c : Contact) : Prop :=
  name c <> [] /\ title c <> [] /\ email c <> [].

(** Null, or a non-empty sequence of complete contacts. *)
Definition contactsOk (r : option (list Contact)) : Prop :=
  match r with
  | None => True
  | Some l => l <> [] /\ Forall complete l
  end.

(** Every cached e-mail address is non-empty. *)
Definition cacheOk (c : gmap jsstring NerResult) : Prop :=
  forall k r, c !! k = Some r -> Forall (fun e => e <> []) (emails r).

(** The contact a card stands for: all three sub-fields present and
    non-empty after trimming, or nothing. *)
Definition cardContact (element : Element) : option Contact :=
  match element SEL_CONTACT_NAME, element SEL_CONTACT_TITLE,
        element SEL_CONTACT_EMAIL with
  | Ok n, Ok t, Ok e =>
      if bool_decide (trim n <> [] /\ trim t <> [] /\ trim e <> [])
      then Some (mkContact (trim n) (trim t) (trim e)) else None
  | _, _, _ => None
  end.

(** The contact the i-th person and the i-th distinct address make. *)
Definition pairOf (pe : jsstring * jsstring) : option Contact :=
  if bool_decide (inBand (fst pe))
  then Some (mkContact (fst pe) (lit "Unknown") (snd pe)) else None.

(** A card as three texts. *)
Definition card (n t e : string) : Element := fun sel =>
  if str_eqb sel SEL_CONTACT_NAME then Ok (lit n)
  else if str_eqb sel SEL_CONTACT_TITLE then Ok (lit t)
  else if str_eqb sel SEL_CONTACT_EMAIL then Ok (lit e)
  else Ok [].

(** A page that has only contact cards. *)
Definition cardsPage (cards : list Element) (body : jsstring) : CheerioAPI :=
  mkCheerio
    (fun sel => if str_eqb sel (lit "body") then Ok body else Ok [])
    (fun _ _ => Ok None)
    (fun _ => Ok [])
    (fun _ _ => Ok None)
    (fun sel => if str_eqb sel SEL_CONTACT_CARD then Ok cards else Ok []).

(** A body text of 60 code units. *)
Definition longBody : jsstring :=
  lit "Acme Corp builds rockets in San Francisco since 1999. Welcome.".

Definition nlpCrash : Thrown := ErrorObj (lit "Cannot read properties of undefined").

(** A page on which the query for contact cards throws. *)
Definition brokenCardsPage : CheerioAPI :=
  mkCheerio (fun _ => Ok []) (fun _ _ => Ok None) (fun _ => Ok [])
    (fun _ _ => Ok None) (fun _ => Throw (ErrorObj (lit "Unmatched selector"))).

(** The contacts rebuilt from an entity-recognition result: persons and
    distinct addresses paired by position. *)
Definition nerContacts (ner : NerResult) : list Contact :=
  omap pairOf (zip (people ner) (unique (emails ner))).

Definition emptyNer : NerResult := mkNer None None [] [].

(** The text handed to compromise and to the e-mail pattern. *)
Definition analysed (raw : jsstring) : jsstring :=
  take MAX_TEXT_LENGTH (trim (collapseSpaces raw)).

(** The result computed from the analysed text and what compromise found. *)
Definition nerOfDoc (text : jsstring) (doc : NlpDoc) : NerResult :=
  mkNer (optOrNull (List.find plausible (organizations doc)))
    (optOrNull (List.find plausible (places doc)))
    (nlp_people doc) (matchEmails text).

(** [contacts.length > 0 ? contacts : null]. *)
Definition orNullList (l : list Contact) : option (list Contact) :=
  if 0 <? length l then Some l else None.

(** The loop of parseContacts on what entity recognition found. *)
Definition pairedContacts (people emails : list jsstring) : list Contact :=
  pairLoop people (unique emails)
    (Nat.min (length people) (length (unique emails))) [].

(** Two persons, the first with a one-letter name, and two addresses, one
    of them repeated. *)
Definition samplePeople : list jsstring := [lit "J"; lit "Jane Doe"].

Definition sampleEmails : list jsstring :=
  [lit "info@acme.com"; lit "info@acme.com"; lit "jane@acme.com"].

(** compromise finding another organization and a place in the body. *)
Definition rocketDoc : NlpDoc :=
  mkNlp [lit "Rocket Inc"] [lit "San Francisco"] [].

(** ** Statements about the cache *)

(** A computation leaves the cache alone. *)
Definition cacheSilent {A} (m : M A) : Prop :=
  forall w o w', m w = (o, w') -> nerCache w' = nerCache w.

(** A computation touches no entry of the cache but that of [key]. *)
Definition cacheOnly {A} (key : jsstring) (m : M A) : Prop :=
  forall w o w', m w = (o, w') ->
  forall k, k <> key -> nerCache w' !! k = nerCache w !! k.

(** ** Further statements: steps of a computation *)

(** Every run of [m] relates the world before to the world after by [R]. *)
Definition steps (R : World -> World -> Prop) {A} (m : M A) : Prop :=
  forall w o w', m w = (o, w') -> R w w'.

(** What a relation must allow for the body of a task on [itemId] and [url]
    to step by it: the effects the body can have. *)
Record BodyLeaves (R : World -> World -> Prop) (itemId url : jsstring) : Prop :=
  mkLeaves {
    lv_refl : forall w, R w w;
    lv_trans : forall a b c, R a b -> R b c -> R a c;
    lv_sleep : forall ms, steps R (emit (Sleep ms));
    lv_get : steps R (emit (HttpGet url));
    lv_ner : steps R (emit (NerCall itemId));
    lv_nlp : forall t, steps R (emit (NlpRun t));
    lv_set : forall r, steps R (cacheSet itemId r);
    lv_del : steps R (cacheDelete itemId);
    lv_item : forall s data,
      s ∈ [lit "processing"; lit "completed"; lit "failed"] ->
      steps R (updateItemStatus itemId s data)
  }.

(** Rows of another item are left as they are, and no row changes its id,
    job, url or creation time. *)
Definition itemKept (itemId : jsstring) (a b : Item.ScrapingItemEntity) : Prop :=
  Item.id b = Item.id a /\ Item.jobId b = Item.jobId a /\ Item.url b = Item.url a
  /\ Item.createdAt b = Item.createdAt a
  /\ (Item.id a <> itemId -> b = a).

(** Rows of another job are left as they are, and no row changes its id,
    owner, totalUrls or creation time. *)
Definition jobKept (jobId : jsstring) (a b : Job.ScrapingJobEntity) : Prop :=
  Job.id b = Job.id a /\ Job.userId b = Job.userId a
  /\ Job.totalUrls b = Job.totalUrls a /\ Job.createdAt b = Job.createdAt a
  /\ (Job.id a <> jobId -> b = a).

Definition dbKept (itemId jobId : jsstring) (d d' : DB) : Prop :=
  Forall2 (itemKept itemId) (scrapingItems d) (scrapingItems d')
  /\ Forall2 (jobKept jobId) (scrapingJobs d) (scrapingJobs d').

(** The events the body of a task on [itemId] and [url] may add. *)
Definition bodyEvent (itemId url : jsstring) (ev : Event) : Prop :=
  match ev with
  | RepoUpdateItemStatus i s =>
      i = itemId /\ s ∈ [lit "processing"; lit "completed"; lit "failed"]
  | RepoUpdateJobProgress _ => False
  | HttpGet u => u = url
  | Sleep _ => True
  | NerCall k => k = itemId
  | NlpRun _ => True
  end.

Definition isHttpGet (ev : Event) : bool :=
  match ev with HttpGet _ => true | _ => false end.

Definition isNlpRun (ev : Event) : bool :=
  match ev with NlpRun _ => true | _ => false end.

(** The world grew by events that all satisfy [P]. *)
Definition addsOnly (P : Event -> Prop) (w w' : World) : Prop :=
  exists evs, trace w' = trace w ++ evs /\ Forall P evs.

(** A terminal item status. *)
Definition terminal (s : jsstring) : Prop := s = lit "completed" \/ s = lit "failed".

(** The state in which the [finally] block of processItem starts: the one the
    [try] block, and the [catch] block if it ran, leave. *)
Definition afterBody (env : Env) (itemId url jobId : jsstring) (w : World)
    : World :=
  snd (try_catch (processItemTry env itemId url jobId) (processItemCatch itemId) w).

(** ** getExtractionMethod *)

(** [methods.join(sep)]. *)
Fixpoint join (sep : jsstring) (l : list jsstring) : jsstring :=
  match l with
  | [] => []
  | [x] => x
  | x :: r => x ++ sep ++ join sep r
  end.

(** [if (v) methods.push(label)]. *)
Definition pushIf (v : option jsstring) (label : string)
    (methods : list jsstring) : list jsstring :=
  if negb (missing v) then methods ++ [lit label] else methods.

Definition getExtractionMethod (data : CompanyData) : jsstring :=
  let methods := [] in
  let methods := pushIf (companyName data) "name" methods in
  let methods := pushIf (website data) "website" methods in
  let methods := pushIf (industry data) "industry" methods in
  let methods := pushIf (headcountRange data) "headcount" methods in
  let methods := pushIf (hqLocation data) "location" methods in
  if 0 <? length methods then join (lit "+") methods else lit "none".

(** ** Candidates of tryFallbackSelectors *)

(** What one selector contributes: its probed value when that is
    acceptable; nothing when the query throws. *)
Definition candidate (page : CheerioAPI) (selector : jsstring) : option jsstring :=
  match probe page selector with
  | Ok value => accept value
  | Throw _ => None
  end.

(** No white space at either end. *)
Definition trimmed (s : jsstring) : Prop :=
  (forall c, head s = Some c -> is_space c = false)
  /\ (forall c, last s = Some c -> is_space c = false).

Definition nonEmptyField (v : option jsstring) : Prop :=
  match v with Some s => s <> [] | None => True end.

(** A page whose [h1] query throws and whose title is padded with spaces. *)
Definition titledPage : CheerioAPI :=
  mkCheerio
    (fun sel => if str_eqb sel (lit "title") then Ok (lit "  Acme Corp  ") else Ok [])
    (fun _ _ => Ok None)
    (fun sel => if str_eqb sel (lit "h1")
                then Throw (ErrorObj (lit "Unmatched selector")) else Ok [])
    (fun _ _ => Ok None)
    (fun _ => Ok []).

(** Database, fault schedule and clock are the same. *)
Definition sameStore (w w' : World) : Prop :=
  db w' = db w /\ faults w' = faults w /\ clock w' = clock w.

(** The patches processItem passes to updateItemStatus. *)
Definition processingPatch (now : Time) : ItemPatch :=
  mkPatch (Some (Some now)) None None None None None None None None None.

Definition completedPatch (now : Time) (url html : jsstring) (cd : CompanyData)
    (cs : option (list Contact)) : ItemPatch :=
  mkPatch None (Some (Some now)) (Some None)
    (Some (companyName cd)) (Some (website cd)) (Some (industry cd))
    (Some (headcountRange cd)) (Some (hqLocation cd)) (Some cs)
    (Some (Some (mkRawData url (length html) now))).

Definition failedPatch (now : Time) (errorMessage : jsstring) : ItemPatch :=
  mkPatch None (Some (Some now)) (Some (Some errorMessage))
    None None None None None None None.

(** A world whose cache holds an entry of another item. *)
Definition staleCacheWorld : World :=
  mkWorld (mkDB [sampleJob "job-1" 1] [sampleItem "a" "job-1" "pending"])
    {[ lit "b" := mkNer (Some (lit "Old Corp")) None [] [] ]} [] 1000%N [].

(** One piece of [whole]: [whole = before ++ piece ++ after]. *)
Definition pieceOf (piece whole : jsstring) : Prop :=
  exists before after, whole = before ++ piece ++ after.

(** ** The rest of ScrapingRepository

    Identifiers are generated by the database ([defaultRandom]); the
    functions below take the generated identifiers as arguments.  The
    insert and select methods add nothing to the trace. *)

(** One awaited repository method that returns a value: either the
    database rejects (the repository logs and rethrows) or the statement
    [f] is applied. *)
Definition repoRun {A} (f : Time -> DB -> A * DB) : M A := fun w =>
  match faults w with
  | Some e :: rest =>
      (Throw e, mkWorld (db w) (nerCache w) rest (clock w) (trace w))
  | None :: rest =>
      let '(a, d) := f (clock w) (db w) in
      (Ok a, mkWorld d (nerCache w) rest (clock w) (trace w))
  | [] =>
      let '(a, d) := f (clock w) (db w) in
      (Ok a, mkWorld d (nerCache w) [] (clock w) (trace w))
  end.

Record CreateJobData := mkCreateJob {
  cj_userId : jsstring;
  cj_totalUrls : nat;
  cj_status : option jsstring
}.

Record CreateItemData := mkCreateItem {
  ci_jobId : jsstring;
  ci_url : jsstring;
  ci_status : option jsstring
}.

(** [status || "pending"]. *)
Definition statusOr (status : option jsstring) : jsstring :=
  match optOrNull status with Some s => s | None => lit "pending" end.

(** The row an insert into scraping_jobs makes, with the defaults of the
    schema. *)
Definition newJob (now : Time) (id : jsstring) (data : CreateJobData)
    : Job.ScrapingJobEntity :=
  Job.mk id (Some (cj_userId data)) (statusOr (cj_status data))
    (cj_totalUrls data) 0 0 now now.

(** The row an insert into scraping_items makes, with the defaults of the
    schema. *)
Definition newItem (now : Time) (idAndData : jsstring * CreateItemData)
    : Item.ScrapingItemEntity :=
  Item.mk (fst idAndData) (ci_jobId (snd idAndData)) (ci_url (snd idAndData))
    (statusOr (ci_status (snd idAndData)))
    None None None None None None None None None None now now.

Module Repository.

Definition createJob (id : jsstring) (data : CreateJobData)
    : M Job.ScrapingJobEntity :=
  repoRun (fun now d =>
    (newJob now id data,
     mkDB (scrapingJobs d ++ [newJob now id data]) (scrapingItems d))).

(** [ids] are the identifiers of the new rows, one per item. *)
Definition createItems (ids : list jsstring) (items : list CreateItemData)
    : M (list Item.ScrapingItemEntity) :=
  repoRun (fun now d =>
    (map (newItem now) (zip ids items),
     mkDB (scrapingJobs d) (scrapingItems d ++ map (newItem now) (zip ids items)))).

(** [WHERE id = jobId AND user_id = userId LIMIT 1]. *)
Definition findJobById (jobId userId : jsstring)
    : M (option Job.ScrapingJobEntity) :=
  repoRun (fun _ d =>
    (List.find (fun j => str_eqb (Job.id j) jobId
                         && bool_decide (Job.userId j = Some userId))
       (scrapingJobs d), d)).

Definition findItemsByJobId (jobId : jsstring)
    : M (list Item.ScrapingItemEntity) :=
  repoRun (fun _ d => (itemsOfJob jobId d, d)).

End Repository.

(** ** The queue and the services (scraping-queue.service.ts) *)

Record ScrapeJobData := mkData {
  d_itemId : jsstring;
  d_url : jsstring;
  d_jobId : jsstring
}.

Record JobOptions := mkOptions {
  attempts : N;
  backoffType : jsstring;
  backoffDelay : N;
  removeOnCompleteAge : N;
  removeOnFailAge : N
}.

Record QueuedJob := mkQueued {
  q_name : jsstring;
  q_data : ScrapeJobData;
  q_opts : JobOptions
}.

(** What the queue does with one [add]: it rejects, or it stores the job and
    returns it, with or without an id. *)
Inductive AddReply :=
| AddRejected (e : Thrown)
| AddAccepted (id : option jsstring).

(** An uploaded file; [buffer] is its content decoded as UTF-8, absent when
    the upload was not kept in memory. *)
Record MulterFile := mkFile {
  buffer : option jsstring
}.

(** What the services take from outside. *)
Record SvcEnv := mkSvcEnv {
  isURL : jsstring -> bool;
    (* validator.isURL(url, {protocols: http and https, require_protocol,
       require_valid_protocol}) *)
  MOCK_COMPANY_DATA_SERVER_URL : option jsstring;
  newUuid : nat -> jsstring;
    (* the n-th identifier the database generates *)
  queueReply : nat -> AddReply
    (* the reply of the queue to the n-th add *)
}.

(** The system the services act on: the world of the repository, the jobs
    held by the queue, and how many identifiers and adds were used. *)
Record Sys := mkSys {
  world : World;
  queue : list QueuedJob;
  uuids : nat;
  adds : nat
}.

(** What a service method throws. *)
Inductive Raised :=
| BadRequestException (message : jsstring)
| NotFoundException (message : jsstring)
| OtherError (e : Thrown).

Inductive Result (A : Type) :=
| Done (a : A)
| Raise (r : Raised).
Arguments Done {A} a.
Arguments Raise {A} r.

Definition Svc (A : Type) : Type := Sys -> Result A * Sys.

Definition svcRet {A} (a : A) : Svc A := fun s => (Done a, s).

Definition svcThrow {A} (r : Raised) : Svc A := fun s => (Raise r, s).

Definition svcBind {A B} (m : Svc A) (k : A -> Svc B) : Svc B := fun s =>
  match m s with
  | (Done a, s1) => k a s1
  | (Raise r, s1) => (Raise r, s1)
  end.

Notation "x <~ m ;; k" := (svcBind m (fun x => k))
  (at level 100, m at next level, right associativity).
Notation "m ~;; k" := (svcBind m (fun _ => k))
  (at level 100, right associativity).

Definition catching {A} (body : Svc A) (handler : Raised -> Svc A) : Svc A :=
  fun s =>
  match body s with
  | (Done a, s1) => (Done a, s1)
  | (Raise r, s1) => handler r s1
  end.

(** A repository call made by a service. *)
Definition repo {A} (m : M A) : Svc A := fun s =>
  match m (world s) with
  | (Ok a, w) => (Done a, mkSys w (queue s) (uuids s) (adds s))
  | (Throw e, w) => (Raise (OtherError e), mkSys w (queue s) (uuids s) (adds s))
  end.

(** The next [n] identifiers of the database. *)
Definition freshIds (env : SvcEnv) (n : nat) : Svc (list jsstring) := fun s =>
  (Done (map (newUuid env) (seq (uuids s) n)),
   mkSys (world s) (queue s) (uuids s + n) (adds s)).

Definition scrapeOptions : JobOptions :=
  mkOptions 3 (lit "exponential") 2000 3600 86400.

Definition present {A} (v : option A) : bool :=
  match v with Some _ => true | None => false end.

Module QueueService.

Section WithEnv.

Variable env : SvcEnv.

(** [scrapeQueue.add("scrape-url", data, options)]. *)
Definition add (data : ScrapeJobData) : Svc (option jsstring) := fun s =>
  match queueReply env (adds s) with
  | AddRejected e =>
      (Raise (OtherError e), mkSys (world s) (queue s) (uuids s) (adds s + 1))
  | AddAccepted id =>
      (Done id,
       mkSys (world s)
         (queue s ++ [mkQueued (lit "scrape-url") data scrapeOptions])
         (uuids s) (adds s + 1))
  end.

Definition enqueueSingleUrlJob (itemId url jobId : jsstring) : Svc jsstring :=
  catching
    (id <~ add (mkData itemId url jobId) ;;
     match optOrNull id with
     | None =>
         svcThrow (OtherError (ErrorObj
           (lit "Failed to create scraping job - job ID not assigned")))
     | Some i => svcRet i
     end)
    (fun error => svcThrow error).

(** [items.map(item => enqueueSingleUrlJob(...))]: every call is made,
    whatever becomes of the others. *)
Fixpoint enqueueEach (items : list ScrapeJobData) (s : Sys)
    : list (Result jsstring) * Sys :=
  match items with
  | [] => ([], s)
  | item :: rest =>
      let '(r, s1) :=
        enqueueSingleUrlJob (d_itemId item) (d_url item) (d_jobId item) s in
      let '(rs, s2) := enqueueEach rest s1 in
      (r :: rs, s2)
  end.

(** [Promise.all]: all the values in the order of the calls, or one of the
    rejections (here that of the earliest call). *)
Fixpoint allOf (results : list (Result jsstring)) : Result (list jsstring) :=
  match results with
  | [] => Done []
  | Raise r :: _ => Raise r
  | Done a :: rest =>
      match allOf rest with
      | Done l => Done (a :: l)
      | Raise r => Raise r
      end
  end.

Definition enqueueMultipleUrlJobs (items : list ScrapeJobData)
    : Svc (list jsstring) :=
  catching
    (fun s => let '(rs, s1) := enqueueEach items s in (allOf rs, s1))
    (fun error => svcThrow error).

End WithEnv.

End QueueService.

(** [content.split(/\r?\n/)]; [cur] is the line read so far, reversed. *)
Fixpoint splitFrom (cur : jsstring) (s : jsstring) : list jsstring :=
  match s with
  | [] => [rev cur]
  | c :: r =>
      if (c =? 10)%N then rev cur :: splitFrom [] r
      else
        match r with
        | c' :: r' =>
            if (c =? 13)%N && (c' =? 10)%N then rev cur :: splitFrom [] r'
            else splitFrom (c :: cur) r
        | [] => splitFrom (c :: cur) r
        end
  end.

Definition splitLines (content : jsstring) : list jsstring :=
  splitFrom [] content.

Module Service.

Section WithEnv.

Variable env : SvcEnv.

Definition parseUrlsFromFile (file : MulterFile) : Svc (list jsstring) :=
  catching
    (content <~ match buffer file with
                | Some c => svcRet c
                | None =>
                    svcThrow (OtherError (ErrorObj
                      (lit "Cannot read properties of undefined (reading 'toString')")))
                end ;;
     let urls :=
       List.filter (fun line => 0 <? length line)
         (map trim (splitLines content)) in
     let validUrls := List.filter (isURL env) urls in
     if (length validUrls =? 0) && (0 <? length urls) then
       svcThrow (BadRequestException (lit
         "No valid URLs found in file. URLs must be valid http:// or https:// URLs"))
     else svcRet validUrls)
    (fun error =>
       match error with
       | BadRequestException _ => svcThrow error
       | _ =>
           svcThrow (BadRequestException (lit
             "Failed to parse file. Please ensure it is a valid text file with one URL per line"))
       end).

Definition getMockServerUrl : Svc jsstring :=
  match optOrNull (MOCK_COMPANY_DATA_SERVER_URL env) with
  | None =>
      svcThrow (BadRequestException (lit
        "Mock server is not configured. Please contact the administrator"))
  | Some mockServerUrl => svcRet mockServerUrl
  end.

Definition createJob (userId : jsstring) (file : option MulterFile)
    (useMockServer : bool) : Svc jsstring :=
  catching
    ((if negb (present file) && negb useMockServer then
        svcThrow (BadRequestException (lit
          "Either provide a file with URLs or select mock server mode"))
      else svcRet tt) ~;;
     (if present file && useMockServer then
        svcThrow (BadRequestException (lit
          "Cannot provide both file and mock server mode. Choose one input method"))
      else svcRet tt) ~;;
     urls <~ match file with
             | Some f => parseUrlsFromFile f
             | None =>
                 mockServerUrl <~ getMockServerUrl ;;
                 svcRet (repeat mockServerUrl 15)
             end ;;
     (if length urls =? 0 then
        svcThrow (BadRequestException (lit
          "No valid URLs found. Please provide a file with at least one URL"))
      else svcRet tt) ~;;
     jobIds <~ freshIds env 1 ;;
     job <~ repo (Repository.createJob (List.hd [] jobIds)
                    (mkCreateJob userId (length urls) (Some (lit "pending")))) ;;
     let itemsData :=
       map (fun url => mkCreateItem (Job.id job) url (Some (lit "pending")))
         urls in
     itemIds <~ freshIds env (length itemsData) ;;
     items <~ repo (Repository.createItems itemIds itemsData) ;;
     repo (updateJobProgress (Job.id job)) ~;;
     let jobsToEnqueue :=
       map (fun item => mkData (Item.id item) (Item.url item) (Job.id job))
         items in
     bullmqJobIds <~ QueueService.enqueueMultipleUrlJobs env jobsToEnqueue ;;
     svcRet (Job.id job))
    (fun error =>
       match error with
       | BadRequestException _ | NotFoundException _ => svcThrow error
       | OtherError _ =>
           svcThrow (BadRequestException (lit
             "Failed to create scraping job. Please try again"))
       end).

Definition getJob (jobId userId : jsstring)
    : Svc (Job.ScrapingJobEntity * list Item.ScrapingItemEntity) :=
  catching
    (job <~ repo (Repository.findJobById jobId userId) ;;
     match job with
     | None =>
         svcThrow (NotFoundException (lit
           "Job not found or you do not have access to this job"))
     | Some j =>
         items <~ repo (Repository.findItemsByJobId jobId) ;;
         svcRet (j, items)
     end)
    (fun error =>
       match error with
       | NotFoundException _ => svcThrow error
       | _ => svcThrow (BadRequestException (lit "Failed to retrieve job details"))
       end).

End WithEnv.

End Service.

(** ** Statements about the services *)

(** The task enqueueSingleUrlJob hands to the queue. *)
Definition taskOf (data : ScrapeJobData) : QueuedJob :=
  mkQueued (lit "scrape-url") data scrapeOptions.

(** The queue stored the [n]-th add. *)
Definition stored (env : SvcEnv) (n : nat) : bool :=
  match queueReply env n with
  | AddAccepted _ => true
  | AddRejected _ => false
  end.

(** The id the queue gave to the [n]-th add, if it stored it and gave one. *)
Definition assigned (env : SvcEnv) (n : nat) : option jsstring :=
  match queueReply env n with
  | AddAccepted id => optOrNull id
  | AddRejected _ => None
  end.

(** The tasks of [items] the queue stored, the first add being number [n]. *)
Fixpoint storedTasks (env : SvcEnv) (n : nat) (items : list ScrapeJobData)
    : list QueuedJob :=
  match items with
  | [] => []
  | item :: rest =>
      (if stored env n then [taskOf item] else [])
      ++ storedTasks env (n + 1) rest
  end.

(** No row of the database refers to the job [jobId]. *)
Definition unusedJobId (jobId : jsstring) (d : DB) : Prop :=
  (forall j, j ∈ scrapingJobs d -> Job.id j <> jobId)
  /\ (forall it, it ∈ scrapingItems d -> Item.jobId it <> jobId).

(** The row of an item that waits for its worker. *)
Definition pendingItem (now : Time) (jobId : jsstring)
    (idAndUrl : jsstring * jsstring) : Item.ScrapingItemEntity :=
  Item.mk (fst idAndUrl) jobId (snd idAndUrl) (lit "pending")
    None None None None None None None None None None now now.

(** The data of the task of an item of the job [jobId]. *)
Definition jobData (jobId : jsstring) (idAndUrl : jsstring * jsstring)
    : ScrapeJobData :=
  mkData (fst idAndUrl) (snd idAndUrl) jobId.

(** The task of an item of the job [jobId]. *)
Definition taskFor (jobId : jsstring) (idAndUrl : jsstring * jsstring)
    : QueuedJob :=
  taskOf (mkData (fst idAndUrl) (snd idAndUrl) jobId).

(** The URLs a request asks for: those of the file, or fifteen times the
    mock server. *)
Definition requested (env : SvcEnv) (file : option MulterFile)
    (urls : list jsstring) : Prop :=
  match file with
  | Some f => forall s, Service.parseUrlsFromFile env f s = (Done urls, s)
  | None =>
      exists mockServerUrl,
        MOCK_COMPANY_DATA_SERVER_URL env = Some mockServerUrl
        /\ mockServerUrl <> [] /\ urls = repeat mockServerUrl 15
  end.

(** The messages of createJob. *)
Definition createJobMessages : list jsstring :=
  [lit "Either provide a file with URLs or select mock server mode";
   lit "Cannot provide both file and mock server mode. Choose one input method";
   lit "No valid URLs found in file. URLs must be valid http:// or https:// URLs";
   lit "Failed to parse file. Please ensure it is a valid text file with one URL per line";
   lit "Mock server is not configured. Please contact the administrator";
   lit "No valid URLs found. Please provide a file with at least one URL"].

Definition tryAgain : jsstring :=
  lit "Failed to create scraping job. Please try again".

(** The part of createJob that follows the validation of the request. *)
Definition createJobWrites (env : SvcEnv) (userId : jsstring)
    (urls : list jsstring) : Svc jsstring :=
  jobIds <~ freshIds env 1 ;;
  job <~ repo (Repository.createJob (List.hd [] jobIds)
                 (mkCreateJob userId (length urls) (Some (lit "pending")))) ;;
  let itemsData :=
    map (fun url => mkCreateItem (Job.id job) url (Some (lit "pending")))
      urls in
  itemIds <~ freshIds env (length itemsData) ;;
  items <~ repo (Repository.createItems itemIds itemsData) ;;
  repo (updateJobProgress (Job.id job)) ~;;
  let jobsToEnqueue :=
    map (fun item => mkData (Item.id item) (Item.url item) (Job.id job))
      items in
  bullmqJobIds <~ QueueService.enqueueMultipleUrlJobs env jobsToEnqueue ;;
  svcRet (Job.id job).

(** The error the database answers to the statement number [k] from now, if
    it rejects it. *)
Definition rejection (k : nat) (w : World) : option Thrown :=
  match faults w !! k with
  | Some (Some e) => Some e
  | _ => None
  end.

(** The row of a job as createJob inserts it. *)
Definition pendingJob (now : Time) (jobId userId : jsstring) (total : nat)
    : Job.ScrapingJobEntity :=
  Job.mk jobId (Some userId) (lit "pending") total 0 0 now now.

(** The row of a job whose items wait for their workers. *)
Definition startedJob (now : Time) (jobId userId : jsstring) (total : nat)
    : Job.ScrapingJobEntity :=
  Job.mk jobId (Some userId) (lit "processing") total 0 0 now now.

(** The identifiers createJob gives to the items, the job taking the
    identifier number [n]. *)
Definition itemIdsFrom (env : SvcEnv) (n : nat) (urls : list jsstring)
    : list (jsstring * jsstring) :=
  zip (map (newUuid env) (seq (n + 1) (length urls))) urls.

(** ** Sample services *)

(** A stand-in for the validator: the URL starts with a scheme of the web. *)
Definition webScheme (url : jsstring) : bool :=
  startsWith (lit "http://") url || startsWith (lit "https://") url.

(** A queue that stores every add and numbers it. *)
Definition sampleSvcEnv : SvcEnv :=
  mkSvcEnv webScheme (Some (lit "http://mock.test/company"))
    (fun n => lit "id-" ++ decimal (N.of_nat n))
    (fun n => AddAccepted (Some (lit "q-" ++ decimal (N.of_nat n)))).

(** A queue that rejects the add number 1 and stores the others. *)
Definition flakySvcEnv : SvcEnv :=
  mkSvcEnv webScheme (Some (lit "http://mock.test/company"))
    (fun n => lit "id-" ++ decimal (N.of_nat n))
    (fun n => if n =? 1 then AddRejected (ErrorObj (lit "Connection is closed."))
              else AddAccepted (Some (lit "q-" ++ decimal (N.of_nat n)))).

(** A queue that stores the add but gives it no id. *)
Definition noIdSvcEnv : SvcEnv :=
  mkSvcEnv webScheme None
    (fun n => lit "id-" ++ decimal (N.of_nat n))
    (fun _ => AddAccepted None).

Definition sampleSys (w : World) : Sys := mkSys w [] 0 0.

(** Two URLs on Windows lines, a blank line and a line that is no URL. *)
Definition sampleUpload : MulterFile :=
  mkFile (Some (lit "http://acme.test/" ++ [13; 10]%N
                ++ lit "  " ++ [10]%N
                ++ lit "not a url" ++ [13; 10]%N
                ++ lit " https://globex.test/about " ++ [10]%N)).

Definition sampleData : list ScrapeJobData :=
  [mkData (lit "a") (lit "http://a.test/") (lit "job-1");
   mkData (lit "b") (lit "http://b.test/") (lit "job-1");
   mkData (lit "c") (lit "http://c.test/") (lit "job-1")].

(** The messages of getJob. *)
Definition notFound : jsstring :=
  lit "Job not found or you do not have access to this job".

Definition notRetrieved : jsstring := lit "Failed to retrieve job details".

(** The row of the job [jobId] belongs to [userId]. *)
Definition ownedBy (jobId userId : jsstring) (j : Job.ScrapingJobEntity) : Prop :=
  Job.id j = jobId /\ Job.userId j = Some userId.

(** A job of alice with two items, and a job of bob. *)
Definition ownedWorld : World :=
  worldOf
    (mkDB [Job.mk (lit "job-1") (Some (lit "alice")) (lit "processing") 2 0 0 5%N 5%N;
           Job.mk (lit "job-2") (Some (lit "bob")) (lit "processing") 1 0 0 5%N 5%N]
          [sampleItem "a" "job-1" "pending"; sampleItem "c" "job-2" "pending";
           sampleItem "b" "job-1" "pending"])
    [] 1000%N.

(** [content.split("\n")]: the lines of a text that ends its lines with a
    line feed only; [cur] is the line read so far, reversed. *)
Fixpoint splitAtLineFeeds (cur : jsstring) (s : jsstring) : list jsstring :=
  match s with
  | [] => [rev cur]
  | c :: r =>
      if (c =? 10)%N then rev cur :: splitAtLineFeeds [] r
      else splitAtLineFeeds (c :: cur) r
  end.

(** * Proofs *)

(** ** Strings *)

Lemma str_eqb_eq (a b : jsstring) : str_eqb a b = true <-> a = b.
Proof. unfold str_eqb. apply bool_decide_eq_true. Qed.

Lemma str_eqb_neq (a b : jsstring) : str_eqb a b = false <-> a <> b.
Proof. unfold str_eqb. apply bool_decide_eq_false. Qed.

Lemma statuses_distinct :
  lit "completed" <> lit "failed" /\ lit "completed" <> lit "processing"
  /\ lit "failed" <> lit "processing".
Proof. repeat split; intros H; vm_compute in H; discriminate H. Qed.

(** ** The progress aggregator *)

(** The boolean filters of the code count what the propositions say. *)
Lemma count_processed (l : list Item.ScrapingItemEntity) :
  length (List.filter isProcessed l)
  = length (filter (fun it => inStatus "completed" it \/ inStatus "failed" it) l).
Proof.
  induction l as [|it l IH]; [reflexivity|].
  rewrite filter_cons. simpl. unfold isProcessed at 1.
  destruct (str_eqb (Item.status it) (lit "completed")) eqn:Ec;
    destruct (str_eqb (Item.status it) (lit "failed")) eqn:Ef; simpl;
    rewrite ?str_eqb_eq, ?str_eqb_neq in *;
    unfold inStatus in *; case_decide; simpl; try (f_equal; exact IH); tauto.
Qed.

Lemma count_failed (l : list Item.ScrapingItemEntity) :
  length (List.filter isFailed l) = length (filter (inStatus "failed") l).
Proof.
  induction l as [|it l IH]; [reflexivity|].
  rewrite filter_cons. simpl. unfold isFailed at 1.
  destruct (str_eqb (Item.status it) (lit "failed")) eqn:Ef; simpl;
    rewrite ?str_eqb_eq, ?str_eqb_neq in *;
    unfold inStatus in *; case_decide; simpl; try (f_equal; exact IH); tauto.
Qed.

Lemma filter_length_le {A} (p : A -> bool) (l : list A) :
  length (List.filter p l) <= length l.
Proof. induction l as [|x l IH]; simpl; [lia|]. destruct (p x); simpl; lia. Qed.

Lemma failed_le_processed (l : list Item.ScrapingItemEntity) :
  length (List.filter isFailed l) <= length (List.filter isProcessed l).
Proof.
  induction l as [|it l IH]; simpl; [lia|].
  unfold isFailed at 1, isProcessed at 1.
  destruct (str_eqb (Item.status it) (lit "failed"));
    destruct (str_eqb (Item.status it) (lit "completed")); simpl; lia.
Qed.

(** Lines 290-298 decide the status as [statusRule] says. *)
Lemma jobStatusOf_rule (c f t : nat) (j : Job.ScrapingJobEntity) :
  f <= c -> c <= t ->
  Job.processedUrls j = c -> Job.failedUrls j = f ->
  Job.status j = jobStatusOf c f t ->
  statusRule t j.
Proof.
  intros Hfc Hct Hp Hf Hs. unfold statusRule. cbv zeta. rewrite Hp, Hf, Hs.
  destruct statuses_distinct as (D1 & D2 & D3).
  unfold jobStatusOf.
  destruct (Nat.eqb_spec c t) as [E|E]; destruct (Nat.ltb_spec 0 t) as [L|L];
    simpl; try destruct (Nat.eqb_spec f t) as [F|F];
    repeat split; intros; try congruence; try lia;
    try (exfalso; (congruence || lia)).
Qed.

Lemma setJob_other now jobId c f s j :
  Job.id j <> jobId -> setJob now jobId c f s j = j.
Proof. intros H. unfold setJob. apply str_eqb_neq in H. now rewrite H. Qed.

Lemma setJob_id now jobId c f s j : Job.id (setJob now jobId c f s j) = Job.id j.
Proof. unfold setJob. now destruct (str_eqb (Job.id j) jobId). Qed.

Lemma updateJobProgress_ok (jobId : jsstring) (w w' : World) :
  updateJobProgress jobId w = (Ok tt, w') ->
  db w' = recalcJob (clock w) jobId (db w) /\ clock w' = clock w.
Proof.
  unfold updateJobProgress, repoCall.
  destruct (faults w) as [|[e|] rest]; intros H; inversion H; subst; simpl; auto.
Qed.

Lemma updateJobProgress_returns (jobId : jsstring) (w : World) :
  (forall e, head (faults w) <> Some (Some e)) ->
  exists w', updateJobProgress jobId w = (Ok tt, w').
Proof.
  intros H. unfold updateJobProgress, repoCall.
  destruct (faults w) as [|[e|] rest]; eauto.
  exfalso. now apply (H e).
Qed.

Lemma itemsOfJob_spec (jobId : jsstring) (d : DB) (it : Item.ScrapingItemEntity) :
  it ∈ itemsOfJob jobId d <-> it ∈ scrapingItems d /\ Item.jobId it = jobId.
Proof.
  unfold itemsOfJob. rewrite !list_elem_of_In, filter_In, str_eqb_eq. tauto.
Qed.

Lemma recalcJob_row (now : Time) (jobId : jsstring) (d : DB)
    (j' : Job.ScrapingJobEntity) :
  j' ∈ scrapingJobs (recalcJob now jobId d) -> Job.id j' = jobId ->
  countsRule (itemsOfJob jobId d) j'
  /\ statusRule (length (itemsOfJob jobId d)) j'
  /\ Job.updatedAt j' = now.
Proof.
  unfold recalcJob. simpl. intros Hin Hid.
  apply list_elem_of_fmap in Hin as (j & -> & Hj).
  rewrite setJob_id in Hid. apply str_eqb_eq in Hid.
  unfold setJob. rewrite Hid.
  split; [|split]; [| |reflexivity].
  - split; simpl; [apply count_processed | apply count_failed].
  - apply (jobStatusOf_rule
             (length (List.filter isProcessed (itemsOfJob jobId d)))
             (length (List.filter isFailed (itemsOfJob jobId d)))
             (length (itemsOfJob jobId d))); simpl; try reflexivity.
    + apply failed_le_processed.
    + apply filter_length_le.
Qed.

(** C1, as amended: when updateJobProgress returns, the items are untouched,
    every row of the job is still there with its id and totalUrls, and it
    carries processedUrls = the number of the job's items that are completed
    or failed, failedUrls = the number that are failed, and, with total the
    number of items of the job, status completed iff processed = total and
    failed < total, status failed iff total > 0 and processed = total =
    failed, and status processing otherwise (so also for a job without
    items).  It returns unless the database rejects the call. *)
Theorem updateJobProgress_derives_row (jobId : jsstring) (w : World) :
  ((forall e, head (faults w) <> Some (Some e)) ->
   exists w', updateJobProgress jobId w = (Ok tt, w'))
  /\ forall w', updateJobProgress jobId w = (Ok tt, w') ->
     let snapshot := itemsOfJob jobId (db w) in
     (forall it, it ∈ snapshot <-> it ∈ scrapingItems (db w) /\ Item.jobId it = jobId)
     /\ scrapingItems (db w') = scrapingItems (db w)
     /\ (forall j, j ∈ scrapingJobs (db w) -> Job.id j = jobId ->
           exists j', j' ∈ scrapingJobs (db w') /\ Job.id j' = jobId
                      /\ Job.totalUrls j' = Job.totalUrls j)
     /\ (forall j', j' ∈ scrapingJobs (db w') -> Job.id j' = jobId ->
           countsRule snapshot j' /\ statusRule (length snapshot) j').
Proof.
  split; [apply updateJobProgress_returns|].
  intros w' Hrun. apply updateJobProgress_ok in Hrun as [Hdb _].
  cbv zeta. rewrite Hdb. split; [|split; [|split]].
  - intros it. apply itemsOfJob_spec.
  - reflexivity.
  - intros j Hj Hid.
    exists (setJob (clock w) jobId
              (length (List.filter isProcessed (itemsOfJob jobId (db w))))
              (length (List.filter isFailed (itemsOfJob jobId (db w))))
              (jobStatusOf (length (List.filter isProcessed (itemsOfJob jobId (db w))))
                 (length (List.filter isFailed (itemsOfJob jobId (db w))))
                 (length (itemsOfJob jobId (db w)))) j).
    split; [|split].
    + unfold recalcJob. simpl. apply list_elem_of_fmap. eauto.
    + now rewrite setJob_id.
    + unfold setJob. now destruct (str_eqb (Job.id j) jobId).
  - intros j' Hj' Hid.
    destruct (recalcJob_row _ _ _ _ Hj' Hid) as (Hc & Hs & _). now split.
Qed.

Lemma updateJobProgress_derives_row_witness :
  let w' := snd (updateJobProgress (lit "job-1") mixedJobWorld) in
  updateJobProgress (lit "job-1") mixedJobWorld = (Ok tt, w')
  /\ mixedJobRow ∈ scrapingJobs (db w')
  /\ countsRule (itemsOfJob (lit "job-1") (db mixedJobWorld)) mixedJobRow
  /\ statusRule 3 mixedJobRow.
Proof.
  cbv zeta.
  destruct (updateJobProgress_derives_row (lit "job-1") mixedJobWorld) as [_ H].
  specialize (H _ eq_refl). cbv zeta in H. destruct H as (_ & _ & _ & H).
  assert (Hin : mixedJobRow ∈ scrapingJobs
                  (db (snd (updateJobProgress (lit "job-1") mixedJobWorld)))).
  { vm_compute. apply list_elem_of_here. }
  split; [reflexivity|]. split; [exact Hin|].
  exact (H mixedJobRow Hin eq_refl).
Defined.

(** C1 as stated fails on a job without items: the recalculated row has
    processed = total = failed = 0 (whether total is the number of items or
    the row's totalUrls) and yet status processing, not failed. *)
Lemma updateJobProgress_empty_snapshot :
  updateJobProgress (lit "job-1") emptyJobWorld
  = (Ok tt, mkWorld (mkDB [emptyJobRow] []) ∅ [] 1000%N
              [RepoUpdateJobProgress (lit "job-1")])
  /\ itemsOfJob (lit "job-1") (db emptyJobWorld) = []
  /\ countsRule [] emptyJobRow
  /\ ~ statusAsSpecified (length (itemsOfJob (lit "job-1") (db emptyJobWorld))) emptyJobRow
  /\ ~ statusAsSpecified (Job.totalUrls emptyJobRow) emptyJobRow.
Proof.
  assert (N : ~ statusAsSpecified 0 emptyJobRow).
  { intros (_ & [_ H] & _). simpl in H.
    specialize (H (conj eq_refl eq_refl)). vm_compute in H. discriminate H. }
  repeat split; try reflexivity; exact N.
Qed.

(** ** Recalculating twice *)

Lemma recalcJob_items now jobId d :
  scrapingItems (recalcJob now jobId d) = scrapingItems d.
Proof. reflexivity. Qed.

Lemma itemsOfJob_recalc now jobId jobId' d :
  itemsOfJob jobId' (recalcJob now jobId d) = itemsOfJob jobId' d.
Proof. reflexivity. Qed.

Lemma setJob_setJob t1 t2 jobId c f s j :
  setJob t2 jobId c f s (setJob t1 jobId c f s j)
  = touch t2 jobId (setJob t1 jobId c f s j).
Proof.
  unfold setJob, touch.
  destruct (str_eqb (Job.id j) jobId) eqn:E; simpl; rewrite E; reflexivity.
Qed.

Lemma touch_same t jobId c f s j :
  touch t jobId (setJob t jobId c f s j) = setJob t jobId c f s j.
Proof.
  unfold setJob, touch.
  destruct (str_eqb (Job.id j) jobId) eqn:E; simpl; rewrite E; reflexivity.
Qed.

Lemma recalcJob_twice t1 t2 jobId d :
  scrapingJobs (recalcJob t2 jobId (recalcJob t1 jobId d))
  = map (touch t2 jobId) (scrapingJobs (recalcJob t1 jobId d)).
Proof.
  unfold recalcJob at 1. rewrite itemsOfJob_recalc. cbv zeta.
  unfold recalcJob. simpl. rewrite !map_map.
  apply map_ext. intros j. apply setJob_setJob.
Qed.

(** C2: re-derivation is idempotent.  A second updateJobProgress over the
    same items gives every job the row the first one gave it: identity,
    owner, status, totalUrls, processedUrls and failedUrls are identical,
    and createdAt too.  Only the bookkeeping column updatedAt, which is no
    part of the derived row, takes the time of the second call, and the
    whole database is identical when both calls read the same clock
    value. *)
Theorem updateJobProgress_twice (jobId : jsstring) (t2 : Time) (w w1 w2 : World) :
  updateJobProgress jobId w = (Ok tt, w1) ->
  updateJobProgress jobId (atTime t2 w1) = (Ok tt, w2) ->
  scrapingItems (db w2) = scrapingItems (db w)
  /\ scrapingJobs (db w2) = map (touch t2 jobId) (scrapingJobs (db w1))
  /\ Forall2 (fun j1 j2 =>
                Job.id j2 = Job.id j1 /\ Job.userId j2 = Job.userId j1
                /\ Job.status j2 = Job.status j1
                /\ Job.totalUrls j2 = Job.totalUrls j1
                /\ Job.processedUrls j2 = Job.processedUrls j1
                /\ Job.failedUrls j2 = Job.failedUrls j1
                /\ Job.createdAt j2 = Job.createdAt j1)
       (scrapingJobs (db w1)) (scrapingJobs (db w2))
  /\ (t2 = clock w -> db w2 = db w1).
Proof.
  intros H1 H2.
  apply updateJobProgress_ok in H1 as [D1 C1].
  apply updateJobProgress_ok in H2 as [D2 _]. simpl in D2.
  rewrite D1 in D2.
  assert (J : scrapingJobs (db w2) = map (touch t2 jobId) (scrapingJobs (db w1))).
  { rewrite D2, D1. apply recalcJob_twice. }
  split; [now rewrite D2|]. split; [exact J|]. split.
  - rewrite J. apply Forall2_fmap_r, Forall_Forall2_diag, Forall_forall.
    intros j _. simpl. unfold touch.
    destruct (str_eqb (Job.id j) jobId); simpl; repeat split; reflexivity.
  - intros ->. rewrite D2, D1.
    unfold recalcJob at 1. rewrite itemsOfJob_recalc. cbv zeta.
    unfold recalcJob. simpl. f_equal. rewrite map_map.
    apply map_ext. intros j.
    rewrite setJob_setJob. apply touch_same.
Qed.

Lemma updateJobProgress_twice_witness :
  let w1 := snd (updateJobProgress (lit "job-1") mixedJobWorld) in
  let w2 := snd (updateJobProgress (lit "job-1") (atTime 2000%N w1)) in
  scrapingItems (db w2) = scrapingItems (db mixedJobWorld)
  /\ scrapingJobs (db w2) = map (touch 2000%N (lit "job-1")) (scrapingJobs (db w1)).
Proof.
  cbv zeta.
  destruct (updateJobProgress_twice (lit "job-1") 2000%N mixedJobWorld _ _
              eq_refl eq_refl) as (H1 & H2 & _).
  split; [exact H1 | exact H2].
Defined.

(** ** Traces only grow *)

Lemma traceGrows_silent {A} (m : M A) :
  (forall w, trace (snd (m w)) = trace w) -> traceGrows m.
Proof.
  intros H w o w' E. exists []. rewrite app_nil_r.
  specialize (H w). now rewrite E in H.
Qed.

Lemma traceGrows_ret {A} (a : A) : traceGrows (ret a).
Proof. now apply traceGrows_silent. Qed.

Lemma traceGrows_throw {A} (e : Thrown) : traceGrows (@throw A e).
Proof. now apply traceGrows_silent. Qed.

Lemma traceGrows_lift {A} (o : Outcome A) : traceGrows (lift o).
Proof. now apply traceGrows_silent. Qed.

Lemma traceGrows_newDate : traceGrows newDate.
Proof. now apply traceGrows_silent. Qed.

Lemma traceGrows_cacheGet k : traceGrows (cacheGet k).
Proof. now apply traceGrows_silent. Qed.

Lemma traceGrows_cacheSet k r : traceGrows (cacheSet k r).
Proof. now apply traceGrows_silent. Qed.

Lemma traceGrows_cacheDelete k : traceGrows (cacheDelete k).
Proof. now apply traceGrows_silent. Qed.

Lemma traceGrows_emit ev : traceGrows (emit ev).
Proof. intros w o w' E. inversion E; subst. simpl. eauto. Qed.

Lemma traceGrows_repoCall ev f : traceGrows (repoCall ev f).
Proof.
  intros w o w' E. unfold repoCall in E.
  destruct (faults w) as [|[e|] rest]; inversion E; subst; simpl; eauto.
Qed.

Lemma traceGrows_bind {A B} (m : M A) (k : A -> M B) :
  traceGrows m -> (forall a, traceGrows (k a)) -> traceGrows (bind m k).
Proof.
  intros Hm Hk w o w' E. unfold bind in E.
  destruct (m w) as [[a|e] w1] eqn:Em.
  - destruct (Hm _ _ _ Em) as [evs1 E1]. destruct (Hk a _ _ _ E) as [evs2 E2].
    exists (evs1 ++ evs2). now rewrite E2, E1, app_assoc.
  - inversion E; subst. eapply Hm, Em.
Qed.

Lemma traceGrows_try_catch {A} (m : M A) (h : Thrown -> M A) :
  traceGrows m -> (forall e, traceGrows (h e)) -> traceGrows (try_catch m h).
Proof.
  intros Hm Hh w o w' E. unfold try_catch in E.
  destruct (m w) as [[a|e] w1] eqn:Em.
  - inversion E; subst. eapply Hm, Em.
  - destruct (Hm _ _ _ Em) as [evs1 E1]. destruct (Hh e _ _ _ E) as [evs2 E2].
    exists (evs1 ++ evs2). now rewrite E2, E1, app_assoc.
Qed.

Lemma traceGrows_try_finally {A} (m : M A) (f : M unit) :
  traceGrows m -> traceGrows f -> traceGrows (try_finally m f).
Proof.
  intros Hm Hf w o w' E. unfold try_finally in E.
  destruct (m w) as [o1 w1] eqn:Em. destruct (f w1) as [[u|e] w2] eqn:Ef;
    inversion E; subst;
    destruct (Hm _ _ _ Em) as [evs1 E1]; destruct (Hf _ _ _ Ef) as [evs2 E2];
    exists (evs1 ++ evs2); now rewrite E2, E1, app_assoc.
Qed.

Create HintDb grows.
#[export] Hint Resolve traceGrows_ret traceGrows_throw traceGrows_lift
  traceGrows_newDate traceGrows_cacheGet traceGrows_cacheSet
  traceGrows_cacheDelete traceGrows_emit traceGrows_repoCall : grows.
#[export] Hint Resolve traceGrows_bind traceGrows_try_catch
  traceGrows_try_finally : grows.
#[export] Hint Extern 1 (traceGrows (if ?b then _ else _)) => destruct b : grows.
#[export] Hint Extern 1 (traceGrows (match ?x with Some _ => _ | None => _ end)) =>
  destruct x : grows.

Section ProcessorTraces.

Variable env : Env.

Lemma traceGrows_updateItemStatus itemId status data :
  traceGrows (updateItemStatus itemId status data).
Proof. unfold updateItemStatus. auto with grows. Qed.

Lemma traceGrows_updateJobProgress jobId : traceGrows (updateJobProgress jobId).
Proof. unfold updateJobProgress. auto with grows. Qed.

Lemma traceGrows_extractWithNER page key : traceGrows (extractWithNER env page key).
Proof. unfold extractWithNER, nerOfText. auto 20 with grows. Qed.

Lemma traceGrows_parseCompanyData page itemId :
  traceGrows (parseCompanyData env page itemId).
Proof.
  pose proof traceGrows_extractWithNER.
  unfold parseCompanyData, parseCompanyDataTry, layer1, layer3.
  auto 20 with grows.
Qed.

Lemma traceGrows_eachCard elements contacts : traceGrows (eachCard elements contacts).
Proof.
  revert contacts. induction elements as [|el rest IH]; intros contacts; simpl.
  - auto with grows.
  - unfold contactOfCard. auto 20 with grows.
Qed.

Lemma traceGrows_parseContacts page itemId :
  traceGrows (parseContacts env page itemId).
Proof.
  pose proof traceGrows_extractWithNER. pose proof traceGrows_eachCard.
  unfold parseContacts, parseContactsTry, contactsFromNER.
  auto 20 with grows.
Qed.

Lemma traceGrows_processItemTry itemId url jobId :
  traceGrows (processItemTry env itemId url jobId).
Proof.
  pose proof traceGrows_parseCompanyData. pose proof traceGrows_parseContacts.
  pose proof traceGrows_updateItemStatus.
  unfold processItemTry, applyRateLimit, fetchHtml.
  auto 30 with grows.
Qed.

Lemma traceGrows_processItemCatch itemId error :
  traceGrows (processItemCatch itemId error).
Proof.
  pose proof traceGrows_updateItemStatus.
  unfold processItemCatch. auto with grows.
Qed.

(** The [finally] block never throws and makes exactly one call. *)
Lemma processItemFinally_runs jobId w :
  exists w', processItemFinally jobId w = (Ok tt, w')
             /\ trace w' = trace w ++ [RepoUpdateJobProgress jobId].
Proof.
  unfold processItemFinally, try_catch, updateJobProgress, repoCall, ret.
  destruct (faults w) as [|[e|] rest]; eauto.
Qed.

(** C3: whatever the fetch, the extraction and the database do, the last
    call processItem makes before it returns or throws is
    updateJobProgress(jobId). *)
Theorem processItem_recomputes_progress_last (itemId url jobId : jsstring) (w : World) :
  exists evs,
    trace (snd (processItem env itemId url jobId w))
    = trace w ++ evs ++ [RepoUpdateJobProgress jobId].
Proof.
  unfold processItem, try_finally.
  destruct (try_catch (processItemTry env itemId url jobId)
              (processItemCatch itemId) w) as [o w1] eqn:Ebody.
  assert (G : traceGrows (try_catch (processItemTry env itemId url jobId)
                            (processItemCatch itemId))).
  { apply traceGrows_try_catch;
      [apply traceGrows_processItemTry | apply traceGrows_processItemCatch]. }
  destruct (G _ _ _ Ebody) as [evs Hevs].
  destruct (processItemFinally_runs jobId w1) as (w2 & Hfin & Htr).
  rewrite Hfin. simpl. exists evs. now rewrite Htr, Hevs, app_assoc.
Qed.

End ProcessorTraces.

(** ** Which errors leave processItem *)

Section Propagation.

Variable env : Env.

Lemma processItemFinally_ok jobId w :
  fst (processItemFinally jobId w) = Ok tt.
Proof. destruct (processItemFinally_runs jobId w) as (w' & -> & _). reflexivity. Qed.

Lemma processItemCatch_outcome itemId error w :
  fst (processItemCatch itemId error w)
  = match faults w with Some e :: _ => Throw e | _ => Ok tt end.
Proof.
  unfold processItemCatch, bind, newDate, updateItemStatus, repoCall.
  now destruct (faults w) as [|[e|] rest].
Qed.

Lemma processItem_outcome itemId url jobId w :
  fst (processItem env itemId url jobId w)
  = match processItemTry env itemId url jobId w with
    | (Ok _, _) => Ok tt
    | (Throw err, w1) => fst (processItemCatch itemId err w1)
    end.
Proof.
  unfold processItem, try_finally, try_catch.
  destruct (processItemTry env itemId url jobId w) as [[[]|err] w1].
  - destruct (processItemFinally_runs jobId w1) as (w2 & -> & _). reflexivity.
  - destruct (processItemCatch itemId err w1) as [o w2].
    destruct (processItemFinally_runs jobId w2) as (w3 & -> & _). reflexivity.
Qed.

(** C9, as amended: processItem throws exactly when its try block failed
    (for whatever reason) and the database then rejected the
    updateItemStatus(failed) call of the catch block; what it throws is that
    rejection, and process rethrows it to the queue.  A rejection of the
    processing or completed update is caught like a fetch failure, and a
    rejection of updateJobProgress is logged and dropped. *)
Theorem processItem_throws_iff (itemId url jobId : jsstring) (w : World) (e : Thrown) :
  (fst (processItem env itemId url jobId w) = Throw e
   <-> exists err w1, processItemTry env itemId url jobId w = (Throw err, w1)
                      /\ head (faults w1) = Some (Some e))
  /\ fst (process env itemId url jobId w) = fst (processItem env itemId url jobId w).
Proof.
  split.
  - rewrite processItem_outcome.
    destruct (processItemTry env itemId url jobId w) as [[[]|err] w1].
    + split; [discriminate|]. intros (err & w1' & H & _). discriminate H.
    + rewrite processItemCatch_outcome. split.
      * intros H. exists err, w1. split; [reflexivity|].
        destruct (faults w1) as [|[e'|] rest]; simpl; congruence.
      * intros (err' & w1' & H & Hf). inversion H; subst.
        destruct (faults w1') as [|[e'|] rest]; simpl in *; congruence.
  - unfold process, try_catch, throw.
    now destruct (processItem env itemId url jobId w) as [[[]|e'] w1].
Qed.

End Propagation.

(** C9 as stated fails: the database rejects the first call of processItem
    (marking the item processing); processItem catches that, marks the item
    failed with the database's message as lastError, and returns normally, and
    so does process: nothing reaches the queue. *)
Lemma persistence_error_not_propagated :
  let env := servingEnv [] (Ok (mkNlp [] [] [])) in
  let w := oneItemWorld [Some dbDown] in
  let run := processItem env (lit "a") (lit "http://acme.test/") (lit "job-1") w in
  fst (updateItemStatus (lit "a") (lit "processing") noPatch w) = Throw dbDown
  /\ fst run = Ok tt
  /\ fst (process env (lit "a") (lit "http://acme.test/") (lit "job-1") w) = Ok tt
  /\ trace (snd run)
     = [RepoUpdateItemStatus (lit "a") (lit "processing");
        RepoUpdateItemStatus (lit "a") (lit "failed");
        RepoUpdateJobProgress (lit "job-1")]
  /\ (Item.status <$> scrapingItems (db (snd run))) = [lit "failed"]
  /\ (Item.lastError <$> scrapingItems (db (snd run)))
     = [Some (lit "Connection terminated unexpectedly")].
Proof. cbv zeta. repeat split; vm_compute; reflexivity. Qed.

(** ** The message of a failed fetch *)



Section FetchFailure.

Variable env : Env.

Lemma fetchHtml_failure url error w :
  axios_get env url = Throw error ->
  fetchHtml env url w
  = (Throw (ErrorObj (fetchErrorMessage error)),
     mkWorld (db w) (nerCache w) (faults w) (clock w) (trace w ++ [HttpGet url])).
Proof.
  intros H. unfold fetchHtml, bind, emit, try_catch, lift, throw. simpl.
  now rewrite H.
Qed.

Lemma fetchHtml_success url html w :
  axios_get env url = Ok html ->
  fetchHtml env url w
  = (Ok html,
     mkWorld (db w) (nerCache w) (faults w) (clock w) (trace w ++ [HttpGet url])).
Proof.
  intros H. unfold fetchHtml, bind, emit, try_catch, lift, throw. simpl.
  now rewrite H.
Qed.



End FetchFailure.

Lemma setItem_id now itemId status data it :
  Item.id (setItem now itemId status data it) = Item.id it.
Proof. unfold setItem. now destruct (str_eqb (Item.id it) itemId). Qed.




(** A response refused by the validation gives "HTTP <code>", the raw
    message of axios being left aside. *)
Lemma refused_response_message :
  receivable badGateway
  /\ fetchErrorMessage badGateway = lit "HTTP 502"
  /\ firstMatch specifiedOrder (Some (lit "ERR_BAD_RESPONSE")) (Some 502%N)
       (lit "Request failed with status code 502") = lit "HTTP 502".
Proof.
  split; [split; [vm_compute; discriminate|reflexivity]|].
  split; vm_compute; reflexivity.
Qed.

(** ** The extractor never throws *)

Lemma try_catch_default {A} (m : M A) (d : A) w :
  exists a w', try_catch m (fun _ => ret d) w = (Ok a, w')
               /\ ((exists e, fst (m w) = Throw e) -> a = d)
               /\ (forall x, fst (m w) = Ok x -> a = x).
Proof.
  unfold try_catch, ret. destruct (m w) as [[x|e] w1]; simpl.
  - exists x, w1. split; [reflexivity|]. split.
    + intros [e H]. discriminate H.
    + intros x' H. now inversion H.
  - exists d, w1. split; [reflexivity|]. split.
    + reflexivity.
    + intros x' H. discriminate H.
Qed.

(** C8: parseCompanyData and parseContacts return a value in every world and
    for every document, whatever cheerio and compromise do; when something
    throws inside, the result is the all-null record, respectively null. *)
Theorem extraction_is_total (env : Env) (page : CheerioAPI) (itemId : jsstring)
    (w : World) :
  (exists cd w', parseCompanyData env page itemId w = (Ok cd, w')
     /\ ((exists e, fst (parseCompanyDataTry env page itemId w) = Throw e) ->
         cd = nullCompanyData)
     /\ (forall d, fst (parseCompanyDataTry env page itemId w) = Ok d -> cd = d))
  /\ (exists cs w', parseContacts env page itemId w = (Ok cs, w')
     /\ ((exists e, fst (parseContactsTry env page itemId w) = Throw e) ->
         cs = None)
     /\ (forall l, fst (parseContactsTry env page itemId w) = Ok l -> cs = l)).
Proof.
  split.
  - apply (try_catch_default (parseCompanyDataTry env page itemId) nullCompanyData).
  - apply (try_catch_default (parseContactsTry env page itemId) None).
Qed.

Lemma extraction_is_total_witness :
  let env := servingEnv longBody (Throw nlpCrash) in
  let w := oneItemWorld [] in
  (exists w', parseCompanyData env (acmePage longBody) (lit "a") w
              = (Ok nullCompanyData, w'))
  /\ (exists w', parseContacts env brokenCardsPage (lit "a") w = (Ok None, w')).
Proof.
  cbv zeta.
  destruct (extraction_is_total (servingEnv longBody (Throw nlpCrash))
              (acmePage longBody) (lit "a") (oneItemWorld []))
    as [(cd & w1 & H1 & N1 & _) _].
  destruct (extraction_is_total (servingEnv longBody (Throw nlpCrash))
              brokenCardsPage (lit "a") (oneItemWorld []))
    as [_ (cs & w2 & H2 & N2 & _)].
  split.
  - exists w1. rewrite H1. f_equal. f_equal. apply N1.
    exists nlpCrash. vm_compute. reflexivity.
  - exists w2. rewrite H2. f_equal. f_equal. apply N2.
    exists (ErrorObj (lit "Unmatched selector")). vm_compute. reflexivity.
Defined.

(** An error inside the extractor does not fail the item: compromise
    throws, and the item is completed with null fields. *)
Lemma extraction_error_completes_item :
  let env := servingEnv longBody (Throw nlpCrash) in
  let run := processItem env (lit "a") (lit "http://acme.test/") (lit "job-1")
               (oneItemWorld []) in
  fst run = Ok tt
  /\ (Item.status <$> scrapingItems (db (snd run))) = [lit "completed"]
  /\ (Item.companyName <$> scrapingItems (db (snd run))) = [None]
  /\ (Item.contacts <$> scrapingItems (db (snd run))) = [None]
  /\ (Item.lastError <$> scrapingItems (db (snd run))) = [None].
Proof. cbv zeta. repeat split; vm_compute; reflexivity. Qed.

(** ** The e-mail pattern, distinct addresses, first plausible candidate *)

Lemma matchAt_positive prev s n : matchAt prev s = Some n -> 0 < n.
Proof.
  unfold matchAt. destruct (xorb _ _); [|discriminate].
  destruct (span isLocalChar s) as [localPart rest].
  repeat match goal with
         | |- context [match ?x with _ => _ end] => destruct x; try discriminate
         end.
  intros H. inversion H. lia.
Qed.

Lemma scanEmails_nonempty prev skip s :
  Forall (fun e => e <> []) (scanEmails prev skip s).
Proof.
  revert prev skip. induction s as [|c r IH]; intros prev skip; simpl.
  - constructor.
  - destruct skip as [|k]; [|apply IH].
    destruct (matchAt prev (c :: r)) as [n|] eqn:E; [|apply IH].
    constructor; [|apply IH].
    apply matchAt_positive in E. destruct n as [|n]; [lia|]. discriminate.
Qed.

Lemma matchEmails_nonempty bodyText :
  Forall (fun e => e <> []) (matchEmails bodyText).
Proof. apply scanEmails_nonempty. Qed.

Lemma uniqueFrom_elem seen l x :
  x ∈ uniqueFrom seen l <-> x ∈ l /\ x ∉ seen.
Proof.
  revert seen. induction l as [|y r IH]; intros seen; simpl.
  - split; [intros H; inversion H | intros [H _]; inversion H].
  - case_bool_decide as Hy.
    + rewrite IH, elem_of_cons. split; [tauto|].
      intros [[->|H] N]; [contradiction|tauto].
    + rewrite !elem_of_cons, IH, elem_of_cons.
      split.
      * intros [->|[H N]]; [tauto|]. split; [tauto|]. intros S. apply N. tauto.
      * intros [[->|H] N]; [tauto|].
        destruct (decide (x = y)) as [->|D]; [tauto|]. right. split; [exact H|].
        intros [?|?]; contradiction.
Qed.

Lemma uniqueFrom_NoDup seen l : NoDup (uniqueFrom seen l).
Proof.
  revert seen. induction l as [|y r IH]; intros seen; simpl.
  - constructor.
  - case_bool_decide as Hy; [apply IH|].
    constructor; [|apply IH].
    rewrite uniqueFrom_elem, elem_of_cons. tauto.
Qed.

Lemma uniqueFrom_sublist seen l : sublist (uniqueFrom seen l) l.
Proof.
  revert seen. induction l as [|y r IH]; intros seen; simpl.
  - constructor.
  - case_bool_decide; [apply sublist_cons | apply sublist_skip]; apply IH.
Qed.

Lemma unique_elem l x : x ∈ unique l <-> x ∈ l.
Proof.
  unfold unique. rewrite uniqueFrom_elem. split; [tauto|].
  intros H. split; [exact H|]. intros N. inversion N.
Qed.

Lemma find_firstIn (l : list jsstring) :
  firstIn inBand l (optOrNull (List.find plausible l)).
Proof.
  assert (P : forall s, plausible s = true <-> inBand s).
  { intros s. unfold plausible, inBand.
    rewrite andb_true_iff, !Nat.ltb_lt. tauto. }
  induction l as [|x r IH]; simpl.
  - intros y H. inversion H.
  - destruct (plausible x) eqn:E.
    + apply P in E. unfold optOrNull, orNull.
      destruct x as [|c x]; [unfold inBand in E; simpl in E; lia|]. simpl.
      exists 0. split; [reflexivity|]. split; [exact E|]. intros j y Hj. lia.
    + assert (N : ~ inBand x) by (rewrite <- P, E; discriminate).
      destruct (optOrNull (List.find plausible r)) as [o|]; simpl in *.
      * destruct IH as (i & Hi & Ho & Hfirst). exists (S i).
        split; [exact Hi|]. split; [exact Ho|].
        intros [|j] y Hj Hy; simpl in Hy.
        -- now inversion Hy; subst.
        -- apply (Hfirst j y); [lia|exact Hy].
      * intros y Hy. apply elem_of_cons in Hy as [->|Hy]; [exact N|].
        now apply IH.
Qed.

(** ** The pairing loop *)

Lemma plausible_inBand s : plausible s = true <-> inBand s.
Proof. unfold plausible, inBand. rewrite andb_true_iff, !Nat.ltb_lt. tauto. Qed.

Lemma pairStep_pairOf people uniqueEmails contacts i :
  pairStep people uniqueEmails contacts i
  = contacts ++ match zip people uniqueEmails !! i with
                | Some pe => match pairOf pe with Some c => [c] | None => [] end
                | None => []
                end.
Proof.
  unfold pairStep.
  destruct (zip people uniqueEmails !! i) as [[p e]|] eqn:Z.
  - apply lookup_zip_Some in Z as [-> ->]. unfold pairOf. simpl.
    case_bool_decide as B.
    + assert (T : truthy p = true).
      { destruct p; [unfold inBand in B; simpl in B; lia|reflexivity]. }
      apply plausible_inBand in B. unfold plausible in B.
      rewrite T. simpl. now rewrite B.
    + destruct (truthy p && (1 <? length p) && (length p <? 100)) eqn:E.
      * exfalso. apply B, plausible_inBand. unfold plausible.
        apply andb_true_iff in E as [E1 E2]. apply andb_true_iff in E1 as [_ E1].
        now rewrite E1, E2.
      * now rewrite app_nil_r.
  - rewrite app_nil_r. apply lookup_zip_None in Z as [-> | Z]; [reflexivity|].
    rewrite Z. now destruct (people !! i).
Qed.

Lemma pairLoop_zip people uniqueEmails maxMatches contacts :
  pairLoop people uniqueEmails maxMatches contacts
  = contacts ++ omap pairOf (take maxMatches (zip people uniqueEmails)).
Proof.
  unfold pairLoop. induction maxMatches as [|k IH].
  - simpl. now rewrite app_nil_r.
  - rewrite seq_S, fold_left_app, IH. simpl. rewrite pairStep_pairOf.
    rewrite <- app_assoc. f_equal.
    destruct (zip people uniqueEmails !! k) as [pe|] eqn:Z.
    + rewrite (take_S_r _ _ _ Z), omap_app. simpl.
      now destruct (pairOf pe).
    + rewrite app_nil_r. apply lookup_ge_None in Z.
      now rewrite !take_ge by lia.
Qed.

Lemma pairLoop_nerContacts ner :
  pairLoop (people ner) (unique (emails ner))
    (Nat.min (length (people ner)) (length (unique (emails ner)))) []
  = nerContacts ner.
Proof.
  rewrite pairLoop_zip. unfold nerContacts. simpl.
  rewrite take_ge; [reflexivity|]. rewrite length_zip. lia.
Qed.

Lemma nerContacts_complete ner :
  Forall (fun e => e <> []) (emails ner) -> Forall complete (nerContacts ner).
Proof.
  intros He. unfold nerContacts. apply Forall_forall. intros c Hc.
  apply list_elem_of_omap in Hc as ([p e] & Hin & Hp).
  unfold pairOf in Hp. simpl in Hp. case_bool_decide as B; [|discriminate].
  inversion Hp; subst. apply elem_of_zip_r in Hin. simpl in Hin.
  apply (proj1 (unique_elem _ _)) in Hin.
  rewrite Forall_forall in He. repeat split; simpl.
  - intros ->. unfold inBand in B. simpl in B. lia.
  - intros H. vm_compute in H. discriminate H.
  - exact (He _ Hin).
Qed.

Lemma nerContacts_unknown ner :
  Forall (fun c => title c = lit "Unknown") (nerContacts ner).
Proof.
  unfold nerContacts. apply Forall_forall. intros c Hc.
  apply list_elem_of_omap in Hc as ([p e] & _ & Hp).
  unfold pairOf in Hp. case_bool_decide; [|discriminate]. now inversion Hp.
Qed.

(** ** Running extractWithNER *)

Section Extraction.

Variable env : Env.

Lemma extractWithNER_hit page key r w :
  nerCache w !! key = Some r ->
  extractWithNER env page key w = (Ok r, traced [NerCall key] w).
Proof.
  intros H. unfold extractWithNER, bind, emit, cacheGet, ret. simpl. now rewrite H.
Qed.

Lemma extractWithNER_miss page key w :
  nerCache w !! key = None ->
  extractWithNER env page key w
  = match text page (lit "body") with
    | Ok raw => nerOfText env raw key (traced [NerCall key] w)
    | Throw e => (Throw e, traced [NerCall key] w)
    end.
Proof.
  intros H. unfold extractWithNER, bind, emit, cacheGet, lift. simpl. rewrite H.
  now destruct (text page (lit "body")).
Qed.

Lemma nerOfText_short raw key w :
  length (trim (collapseSpaces raw)) < 50 ->
  nerOfText env raw key w = (Ok emptyNer, cached key emptyNer w).
Proof.
  intros H. unfold nerOfText. apply Nat.ltb_lt in H. rewrite H, orb_true_r.
  reflexivity.
Qed.

Lemma nerOfText_long raw key w :
  50 <= length (trim (collapseSpaces raw)) ->
  nerOfText env raw key w
  = match nlp env (analysed raw) with
    | Ok doc =>
        (Ok (nerOfDoc (analysed raw) doc),
         cached key (nerOfDoc (analysed raw) doc)
           (traced [NlpRun (analysed raw)] w))
    | Throw e => (Throw e, traced [NlpRun (analysed raw)] w)
    end.
Proof.
  intros H. unfold nerOfText.
  assert (T : truthy (trim (collapseSpaces raw)) = true).
  { destruct (trim (collapseSpaces raw)); [simpl in H; lia|reflexivity]. }
  assert (L : (length (trim (collapseSpaces raw)) <? 50) = false)
    by (apply Nat.ltb_ge; lia).
  rewrite T, L. cbv zeta. unfold negb, orb.
  assert (E : (if MAX_TEXT_LENGTH <? length (trim (collapseSpaces raw))
               then substring0 MAX_TEXT_LENGTH (trim (collapseSpaces raw))
               else trim (collapseSpaces raw)) = analysed raw).
  { unfold analysed, substring0.
    destruct (Nat.ltb_spec MAX_TEXT_LENGTH (length (trim (collapseSpaces raw))));
      [reflexivity|]. now rewrite take_ge. }
  rewrite E. unfold bind, emit, lift, cacheSet, ret, nerOfDoc.
  now destruct (nlp env (analysed raw)).
Qed.

Lemma analysed_length raw : length (analysed raw) <= MAX_TEXT_LENGTH.
Proof. unfold analysed. rewrite length_take. lia. Qed.

Lemma cacheOk_insert c key r :
  cacheOk c -> Forall (fun e => e <> []) (emails r) -> cacheOk (<[key := r]> c).
Proof.
  intros Hc Hr k r' H. destruct (decide (key = k)) as [->|N].
  - rewrite lookup_insert_eq in H. now inversion H; subst.
  - rewrite lookup_insert_ne in H by exact N. now apply (Hc k).
Qed.

Lemma cacheOk_delete c key : cacheOk c -> cacheOk (delete key c).
Proof.
  intros Hc k r H. destruct (decide (key = k)) as [->|N].
  - now rewrite lookup_delete_eq in H.
  - rewrite lookup_delete_ne in H by exact N. now apply (Hc k).
Qed.

Lemma cacheOk_empty : cacheOk ∅.
Proof. intros k r H. now rewrite lookup_empty in H. Qed.

(** extractWithNER keeps the cache sound and returns sound addresses. *)
Lemma extractWithNER_sound page key w o w' :
  extractWithNER env page key w = (o, w') ->
  cacheOk (nerCache w) ->
  cacheOk (nerCache w')
  /\ (forall r, o = Ok r -> Forall (fun e => e <> []) (emails r))
  /\ exists evs, trace w' = trace w ++ NerCall key :: evs.
Proof.
  intros Hrun Hc.
  destruct (nerCache w !! key) as [r0|] eqn:Hk.
  - rewrite (extractWithNER_hit _ _ _ _ Hk) in Hrun. inversion Hrun; subst.
    split; [exact Hc|]. split; [|exists []; reflexivity].
    intros r H. inversion H; subst. now apply (Hc key).
  - rewrite (extractWithNER_miss _ _ _ Hk) in Hrun.
    destruct (text page (lit "body")) as [raw|e].
    + destruct (Nat.lt_ge_cases (length (trim (collapseSpaces raw))) 50) as [S|L].
      * rewrite (nerOfText_short _ _ _ S) in Hrun. inversion Hrun; subst. simpl.
        split; [apply cacheOk_insert; [exact Hc|constructor]|].
        split; [|exists []; reflexivity].
        intros r H. inversion H; subst. constructor.
      * rewrite (nerOfText_long _ _ _ L) in Hrun.
        destruct (nlp env (analysed raw)) as [doc|e]; inversion Hrun; subst; simpl.
        -- split; [apply cacheOk_insert; [exact Hc|apply matchEmails_nonempty]|].
           split; [|exists [NlpRun (analysed raw)]; now rewrite <- app_assoc].
           intros r H. inversion H; subst. apply matchEmails_nonempty.
        -- split; [exact Hc|].
           split; [|exists [NlpRun (analysed raw)]; now rewrite <- app_assoc].
           intros r H. discriminate H.
    + inversion Hrun; subst. simpl.
      split; [exact Hc|]. split; [|exists []; reflexivity].
      intros r H. discriminate H.
Qed.

(** ** Running the contact cards *)

Lemma contactOfCard_run element contacts w :
  contactOfCard element contacts w
  = match element SEL_CONTACT_NAME with
    | Throw e => (Throw e, w)
    | Ok n =>
        match element SEL_CONTACT_TITLE with
        | Throw e => (Throw e, w)
        | Ok t =>
            match element SEL_CONTACT_EMAIL with
            | Throw e => (Throw e, w)
            | Ok e =>
                (Ok (contacts ++ match cardContact element with
                                 | Some c => [c]
                                 | None => []
                                 end), w)
            end
        end
    end.
Proof.
  unfold contactOfCard, cardContact, bind, lift, ret.
  destruct (element SEL_CONTACT_NAME) as [n|]; [|reflexivity].
  destruct (element SEL_CONTACT_TITLE) as [t|]; [|reflexivity].
  destruct (element SEL_CONTACT_EMAIL) as [e|]; [|reflexivity].
  destruct (trim n) as [|? ?], (trim t) as [|? ?], (trim e) as [|? ?]; simpl;
    rewrite ?app_nil_r; try reflexivity;
    case_bool_decide as B; try reflexivity;
    try (exfalso; destruct B as (? & ? & ?); congruence).
Qed.

Lemma eachCard_run elements contacts w o w' :
  eachCard elements contacts w = (o, w') ->
  w' = w /\ (forall cs, o = Ok cs -> cs = contacts ++ omap cardContact elements).
Proof.
  revert contacts. induction elements as [|el rest IH]; intros contacts; simpl.
  - unfold ret. intros H. inversion H; subst. split; [reflexivity|].
    intros cs E. inversion E. now rewrite app_nil_r.
  - unfold bind. rewrite contactOfCard_run.
    destruct (el SEL_CONTACT_NAME) as [n|e];
      [|intros H; inversion H; split; [reflexivity|discriminate]].
    destruct (el SEL_CONTACT_TITLE) as [t|e];
      [|intros H; inversion H; split; [reflexivity|discriminate]].
    destruct (el SEL_CONTACT_EMAIL) as [m|e];
      [|intros H; inversion H; split; [reflexivity|discriminate]].
    intros H. apply IH in H as [-> H]. split; [reflexivity|].
    intros cs E. rewrite (H cs E), <- app_assoc. f_equal.
    now destruct (cardContact el).
Qed.

Lemma cardContact_complete elements :
  Forall complete (omap cardContact elements).
Proof.
  apply Forall_forall. intros c Hc.
  apply list_elem_of_omap in Hc as (el & _ & H).
  unfold cardContact in H.
  destruct (el SEL_CONTACT_NAME) as [n|]; [|discriminate].
  destruct (el SEL_CONTACT_TITLE) as [t|]; [|discriminate].
  destruct (el SEL_CONTACT_EMAIL) as [e|]; [|discriminate].
  case_bool_decide as B; [|discriminate]. inversion H; subst. exact B.
Qed.

End Extraction.

(** ** parseContacts *)

Section Contacts.

Variable env : Env.

Lemma contactsFromNER_run page itemId w :
  contactsFromNER env page itemId [] w
  = match extractWithNER env page itemId w with
    | (Ok ner, w1) => (Ok (pairedContacts (people ner) (emails ner)), w1)
    | (Throw e, w1) => (Throw e, w1)
    end.
Proof.
  unfold contactsFromNER, bind.
  destruct (extractWithNER env page itemId w) as [[ner|e] w1]; [|reflexivity].
  destruct ((0 <? length (people ner)) && (0 <? length (emails ner))) eqn:G;
    [reflexivity|].
  unfold ret, pairedContacts. f_equal. f_equal.
  rewrite pairLoop_zip. apply andb_false_iff in G as [G|G];
    apply Nat.ltb_ge in G.
  - destruct (people ner); [reflexivity|simpl in G; lia].
  - destruct (emails ner); [|simpl in G; lia]. simpl.
    now rewrite Nat.min_0_r.
Qed.

Lemma parseContactsTry_run page itemId w :
  parseContactsTry env page itemId w
  = match each page SEL_CONTACT_CARD with
    | Throw e => (Throw e, w)
    | Ok elements =>
        match fst (eachCard elements [] w) with
        | Throw e => (Throw e, w)
        | Ok cs =>
            if length cs =? 0 then
              match extractWithNER env page itemId w with
              | (Ok ner, w1) =>
                  (Ok (orNullList (pairedContacts (people ner) (emails ner))), w1)
              | (Throw e, w1) => (Throw e, w1)
              end
            else (Ok (Some cs), w)
        end
    end.
Proof.
  unfold parseContactsTry. unfold bind at 1. unfold lift.
  destruct (each page SEL_CONTACT_CARD) as [elements|e]; [|reflexivity].
  unfold bind at 1.
  destruct (eachCard elements [] w) as [[cs|e] w0] eqn:E;
    apply eachCard_run in E as [-> _]; [|reflexivity]. simpl.
  destruct cs as [|c cs]; simpl.
  - unfold bind. rewrite contactsFromNER_run.
    now destruct (extractWithNER env page itemId w) as [[ner|e] w1].
  - reflexivity.
Qed.

Lemma orNullList_ok l : Forall complete l -> contactsOk (orNullList l).
Proof. intros H. destruct l; simpl; [exact I|]. split; [discriminate|exact H]. Qed.

(** C6: with a sound cache, parseContacts returns null or a non-empty
    sequence of contacts whose name, title and e-mail are all non-empty, and
    leaves the cache sound.  When its try block succeeds, the contacts taken
    from the cards are exactly those of the cards with all three sub-fields
    non-empty after trimming, in document order; they are the result if there
    are any, and otherwise every contact of the result was rebuilt by entity
    recognition (title "Unknown"). *)
Theorem parseContacts_all_or_nothing (page : CheerioAPI) (itemId : jsstring)
    (w : World) :
  cacheOk (nerCache w) ->
  (exists r w', parseContacts env page itemId w = (Ok r, w')
                /\ contactsOk r /\ cacheOk (nerCache w'))
  /\ (forall elements r w',
        each page SEL_CONTACT_CARD = Ok elements ->
        parseContactsTry env page itemId w = (Ok r, w') ->
        let structured := omap cardContact elements in
        Forall complete structured
        /\ (structured <> [] -> r = Some structured /\ w' = w)
        /\ (structured = [] ->
            forall l, r = Some l -> Forall (fun c => title c = lit "Unknown") l)).
Proof.
  intros Hc. split.
  - unfold parseContacts, try_catch. rewrite parseContactsTry_run.
    destruct (each page SEL_CONTACT_CARD) as [elements|e];
      [|exists None, w; now repeat split].
    destruct (eachCard elements [] w) as [[cs|e] w0] eqn:E; simpl;
      [|exists None, w; now repeat split].
    apply eachCard_run in E as [-> E]. specialize (E cs eq_refl). simpl in E.
    destruct cs as [|c cs]; simpl.
    + destruct (extractWithNER env page itemId w) as [[ner|e] w1] eqn:N;
        destruct (extractWithNER_sound env _ _ _ _ _ N Hc) as (C1 & C2 & _).
      * eexists _, w1. split; [reflexivity|]. split; [|exact C1].
        unfold pairedContacts. rewrite pairLoop_nerContacts.
        apply orNullList_ok, nerContacts_complete, C2. reflexivity.
      * exists None, w1. now repeat split.
    + eexists _, w. split; [reflexivity|]. split; [|exact Hc].
      split; [discriminate|]. rewrite E. apply cardContact_complete.
  - intros elements r w' Hel Hrun. cbv zeta.
    split; [apply cardContact_complete|].
    rewrite parseContactsTry_run, Hel in Hrun.
    destruct (eachCard elements [] w) as [[cs|e] w0] eqn:E; simpl in Hrun;
      [|discriminate].
    apply eachCard_run in E as [-> E]. specialize (E cs eq_refl). simpl in E.
    subst cs. split.
    + intros NE. destruct (omap cardContact elements) as [|c cs]; [congruence|].
      simpl in Hrun. now inversion Hrun.
    + intros EQ l Hl. rewrite EQ in Hrun. simpl in Hrun.
      destruct (extractWithNER env page itemId w) as [[ner|e] w1];
        [|discriminate].
      inversion Hrun; subst. unfold pairedContacts in *.
      rewrite pairLoop_nerContacts in *.
      pose proof (nerContacts_unknown ner) as U.
      destruct (nerContacts ner); simpl in *; [discriminate|].
      now inversion H0; subst.
Qed.

End Contacts.

Lemma parseContacts_all_or_nothing_witness :
  let env := servingEnv [] (Ok (mkNlp [] [] [])) in
  let page := cardsPage [card "Jane Doe" "CEO" "jane@acme.com"; card "Bob" "CTO" ""] [] in
  let jane := mkContact (lit "Jane Doe") (lit "CEO") (lit "jane@acme.com") in
  fst (parseContacts env page (lit "a") (oneItemWorld [])) = Ok (Some [jane])
  /\ contactsOk (Some [jane]).
Proof.
  cbv zeta.
  destruct (parseContacts_all_or_nothing (servingEnv [] (Ok (mkNlp [] [] [])))
              (cardsPage [card "Jane Doe" "CEO" "jane@acme.com"; card "Bob" "CTO" ""] [])
              (lit "a") (oneItemWorld []) cacheOk_empty)
    as [(r & w' & Hrun & Hok & _) _].
  assert (E : r = Some [mkContact (lit "Jane Doe") (lit "CEO") (lit "jane@acme.com")]).
  { vm_compute in Hrun. inversion Hrun. reflexivity. }
  rewrite E in Hok. split; [reflexivity | exact Hok].
Defined.

(** ** Pairing persons and addresses *)

Lemma pairedContacts_zip people emails :
  pairedContacts people emails = omap pairOf (zip people (unique emails)).
Proof.
  unfold pairedContacts. rewrite pairLoop_zip. simpl.
  rewrite take_ge; [reflexivity|]. rewrite length_zip. lia.
Qed.

Lemma pairedContacts_elem people emails c :
  c ∈ pairedContacts people emails
  <-> exists i, people !! i = Some (name c)
                /\ unique emails !! i = Some (email c)
                /\ inBand (name c) /\ title c = lit "Unknown".
Proof.
  rewrite pairedContacts_zip, list_elem_of_omap. split.
  - intros ([p e] & Hin & Hp). apply list_elem_of_lookup in Hin as [i Hi].
    apply lookup_zip_Some in Hi as [Hp' He]. unfold pairOf in Hp. simpl in Hp.
    case_bool_decide as B; [|discriminate]. inversion Hp; subst. simpl in *.
    exists i. split; [|split; [|split]]; assumption || reflexivity.
  - intros (i & Hp & He & B & T). exists (name c, email c). split.
    + apply list_elem_of_lookup. exists i. now apply lookup_zip_Some.
    + unfold pairOf. simpl. rewrite bool_decide_eq_true_2 by exact B.
      destruct c as [n t e]. simpl in *. now subst.
Qed.

Lemma omap_length_le {A B} (f : A -> option B) (l : list A) :
  length (omap f l) <= length l.
Proof. induction l as [|x l IH]; csimpl; [lia|]. destruct (f x); csimpl; lia. Qed.

Lemma pairedContacts_length people emails :
  length (pairedContacts people emails)
  <= Nat.min (length people) (length (unique emails)).
Proof.
  rewrite pairedContacts_zip.
  etransitivity; [apply omap_length_le|]. rewrite length_zip. lia.
Qed.

(** C10: the second layer of parseContacts pairs the persons and the
    distinct addresses that extractWithNER returned by position.  The
    distinct addresses are the addresses without repetitions, in order of
    first appearance; the contacts are, in order, (person[i], "Unknown",
    distinct[i]) for the positions i below min(count of persons, count of
    distinct addresses) whose person has a length strictly between 1 and 100;
    where the person at i fails that test there is no contact for i, and
    the address at i goes to nobody else.  So there can be strictly fewer
    contacts than the minimum of the two counts. *)
Theorem ner_contacts_paired_by_index :
  (forall people emails : list jsstring,
     let distinct := unique emails in
     let result := pairedContacts people emails in
     NoDup distinct /\ (forall e, e ∈ distinct <-> e ∈ emails)
     /\ sublist distinct emails
     /\ result = omap pairOf (zip people distinct)
     /\ length result <= Nat.min (length people) (length distinct)
     /\ (forall c, c ∈ result ->
           exists i, i < Nat.min (length people) (length distinct)
                     /\ people !! i = Some (name c)
                     /\ distinct !! i = Some (email c)
                     /\ inBand (name c) /\ title c = lit "Unknown")
     /\ (forall i p e, people !! i = Some p -> distinct !! i = Some e ->
           (inBand p -> mkContact p (lit "Unknown") e ∈ result)
           /\ (~ inBand p -> forall c, c ∈ result -> email c <> e))
     /\ (forall c i, c ∈ result -> distinct !! i = Some (email c) ->
           people !! i = Some (name c)))
  /\ (forall env page itemId w ner w1,
        extractWithNER env page itemId w = (Ok ner, w1) ->
        contactsFromNER env page itemId [] w
        = (Ok (pairedContacts (people ner) (emails ner)), w1))
  /\ length (pairedContacts samplePeople sampleEmails)
     < Nat.min (length samplePeople) (length (unique sampleEmails)).
Proof.
  split; [|split; [|vm_compute; lia]];
    [|intros env page itemId w ner w1 H;
      now rewrite contactsFromNER_run, H].
  intros people emails. cbv zeta.
  assert (ND : NoDup (unique emails)) by apply uniqueFrom_NoDup.
  assert (Same : forall c i, c ∈ pairedContacts people emails ->
                   unique emails !! i = Some (email c) -> people !! i = Some (name c)).
  { intros c i Hc Hi. apply pairedContacts_elem in Hc as (j & Hp & He & _).
    now rewrite (NoDup_lookup _ _ _ _ ND Hi He). }
  split; [exact ND|]. split; [apply unique_elem|].
  split; [apply uniqueFrom_sublist|]. split; [apply pairedContacts_zip|].
  split; [apply pairedContacts_length|]. split; [|split; [|exact Same]].
  - intros c Hc. apply pairedContacts_elem in Hc as (i & Hp & He & B & T).
    exists i. split; [|split; [|split; [|split]]]; try assumption.
    apply lookup_lt_Some in Hp. apply lookup_lt_Some in He. lia.
  - intros i p e Hp He. split.
    + intros B. apply pairedContacts_elem. exists i.
      split; [|split; [|split]]; assumption || reflexivity.
    + intros B c Hc E. subst e. apply B.
      pose proof (Same c i Hc He) as Hp'. rewrite Hp in Hp'. inversion Hp'; subst.
      now apply pairedContacts_elem in Hc as (_ & _ & _ & B' & _).
Qed.

Lemma ner_contacts_paired_by_index_witness :
  pairedContacts samplePeople sampleEmails
  = [mkContact (lit "Jane Doe") (lit "Unknown") (lit "jane@acme.com")]
  /\ forall c, c ∈ pairedContacts samplePeople sampleEmails ->
       email c <> lit "info@acme.com".
Proof.
  split; [reflexivity|].
  destruct ner_contacts_paired_by_index as [H _].
  destruct (H samplePeople sampleEmails) as (_ & _ & _ & _ & _ & _ & P & _).
  apply (P 0 (lit "J") (lit "info@acme.com") eq_refl eq_refl).
  unfold inBand. vm_compute. lia.
Defined.

(** ** parseCompanyData *)

Section Company.

Variable env : Env.

Lemma layer1_world page w o w' : layer1 page w = (o, w') -> w' = w.
Proof.
  unfold layer1, bind, lift, ret.
  destruct (text page SEL_COMPANY_NAME); [|now inversion 1].
  destruct (attr page SEL_COMPANY_WEBSITE (lit "href")); [|now inversion 1].
  destruct (text page SEL_INDUSTRY); [|now inversion 1].
  destruct (text page SEL_HEADCOUNT); [|now inversion 1].
  destruct (text page SEL_LOCATION); now inversion 1.
Qed.

Lemma layer1_name page w d1 w1 raw :
  layer1 page w = (Ok d1, w1) -> text page SEL_COMPANY_NAME = Ok raw ->
  companyName d1 = orNull (trim raw).
Proof.
  unfold layer1, bind, lift, ret. intros H E. rewrite E in H.
  destruct (attr page SEL_COMPANY_WEBSITE (lit "href")); [|discriminate].
  destruct (text page SEL_INDUSTRY); [|discriminate].
  destruct (text page SEL_HEADCOUNT); [|discriminate].
  destruct (text page SEL_LOCATION); [|discriminate].
  now inversion H.
Qed.

Lemma parseCompanyDataTry_run page itemId w :
  parseCompanyDataTry env page itemId w
  = match fst (layer1 page w) with
    | Ok d1 => layer3 env page itemId (layer2 page d1) w
    | Throw e => (Throw e, w)
    end.
Proof.
  unfold parseCompanyDataTry, bind.
  destruct (layer1 page w) as [[d1|e] w1] eqn:E; apply layer1_world in E;
    now subst.
Qed.

Lemma extractWithNER_first_event page key w :
  exists evs, trace (snd (extractWithNER env page key w))
              = trace w ++ NerCall key :: evs.
Proof.
  unfold extractWithNER. unfold bind at 1, emit.
  match goal with
  | |- context [bind ?m ?k ?w1] =>
      assert (G : traceGrows (bind m k));
      [ unfold nerOfText; auto 20 with grows
      | destruct (bind m k w1) as [o w'] eqn:E;
        destruct (G _ _ _ E) as [evs Hevs] ]
  end.
  exists evs. simpl in *. now rewrite Hevs, <- app_assoc.
Qed.

Lemma keepsField_fallback page v selectors :
  keepsField v (fallback page v selectors).
Proof.
  intros x -> N. unfold fallback, missing.
  destruct x; [congruence|reflexivity].
Qed.

Lemma keepsField_fromNER v ner : keepsField v (fromNER v ner).
Proof.
  intros x -> N. unfold fromNER, missing at 1.
  destruct x; [congruence|reflexivity].
Qed.

Lemma keepsField_refl v : keepsField v v.
Proof. now intros x ->. Qed.

Lemma keeps_trans a b c : keeps a b -> keeps b c -> keeps a c.
Proof.
  unfold keeps, keepsField.
  intros (A1 & A2 & A3 & A4 & A5) (B1 & B2 & B3 & B4 & B5).
  repeat split; intros v H N; eauto.
Qed.

Lemma layer2_keeps page d : keeps d (layer2 page d).
Proof. unfold keeps, layer2; simpl. repeat split; apply keepsField_fallback. Qed.

Lemma layer3_run page itemId d w :
  layer3 env page itemId d w
  = if missing (companyName d) || missing (hqLocation d) then
      match extractWithNER env page itemId w with
      | (Ok nerData, w1) =>
          (Ok (mkCompany (fromNER (companyName d) (ner_companyName nerData))
                 (website d) (industry d) (headcountRange d)
                 (fromNER (hqLocation d) (ner_hqLocation nerData))), w1)
      | (Throw e, w1) => (Throw e, w1)
      end
    else (Ok d, w).
Proof.
  unfold layer3, bind, ret.
  destruct (missing (companyName d) || missing (hqLocation d)); [|reflexivity].
  now destruct (extractWithNER env page itemId w) as [[n|e] w1].
Qed.

Lemma layer3_keeps page itemId d w d' w' :
  layer3 env page itemId d w = (Ok d', w') -> keeps d d'.
Proof.
  rewrite layer3_run.
  destruct (missing (companyName d) || missing (hqLocation d)).
  - destruct (extractWithNER env page itemId w) as [[n|e] w1]; [|discriminate].
    intros H. inversion H; subst. unfold keeps; simpl.
    repeat split; try apply keepsField_refl; apply keepsField_fromNER.
  - intros H. inversion H; subst. unfold keeps.
    repeat split; apply keepsField_refl.
Qed.

(** C5: no layer of parseCompanyData changes a field that an earlier layer
    filled: layer 2 and layer 3 keep every non-empty value they are given,
    so the record the try block returns keeps every value of layer 1 and of
    layer 2.  In particular, when h1.company-name has a non-empty trimmed
    text, that text is the company name of every result the try block
    returns; parseCompanyData returns it too, unless something threw inside
    and all fields are null. *)
Theorem earlier_layers_take_precedence (page : CheerioAPI) (itemId : jsstring)
    (w : World) :
  (forall d, keeps d (layer2 page d))
  /\ (forall d w0 d' w1, layer3 env page itemId d w0 = (Ok d', w1) -> keeps d d')
  /\ (forall d1 w1 cd w',
        layer1 page w = (Ok d1, w1) ->
        parseCompanyDataTry env page itemId w = (Ok cd, w') ->
        keeps d1 (layer2 page d1) /\ keeps (layer2 page d1) cd /\ keeps d1 cd
        /\ parseCompanyData env page itemId w = (Ok cd, w'))
  /\ (forall raw,
        text page SEL_COMPANY_NAME = Ok raw -> trim raw <> [] ->
        (forall cd w', parseCompanyDataTry env page itemId w = (Ok cd, w') ->
                       companyName cd = Some (trim raw))
        /\ exists cd w',
             parseCompanyData env page itemId w = (Ok cd, w')
             /\ (companyName cd = Some (trim raw)
                 \/ ((exists e, fst (parseCompanyDataTry env page itemId w) = Throw e)
                     /\ cd = nullCompanyData))).
Proof.
  assert (Whole : forall d1 w1 cd w',
            layer1 page w = (Ok d1, w1) ->
            parseCompanyDataTry env page itemId w = (Ok cd, w') ->
            keeps d1 (layer2 page d1) /\ keeps (layer2 page d1) cd /\ keeps d1 cd
            /\ parseCompanyData env page itemId w = (Ok cd, w')).
  { intros d1 w1 cd w' H1 Hrun.
    assert (K3 : keeps (layer2 page d1) cd).
    { rewrite parseCompanyDataTry_run, H1 in Hrun. simpl in Hrun.
      now apply layer3_keeps in Hrun. }
    split; [apply layer2_keeps|]. split; [exact K3|].
    split; [exact (keeps_trans _ _ _ (layer2_keeps page d1) K3)|].
    unfold parseCompanyData, try_catch. now rewrite Hrun. }
  assert (Name : forall raw cd w',
            text page SEL_COMPANY_NAME = Ok raw -> trim raw <> [] ->
            parseCompanyDataTry env page itemId w = (Ok cd, w') ->
            companyName cd = Some (trim raw)).
  { intros raw cd w' Hraw NE Hrun.
    destruct (layer1 page w) as [[d1|e] w1] eqn:H1.
    - destruct (Whole _ _ _ _ eq_refl Hrun) as (_ & _ & (K & _) & _).
      apply K; [|exact NE].
      rewrite (layer1_name _ _ _ _ _ H1 Hraw). unfold orNull.
      destruct (trim raw); [congruence|reflexivity].
    - rewrite parseCompanyDataTry_run, H1 in Hrun. discriminate Hrun. }
  split; [apply layer2_keeps|]. split; [apply layer3_keeps|].
  split; [exact Whole|].
  intros raw Hraw NE. split; [intros cd w'; now apply Name|].
  unfold parseCompanyData, try_catch, ret.
  destruct (parseCompanyDataTry env page itemId w) as [[cd|e] w1] eqn:Hrun; simpl.
  - exists cd, w1. split; [reflexivity|]. left. now apply (Name raw cd w1).
  - exists nullCompanyData, w1. split; [reflexivity|]. right. eauto.
Qed.

End Company.

Lemma earlier_layers_take_precedence_witness :
  let env := servingEnv longBody (Ok rocketDoc) in
  fst (parseCompanyData env (acmePage longBody) (lit "a") (oneItemWorld []))
  = Ok (mkCompany (Some (lit "Acme Corp")) None None None
          (Some (lit "San Francisco")))
  /\ forall cd w',
       parseCompanyDataTry env (acmePage longBody) (lit "a") (oneItemWorld [])
       = (Ok cd, w') ->
       companyName cd = Some (trim (lit "Acme Corp")).
Proof.
  cbv zeta. split; [vm_compute; reflexivity|].
  assert (NE : trim (lit "Acme Corp") <> []).
  { intros H. vm_compute in H. discriminate H. }
  exact (proj1 (proj2 (proj2 (proj2
           (earlier_layers_take_precedence (servingEnv longBody (Ok rocketDoc))
              (acmePage longBody) (lit "a") (oneItemWorld []))))
           (lit "Acme Corp") eq_refl NE)).
Defined.

(** ** When and on what entity recognition runs *)

Section Recognition.

Variable env : Env.

Lemma parseCompanyData_no_NER page itemId w d1 w1 :
  layer1 page w = (Ok d1, w1) ->
  missing (companyName (layer2 page d1)) = false ->
  missing (hqLocation (layer2 page d1)) = false ->
  parseCompanyData env page itemId w = (Ok (layer2 page d1), w).
Proof.
  intros H1 Hn Hl. unfold parseCompanyData, try_catch.
  rewrite parseCompanyDataTry_run, H1. simpl.
  rewrite layer3_run, Hn, Hl. reflexivity.
Qed.

Lemma parseCompanyData_NER page itemId w d1 w1 :
  layer1 page w = (Ok d1, w1) ->
  missing (companyName (layer2 page d1)) = true
  \/ missing (hqLocation (layer2 page d1)) = true ->
  exists evs, trace (snd (parseCompanyData env page itemId w))
              = trace w ++ NerCall itemId :: evs.
Proof.
  intros H1 Hm. unfold parseCompanyData, try_catch.
  rewrite parseCompanyDataTry_run, H1. simpl. rewrite layer3_run.
  assert (G : missing (companyName (layer2 page d1))
              || missing (hqLocation (layer2 page d1)) = true).
  { apply orb_true_iff. exact Hm. }
  rewrite G. destruct (extractWithNER_first_event env page itemId w) as [evs E].
  exists evs. now destruct (extractWithNER env page itemId w) as [[n|e] w2].
Qed.

Lemma parseContacts_no_NER page itemId w elements cs :
  each page SEL_CONTACT_CARD = Ok elements ->
  fst (eachCard elements [] w) = Ok cs -> cs <> [] ->
  parseContacts env page itemId w = (Ok (Some cs), w).
Proof.
  intros He Hc NE. unfold parseContacts, try_catch.
  rewrite parseContactsTry_run, He, Hc.
  destruct cs; [congruence|reflexivity].
Qed.

Lemma parseContacts_NER page itemId w elements :
  each page SEL_CONTACT_CARD = Ok elements ->
  fst (eachCard elements [] w) = Ok [] ->
  exists evs, trace (snd (parseContacts env page itemId w))
              = trace w ++ NerCall itemId :: evs.
Proof.
  intros He Hc. unfold parseContacts, try_catch.
  rewrite parseContactsTry_run, He, Hc. simpl.
  destruct (extractWithNER_first_event env page itemId w) as [evs E].
  exists evs. now destruct (extractWithNER env page itemId w) as [[n|e] w2].
Qed.

(** C7: parseCompanyData calls extractWithNER only when company name or
    location is missing after layers 1 and 2 (otherwise it returns the
    layer-2 record without touching the world), and parseContacts only when
    the cards gave no contact.  On a cache miss extractWithNER returns the
    empty result, without running compromise, when the collapsed and trimmed
    body text has fewer than 50 code units; otherwise the text it gives to
    compromise and to the e-mail pattern is the first 100000 code units of
    it, and company name (location) is the first organization (place) whose
    length is strictly between 1 and 100, or null if there is none. *)
Theorem entity_recognition_policy (page : CheerioAPI) (itemId : jsstring)
    (w : World) :
  (forall d1 w1, layer1 page w = (Ok d1, w1) ->
     let d2 := layer2 page d1 in
     (missing (companyName d2) = false -> missing (hqLocation d2) = false ->
      parseCompanyData env page itemId w = (Ok d2, w))
     /\ (missing (companyName d2) = true \/ missing (hqLocation d2) = true ->
         exists evs, trace (snd (parseCompanyData env page itemId w))
                     = trace w ++ NerCall itemId :: evs))
  /\ (forall elements cs,
        each page SEL_CONTACT_CARD = Ok elements ->
        fst (eachCard elements [] w) = Ok cs ->
        (cs <> [] -> parseContacts env page itemId w = (Ok (Some cs), w))
        /\ (cs = [] ->
            exists evs, trace (snd (parseContacts env page itemId w))
                        = trace w ++ NerCall itemId :: evs))
  /\ (forall raw,
        nerCache w !! itemId = None ->
        text page (lit "body") = Ok raw ->
        let bodyText := trim (collapseSpaces raw) in
        (length bodyText < 50 ->
         extractWithNER env page itemId w
         = (Ok (mkNer None None [] []),
            cached itemId (mkNer None None [] []) (traced [NerCall itemId] w)))
        /\ (50 <= length bodyText ->
            let given := take (N.to_nat 100000) bodyText in
            length given <= N.to_nat 100000
            /\ (forall e, nlp env given = Throw e ->
                  extractWithNER env page itemId w
                  = (Throw e, traced [NerCall itemId; NlpRun given] w))
            /\ (forall doc, nlp env given = Ok doc ->
                  exists r,
                    extractWithNER env page itemId w
                    = (Ok r, cached itemId r
                               (traced [NerCall itemId; NlpRun given] w))
                    /\ people r = nlp_people doc
                    /\ emails r = matchEmails given
                    /\ firstIn inBand (organizations doc) (ner_companyName r)
                    /\ firstIn inBand (places doc) (ner_hqLocation r)))).
Proof.
  split; [|split].
  - intros d1 w1 H1. cbv zeta. split.
    + now apply parseCompanyData_no_NER with (w1 := w1).
    + now apply parseCompanyData_NER with (w1 := w1).
  - intros elements cs He Hc. split.
    + now apply parseContacts_no_NER with (elements := elements).
    + intros ->. now apply parseContacts_NER with (elements := elements).
  - intros raw Hmiss Hbody. cbv zeta.
    rewrite (extractWithNER_miss env page itemId w Hmiss), Hbody. split.
    + intros S. now rewrite (nerOfText_short env raw itemId _ S).
    + intros L. rewrite (nerOfText_long env raw itemId _ L).
      change (take (N.to_nat 100000) (trim (collapseSpaces raw)))
        with (analysed raw).
      split; [apply analysed_length|]. split.
      * intros e ->. unfold traced. simpl. now rewrite <- app_assoc.
      * intros doc ->. exists (nerOfDoc (analysed raw) doc).
        split; [|split; [reflexivity|split; [reflexivity|]]].
        -- unfold cached, traced. simpl. now rewrite <- app_assoc.
        -- split; apply find_firstIn.
Qed.

End Recognition.

Lemma entity_recognition_policy_witness :
  let env := servingEnv longBody (Ok rocketDoc) in
  exists r w',
    extractWithNER env (acmePage longBody) (lit "a") (oneItemWorld []) = (Ok r, w')
    /\ firstIn inBand (organizations rocketDoc) (ner_companyName r)
    /\ ner_companyName r = Some (lit "Rocket Inc")
    /\ emails r = [].
Proof.
  cbv zeta.
  destruct (entity_recognition_policy (servingEnv longBody (Ok rocketDoc))
              (acmePage longBody) (lit "a") (oneItemWorld []))
    as (_ & _ & H).
  assert (L : 50 <= length (trim (collapseSpaces longBody))).
  { vm_compute. lia. }
  destruct (H longBody eq_refl eq_refl) as [_ H'].
  destruct (H' L) as (_ & _ & H'').
  destruct (H'' rocketDoc eq_refl) as (r & Hrun & _ & He & Hc & _).
  exists r. eexists. split; [exact Hrun|]. split; [exact Hc|].
  vm_compute in Hrun. inversion Hrun. split; reflexivity.
Defined.

Lemma processItem_throws_iff_witness :
  let env := servingEnv [] (Ok (mkNlp [] [] [])) in
  let w := oneItemWorld [Some dbDown; Some dbDown] in
  fst (processItem env (lit "a") (lit "http://acme.test/") (lit "job-1") w)
  = Throw dbDown
  /\ fst (process env (lit "a") (lit "http://acme.test/") (lit "job-1") w)
     = Throw dbDown.
Proof.
  cbv zeta.
  destruct (processItem_throws_iff (servingEnv [] (Ok (mkNlp [] [] [])))
              (lit "a") (lit "http://acme.test/") (lit "job-1")
              (oneItemWorld [Some dbDown; Some dbDown]) dbDown) as [[_ H] P].
  assert (T : fst (processItem (servingEnv [] (Ok (mkNlp [] [] []))) (lit "a")
                     (lit "http://acme.test/") (lit "job-1")
                     (oneItemWorld [Some dbDown; Some dbDown])) = Throw dbDown).
  { apply H. eexists _, _. split; vm_compute; reflexivity. }
  split; [exact T|]. now rewrite P.
Defined.

(** ** The scenarios of the specification *)

(** Scenario B: an unstructured page whose text names an organization, a
    place, a person and an address. *)
Lemma scenario_unstructured_page :
  let body := lit "Acme Corp is based in San Francisco. Contact Jane Doe at jane@acme.com." in
  let env := servingEnv body
               (Ok (mkNlp [lit "Acme Corp"] [lit "San Francisco"] [lit "Jane Doe"])) in
  let page := cardsPage [] body in
  let w := oneItemWorld [] in
  fst (parseCompanyData env page (lit "a") w)
  = Ok (mkCompany (Some (lit "Acme Corp")) None None None (Some (lit "San Francisco")))
  /\ fst (parseContacts env page (lit "a") (snd (parseCompanyData env page (lit "a") w)))
     = Ok (Some [mkContact (lit "Jane Doe") (lit "Unknown") (lit "jane@acme.com")]).
Proof. cbv zeta. split; vm_compute; reflexivity. Qed.

(** Scenario D: ten items, seven completed and three failed. *)
Lemma scenario_seven_of_ten :
  jobStatusOf 10 3 10 = lit "completed" /\ jobStatusOf 10 10 10 = lit "failed"
  /\ jobStatusOf 9 3 10 = lit "processing" /\ jobStatusOf 0 0 0 = lit "processing".
Proof. repeat split; reflexivity. Qed.

(** ** The cache between two tasks *)

Lemma bind_inv {A B} (m : M A) (k : A -> M B) w o w' :
  bind m k w = (o, w') ->
  (exists a w1, m w = (Ok a, w1) /\ k a w1 = (o, w'))
  \/ (exists e, m w = (Throw e, w') /\ o = Throw e).
Proof.
  unfold bind. destruct (m w) as [[a|e] w1]; intros H.
  - left. eauto.
  - right. inversion H; subst. eauto.
Qed.

Lemma cacheSilent_only {A} key (m : M A) : cacheSilent m -> cacheOnly key m.
Proof. intros H w o w' E k _. now rewrite (H _ _ _ E). Qed.

Lemma cacheSilent_same {A} (m : M A) :
  (forall w, nerCache (snd (m w)) = nerCache w) -> cacheSilent m.
Proof. intros H w o w' E. specialize (H w). now rewrite E in H. Qed.

Lemma cacheSilent_ret {A} (a : A) : cacheSilent (ret a).
Proof. now apply cacheSilent_same. Qed.

Lemma cacheSilent_throw {A} e : cacheSilent (@throw A e).
Proof. now apply cacheSilent_same. Qed.

Lemma cacheSilent_lift {A} (o : Outcome A) : cacheSilent (lift o).
Proof. now apply cacheSilent_same. Qed.

Lemma cacheSilent_newDate : cacheSilent newDate.
Proof. now apply cacheSilent_same. Qed.

Lemma cacheSilent_emit ev : cacheSilent (emit ev).
Proof. now apply cacheSilent_same. Qed.

Lemma cacheSilent_cacheGet k : cacheSilent (cacheGet k).
Proof. now apply cacheSilent_same. Qed.

Lemma cacheSilent_repoCall ev f : cacheSilent (repoCall ev f).
Proof.
  apply cacheSilent_same. intros w. unfold repoCall.
  now destruct (faults w) as [|[e|] rest].
Qed.

Lemma cacheSilent_bind {A B} (m : M A) (k : A -> M B) :
  cacheSilent m -> (forall a, cacheSilent (k a)) -> cacheSilent (bind m k).
Proof.
  intros Hm Hk w o w' E.
  apply bind_inv in E as [(a & w1 & E1 & E2)|(e & E1 & _)].
  - now rewrite (Hk _ _ _ _ E2), (Hm _ _ _ E1).
  - exact (Hm _ _ _ E1).
Qed.

Lemma cacheSilent_try_catch {A} (m : M A) (h : Thrown -> M A) :
  cacheSilent m -> (forall e, cacheSilent (h e)) -> cacheSilent (try_catch m h).
Proof.
  intros Hm Hh w o w' E. unfold try_catch in E.
  destruct (m w) as [[a|e] w1] eqn:Em.
  - inversion E; subst. exact (Hm _ _ _ Em).
  - now rewrite (Hh _ _ _ _ E), (Hm _ _ _ Em).
Qed.

Lemma cacheOnly_cacheSet key r : cacheOnly key (cacheSet key r).
Proof.
  intros w o w' E k N. inversion E; subst. simpl.
  now rewrite lookup_insert_ne by congruence.
Qed.

Lemma cacheOnly_bind {A B} key (m : M A) (k : A -> M B) :
  cacheOnly key m -> (forall a, cacheOnly key (k a)) -> cacheOnly key (bind m k).
Proof.
  intros Hm Hk w o w' E x N.
  apply bind_inv in E as [(a & w1 & E1 & E2)|(e & E1 & _)].
  - now rewrite (Hk _ _ _ _ E2 x N), (Hm _ _ _ E1 x N).
  - exact (Hm _ _ _ E1 x N).
Qed.

Lemma cacheOnly_try_catch {A} key (m : M A) (h : Thrown -> M A) :
  cacheOnly key m -> (forall e, cacheOnly key (h e)) -> cacheOnly key (try_catch m h).
Proof.
  intros Hm Hh w o w' E x N. unfold try_catch in E.
  destruct (m w) as [[a|e] w1] eqn:Em.
  - inversion E; subst. exact (Hm _ _ _ Em x N).
  - now rewrite (Hh _ _ _ _ E x N), (Hm _ _ _ Em x N).
Qed.

Create HintDb cache.
#[export] Hint Resolve cacheSilent_ret cacheSilent_throw cacheSilent_lift
  cacheSilent_newDate cacheSilent_emit cacheSilent_cacheGet cacheSilent_repoCall
  cacheSilent_bind cacheSilent_try_catch cacheOnly_cacheSet cacheOnly_bind
  cacheOnly_try_catch : cache.
#[export] Hint Resolve cacheSilent_only | 10 : cache.
#[export] Hint Extern 1 (cacheSilent (if ?b then _ else _)) => destruct b : cache.
#[export] Hint Extern 1 (cacheOnly _ (if ?b then _ else _)) => destruct b : cache.
#[export] Hint Extern 1 (cacheOnly _ (match ?x with Some _ => _ | None => _ end)) =>
  destruct x : cache.

Section CacheScope.

Variable env : Env.

Lemma cacheOnly_extractWithNER page key : cacheOnly key (extractWithNER env page key).
Proof. unfold extractWithNER, nerOfText. auto 20 with cache. Qed.

Lemma cacheOnly_parseCompanyData page itemId :
  cacheOnly itemId (parseCompanyData env page itemId).
Proof.
  pose proof cacheOnly_extractWithNER.
  unfold parseCompanyData, parseCompanyDataTry, layer1, layer3.
  auto 20 with cache.
Qed.

Lemma cacheSilent_eachCard elements contacts : cacheSilent (eachCard elements contacts).
Proof.
  intros w o w' E. apply eachCard_run in E as [-> _]. reflexivity.
Qed.

Lemma cacheOnly_parseContacts page itemId :
  cacheOnly itemId (parseContacts env page itemId).
Proof.
  pose proof cacheOnly_extractWithNER. pose proof cacheSilent_eachCard.
  unfold parseContacts, parseContactsTry, contactsFromNER.
  auto 20 with cache.
Qed.

Lemma cacheSilent_updateItemStatus itemId status data :
  cacheSilent (updateItemStatus itemId status data).
Proof. unfold updateItemStatus. auto with cache. Qed.

Lemma cacheSilent_fetchHtml url : cacheSilent (fetchHtml env url).
Proof. unfold fetchHtml. auto 10 with cache. Qed.

Lemma cacheSilent_applyRateLimit : cacheSilent (applyRateLimit env).
Proof. unfold applyRateLimit. auto with cache. Qed.

Lemma cacheSilent_processItemCatch itemId error :
  cacheSilent (processItemCatch itemId error).
Proof.
  pose proof cacheSilent_updateItemStatus.
  unfold processItemCatch. auto with cache.
Qed.

Lemma cacheSilent_processItemFinally jobId : cacheSilent (processItemFinally jobId).
Proof. unfold processItemFinally, updateJobProgress. auto with cache. Qed.

(** The try block of processItem gives back an empty cache: the only entry
    extraction makes is that of the item, and it is deleted before the next
    await because parseCompanyData and parseContacts never throw. *)
Lemma processItemTry_cache_empty itemId url jobId w o w' :
  processItemTry env itemId url jobId w = (o, w') ->
  nerCache w = ∅ -> nerCache w' = ∅.
Proof.
  intros Hrun Hc. unfold processItemTry in Hrun.
  apply bind_inv in Hrun as [(t & w1 & E1 & Hrun)|(e & E1 & _)];
    [|now rewrite (cacheSilent_newDate _ _ _ E1)].
  rewrite <- (cacheSilent_newDate _ _ _ E1) in Hc.
  apply bind_inv in Hrun as [(u & w2 & E2 & Hrun)|(e & E2 & _)];
    [|now rewrite (cacheSilent_updateItemStatus _ _ _ _ _ _ E2)].
  rewrite <- (cacheSilent_updateItemStatus _ _ _ _ _ _ E2) in Hc.
  apply bind_inv in Hrun as [(u3 & w3 & E3 & Hrun)|(e & E3 & _)];
    [|now rewrite (cacheSilent_applyRateLimit _ _ _ E3)].
  rewrite <- (cacheSilent_applyRateLimit _ _ _ E3) in Hc.
  apply bind_inv in Hrun as [(html & w4 & E4 & Hrun)|(e & E4 & _)];
    [|now rewrite (cacheSilent_fetchHtml _ _ _ _ E4)].
  rewrite <- (cacheSilent_fetchHtml _ _ _ _ E4) in Hc.
  apply bind_inv in Hrun as [(page & w5 & E5 & Hrun)|(e & E5 & _)];
    [|now rewrite (cacheSilent_lift _ _ _ _ E5)].
  rewrite <- (cacheSilent_lift _ _ _ _ E5) in Hc.
  apply bind_inv in Hrun as [(cd & w6 & E6 & Hrun)|(e & E6 & _)].
  2:{ destruct (try_catch_default (parseCompanyDataTry env page itemId)
                  nullCompanyData w5) as (? & ? & T & _).
      unfold parseCompanyData in E6. rewrite T in E6. discriminate E6. }
  apply bind_inv in Hrun as [(cs & w7 & E7 & Hrun)|(e & E7 & _)].
  2:{ destruct (try_catch_default (parseContactsTry env page itemId) None w6)
        as (? & ? & T & _).
      unfold parseContacts in E7. rewrite T in E7. discriminate E7. }
  apply bind_inv in Hrun as [(u8 & w8 & E8 & Hrun)|(e & E8 & _)];
    [|discriminate E8].
  assert (C8 : nerCache w8 = ∅).
  { inversion E8; subst. simpl. apply map_eq. intros k.
    rewrite lookup_empty. destruct (decide (k = itemId)) as [->|N].
    - apply lookup_delete_eq.
    - rewrite lookup_delete_ne by congruence.
      rewrite (cacheOnly_parseContacts _ _ _ _ _ E7 k N).
      rewrite (cacheOnly_parseCompanyData _ _ _ _ _ E6 k N).
      now rewrite Hc, lookup_empty. }
  assert (S : cacheSilent
                (scrapedAt <- newDate ;; finishedAt <- newDate ;;
                 updateItemStatus itemId (lit "completed")
                   (mkPatch None (Some (Some finishedAt)) (Some None)
                      (Some (companyName cd)) (Some (website cd))
                      (Some (industry cd)) (Some (headcountRange cd))
                      (Some (hqLocation cd)) (Some cs)
                      (Some (Some (mkRawData url (length html) scrapedAt)))))).
  { pose proof cacheSilent_updateItemStatus. auto with cache. }
  now rewrite (S _ _ _ Hrun).
Qed.

(** A task that starts with an empty cache ends with an empty cache. *)
Lemma processItem_cache_empty itemId url jobId w :
  nerCache w = ∅ -> nerCache (snd (processItem env itemId url jobId w)) = ∅.
Proof.
  intros Hc. unfold processItem, try_finally.
  destruct (try_catch (processItemTry env itemId url jobId)
              (processItemCatch itemId) w) as [o w1] eqn:Ebody.
  assert (C1 : nerCache w1 = ∅).
  { unfold try_catch in Ebody.
    destruct (processItemTry env itemId url jobId w) as [[u|e] w0] eqn:Etry.
    - inversion Ebody; subst. exact (processItemTry_cache_empty _ _ _ _ _ _ Etry Hc).
    - rewrite (cacheSilent_processItemCatch _ _ _ _ _ Ebody).
      exact (processItemTry_cache_empty _ _ _ _ _ _ Etry Hc). }
  destruct (processItemFinally jobId w1) as [[u|e] w2] eqn:Efin; simpl;
    now rewrite (cacheSilent_processItemFinally _ _ _ _ Efin).
Qed.

End CacheScope.

(** ** Sample runs *)

(** The three ways out of processItem: success, a failed fetch, and a
    database that rejects both item updates (processItem throws); the trace
    ends with the recalculation each time. *)
Lemma processItem_exit_paths :
  let url := lit "http://acme.test/" in
  let ok := servingEnv [] (Ok (mkNlp [] [] [])) in
  let run env fs := processItem env (lit "a") url (lit "job-1") (oneItemWorld fs) in
  (fst (run ok []) = Ok tt
   /\ trace (snd (run ok []))
      = [RepoUpdateItemStatus (lit "a") (lit "processing"); Sleep 500%N;
         HttpGet url; NerCall (lit "a"); NerCall (lit "a");
         RepoUpdateItemStatus (lit "a") (lit "completed");
         RepoUpdateJobProgress (lit "job-1")])
  /\ (fst (run (rejectingEnv dnsFailure) []) = Ok tt
      /\ trace (snd (run (rejectingEnv dnsFailure) []))
         = [RepoUpdateItemStatus (lit "a") (lit "processing"); Sleep 500%N;
            HttpGet url; RepoUpdateItemStatus (lit "a") (lit "failed");
            RepoUpdateJobProgress (lit "job-1")])
  /\ (fst (run ok [Some dbDown; Some dbDown; Some dbDown]) = Throw dbDown
      /\ trace (snd (run ok [Some dbDown; Some dbDown; Some dbDown]))
         = [RepoUpdateItemStatus (lit "a") (lit "processing");
            RepoUpdateItemStatus (lit "a") (lit "failed");
            RepoUpdateJobProgress (lit "job-1")]).
Proof. cbv zeta. repeat split; vm_compute; reflexivity. Qed.

Lemma string_samples :
  trim (collapseSpaces (lit "  Acme   Corp  ")) = lit "Acme Corp"
  /\ matchEmails (lit "Mail jane@acme.com, or bob.x@mail.example.co.uk.")
     = [lit "jane@acme.com"; lit "bob.x@mail.example.co.uk"]
  /\ matchEmails (lit "a@b.c a@b.com1 a@b.co_") = []
  /\ matchEmails (lit "x a@b.co.x y") = [lit "a@b.co"]
  /\ unique [lit "b"; lit "a"; lit "b"; lit "c"; lit "a"] = [lit "b"; lit "a"; lit "c"]
  /\ decimal 404 = lit "404".
Proof. repeat split; vm_compute; reflexivity. Qed.

(** * Further properties *)

(** ** Strings *)

Lemma trimStart_head s c : head (trimStart s) = Some c -> is_space c = false.
Proof.
  induction s as [|x r IH]; simpl; [discriminate|].
  destruct (is_space x) eqn:E; [exact IH|]. simpl. intros H. now inversion H; subst.
Qed.

Lemma trimStart_snoc l c :
  is_space c = false -> exists l', trimStart (l ++ [c]) = l' ++ [c].
Proof.
  intros Hc. induction l as [|x r IH]; simpl.
  - rewrite Hc. now exists [].
  - destruct (is_space x); [exact IH|]. now exists (x :: r).
Qed.

Lemma last_rev_head {A} (l : list A) : last (rev l) = head l.
Proof. destruct l as [|x r]; [reflexivity|]. simpl. apply last_snoc. Qed.

Lemma trim_trimmed s : trimmed (trim s).
Proof.
  unfold trim, trimEnd. split.
  - intros c H.
    destruct (trimStart s) as [|x r] eqn:E; [discriminate H|].
    assert (Hx : is_space x = false).
    { apply (trimStart_head s). now rewrite E. }
    change (rev (x :: r)) with (rev r ++ [x]) in H.
    destruct (trimStart_snoc (rev r) x Hx) as [l' El].
    unfold char16, jsstring in *. rewrite El, rev_app_distr in H. simpl in H. now inversion H; subst.
  - intros c H. rewrite last_rev_head in H. now apply trimStart_head in H.
Qed.

Lemma trimStart_length s : length (trimStart s) <= length s.
Proof. induction s as [|x r IH]; simpl; [lia|]. destruct (is_space x); simpl; lia. Qed.

Lemma trim_length s : length (trim s) <= length s.
Proof.
  unfold trim, trimEnd. rewrite length_rev.
  etransitivity; [apply trimStart_length|]. rewrite length_rev.
  apply trimStart_length.
Qed.

(** ** tryFallbackSelectors *)

Lemma accept_spec value s :
  accept value = Some s ->
  exists v, value = Some v /\ s = trim v /\ 0 < length s < 500.
Proof.
  unfold accept. destruct value as [v|]; [|discriminate].
  destruct (truthy v); [|discriminate]. cbv zeta.
  destruct (0 <? length (trim v)) eqn:L1; [|discriminate].
  destruct (length (trim v) <? 500) eqn:L2; [|discriminate].
  simpl. intros H. inversion H; subst. exists v.
  apply Nat.ltb_lt in L1. apply Nat.ltb_lt in L2. auto.
Qed.

Lemma tryFallbackSelectors_first page selectors :
  tryFallbackSelectors page selectors = head (omap (candidate page) selectors).
Proof.
  induction selectors as [|sel rest IH]; [reflexivity|]. csimpl.
  unfold candidate at 1.
  destruct (probe page sel) as [value|e]; [|exact IH].
  destruct (accept value); [reflexivity|exact IH].
Qed.

Lemma tryFallbackSelectors_bounds (page : CheerioAPI) (selectors : list jsstring)
    (s : jsstring) :
  tryFallbackSelectors page selectors = Some s ->
  0 < length s < 500 /\ trimmed s
  /\ exists selector v, selector ∈ selectors
       /\ probe page selector = Ok (Some v) /\ s = trim v.
Proof.
  induction selectors as [|sel rest IH]; simpl; [discriminate|].
  destruct (probe page sel) as [value|e] eqn:P.
  - destruct (accept value) as [c|] eqn:A.
    + intros H. inversion H; subst.
      apply accept_spec in A as (v & -> & -> & L).
      split; [exact L|]. split; [apply trim_trimmed|].
      exists sel, v. split; [apply list_elem_of_here|]. now split.
    + intros H. destruct (IH H) as (L & T & sel' & v & Hin & Hp & E).
      split; [exact L|]. split; [exact T|].
      exists sel', v. split; [now apply list_elem_of_further|]. now split.
  - intros H. destruct (IH H) as (L & T & sel' & v & Hin & Hp & E).
    split; [exact L|]. split; [exact T|].
    exists sel', v. split; [now apply list_elem_of_further|]. now split.
Qed.

(** X1: what tryFallbackSelectors returns is the trimmed value of one of
    the selectors of the list, it has no white space at either end, and
    its length is strictly between 0 and 500. *)
Theorem tryFallbackSelectors_value (page : CheerioAPI) (selectors : list jsstring)
    (s : jsstring) :
  tryFallbackSelectors page selectors = Some s ->
  0 < length s < 500 /\ trimmed s
  /\ exists selector v, selector ∈ selectors
       /\ probe page selector = Ok (Some v) /\ s = trim v.
Proof. exact (tryFallbackSelectors_bounds page selectors s). Qed.

Lemma tryFallbackSelectors_value_witness :
  tryFallbackSelectors titledPage FALLBACK_COMPANY_NAME = Some (lit "Acme Corp")
  /\ 0 < length (lit "Acme Corp") < 500 /\ trimmed (lit "Acme Corp").
Proof.
  split; [reflexivity|].
  destruct (tryFallbackSelectors_value titledPage FALLBACK_COMPANY_NAME
              (lit "Acme Corp") eq_refl) as (L & T & _).
  split; [exact L | exact T].
Defined.

(** X2: tryFallbackSelectors returns the candidate of the first selector, in
    list order, that has one: later selectors do not matter, a selector
    whose query throws or whose value is missing, blank or 500 code units or
    longer after trimming is passed over, and a list none of whose selectors
    has a candidate gives null. *)
Theorem tryFallbackSelectors_first_wins (page : CheerioAPI)
    (before after : list jsstring) (selector s : jsstring) :
  Forall (fun x => candidate page x = None) before ->
  (candidate page selector = Some s ->
   tryFallbackSelectors page (before ++ selector :: after) = Some s)
  /\ (candidate page selector = None ->
      tryFallbackSelectors page (before ++ selector :: after)
      = tryFallbackSelectors page after)
  /\ ((exists e, probe page selector = Throw e) -> candidate page selector = None)
  /\ (forall v, probe page selector = Ok (Some v) ->
        (candidate page selector = None
         <-> trim v = [] \/ 500 <= length (trim v)))
  /\ (tryFallbackSelectors page before = None).
Proof.
  intros Hb.
  assert (B : omap (candidate page) before = []).
  { induction Hb as [|x l Hx _ IH]; [reflexivity|]. csimpl. now rewrite Hx. }
  rewrite !tryFallbackSelectors_first, omap_app, B. csimpl.
  split; [|split; [|split; [|split]]].
  - now intros ->.
  - now intros ->.
  - intros [e H]. unfold candidate. now rewrite H.
  - intros v H. unfold candidate, accept. rewrite H.
    destruct v as [|c v]; simpl.
    + split; [intros _; now left|reflexivity].
    + destruct (trim (c :: v)) as [|c' v'] eqn:T; simpl.
      * split; [intros _; now left|reflexivity].
      * destruct (Nat.ltb_spec (S (length v')) 500) as [L|L]; simpl.
        -- split; [discriminate|]. intros [H'|H']; [discriminate|lia].
        -- split; [intros _; right; lia|reflexivity].
  - reflexivity.
Qed.

Lemma tryFallbackSelectors_first_wins_witness :
  tryFallbackSelectors titledPage
    ([lit "h1"] ++ lit "title" :: [lit ".company-title"])
  = Some (lit "Acme Corp").
Proof.
  assert (Hb : Forall (fun x => candidate titledPage x = None) [lit "h1"]).
  { constructor; [reflexivity|constructor]. }
  exact (proj1 (tryFallbackSelectors_first_wins titledPage [lit "h1"]
                  [lit ".company-title"] (lit "title") (lit "Acme Corp") Hb)
           eq_refl).
Defined.

(** ** parseCompanyData never returns an empty string *)

Lemma orNull_nonEmpty s : nonEmptyField (orNull s).
Proof. destruct s; simpl; [exact I|discriminate]. Qed.

Lemma optOrNull_nonEmpty v : nonEmptyField (optOrNull v).
Proof. destruct v as [s|]; [apply orNull_nonEmpty|exact I]. Qed.

Lemma fallback_nonEmpty page v selectors :
  nonEmptyField (fallback page v selectors).
Proof.
  unfold fallback. destruct (missing v) eqn:M.
  - destruct (tryFallbackSelectors page selectors) as [s|] eqn:T; [|exact I].
    apply tryFallbackSelectors_bounds in T as ((L & _) & _). simpl.
    intros ->. simpl in L. lia.
  - destruct v as [[|c s]|]; simpl in *; discriminate.
Qed.

Lemma fromNER_nonEmpty v ner : nonEmptyField v -> nonEmptyField (fromNER v ner).
Proof.
  intros Hv. unfold fromNER.
  destruct (missing v && negb (missing ner)) eqn:E; [|exact Hv].
  apply andb_true_iff in E as [_ E].
  destruct ner as [[|c s]|]; simpl in *; discriminate.
Qed.

Section FieldsNonEmpty.

Variable env : Env.

(** X3: whatever the document, the cache and the libraries do, no field of
    the record parseCompanyData returns is an empty string: each is null or
    has at least one code unit. *)
Theorem parseCompanyData_no_empty_field (page : CheerioAPI) (itemId : jsstring)
    (w : World) :
  let cd := fst (parseCompanyData env page itemId w) in
  exists d, cd = Ok d
    /\ nonEmptyField (companyName d) /\ nonEmptyField (website d)
    /\ nonEmptyField (industry d) /\ nonEmptyField (headcountRange d)
    /\ nonEmptyField (hqLocation d).
Proof.
  cbv zeta. unfold parseCompanyData, try_catch.
  rewrite parseCompanyDataTry_run.
  destruct (layer1 page w) as [[d1|e] w1]; simpl;
    [|exists nullCompanyData; now repeat split].
  rewrite layer3_run.
  destruct (missing (companyName (layer2 page d1))
            || missing (hqLocation (layer2 page d1))).
  - destruct (extractWithNER env page itemId w) as [[ner|e] w2]; simpl;
      [|exists nullCompanyData; now repeat split].
    eexists. split; [reflexivity|]. simpl.
    repeat split; try apply fallback_nonEmpty;
      apply fromNER_nonEmpty, fallback_nonEmpty.
  - simpl. eexists. split; [reflexivity|]. simpl.
    repeat split; apply fallback_nonEmpty.
Qed.

(** ** extractWithNER memoizes results, not failures *)

Lemma extractWithNER_cached page key w r w1 :
  extractWithNER env page key w = (Ok r, w1) -> nerCache w1 !! key = Some r.
Proof.
  destruct (nerCache w !! key) as [r0|] eqn:Hk.
  - rewrite (extractWithNER_hit env _ _ _ _ Hk). intros H. now inversion H; subst.
  - rewrite (extractWithNER_miss env _ _ _ Hk).
    destruct (text page (lit "body")) as [raw|e]; [|discriminate].
    destruct (Nat.lt_ge_cases (length (trim (collapseSpaces raw))) 50) as [S|L].
    + rewrite (nerOfText_short env _ _ _ S). intros H. inversion H; subst.
      simpl. apply lookup_insert_eq.
    + rewrite (nerOfText_long env _ _ _ L).
      destruct (nlp env (analysed raw)); [|discriminate].
      intros H. inversion H; subst. simpl. apply lookup_insert_eq.
Qed.

(** X4: once extractWithNER has returned a result for a key, the next call
    with that key returns the same result from the cache, for whatever
    document it is given: it adds its own call to the trace and nothing else,
    so compromise is not run again, and the cache is not changed. *)
Theorem extractWithNER_memoizes (page page' : CheerioAPI) (key : jsstring)
    (w w1 : World) (r : NerResult) :
  extractWithNER env page key w = (Ok r, w1) ->
  extractWithNER env page' key w1
  = (Ok r, mkWorld (db w1) (nerCache w1) (faults w1) (clock w1)
             (trace w1 ++ [NerCall key])).
Proof.
  intros H. apply extractWithNER_cached in H.
  now rewrite (extractWithNER_hit env page' key r w1 H).
Qed.

(** X5: a call of extractWithNER that throws (the body text cannot be read,
    or compromise throws) leaves the cache as it was, and that had no entry
    for the key: a failure is not memoized, the next call computes again. *)
Theorem extractWithNER_failure_not_cached (page : CheerioAPI) (key : jsstring)
    (w w1 : World) (e : Thrown) :
  extractWithNER env page key w = (Throw e, w1) ->
  nerCache w1 = nerCache w /\ nerCache w1 !! key = None
  /\ (text page (lit "body") = Throw e
      \/ exists raw, text page (lit "body") = Ok raw
                     /\ 50 <= length (trim (collapseSpaces raw))
                     /\ nlp env (analysed raw) = Throw e).
Proof.
  destruct (nerCache w !! key) as [r0|] eqn:Hk.
  - rewrite (extractWithNER_hit env _ _ _ _ Hk). discriminate.
  - rewrite (extractWithNER_miss env _ _ _ Hk).
    destruct (text page (lit "body")) as [raw|e0] eqn:T.
    + destruct (Nat.lt_ge_cases (length (trim (collapseSpaces raw))) 50) as [S|L].
      * rewrite (nerOfText_short env _ _ _ S). discriminate.
      * rewrite (nerOfText_long env _ _ _ L).
        destruct (nlp env (analysed raw)) as [doc|e1] eqn:N; [discriminate|].
        intros H. inversion H; subst. simpl. split; [reflexivity|].
        split; [exact Hk|]. right. exists raw. now repeat split.
    + intros H. inversion H; subst. simpl. split; [reflexivity|].
      split; [exact Hk|]. now left.
Qed.

End FieldsNonEmpty.

Lemma extractWithNER_memoizes_witness :
  let env := servingEnv longBody (Ok rocketDoc) in
  let w1 := snd (extractWithNER env (acmePage longBody) (lit "a") (oneItemWorld [])) in
  fst (extractWithNER env (acmePage []) (lit "a") w1)
  = fst (extractWithNER env (acmePage longBody) (lit "a") (oneItemWorld []))
  /\ trace (snd (extractWithNER env (acmePage []) (lit "a") w1))
     = trace w1 ++ [NerCall (lit "a")].
Proof.
  cbv zeta.
  destruct (extractWithNER (servingEnv longBody (Ok rocketDoc)) (acmePage longBody)
              (lit "a") (oneItemWorld [])) as [[r|e] w1] eqn:E;
    [|vm_compute in E; discriminate E].
  cbn [fst snd].
  rewrite (extractWithNER_memoizes (servingEnv longBody (Ok rocketDoc))
             (acmePage longBody) (acmePage []) (lit "a") _ _ _ E).
  split; reflexivity.
Defined.

Lemma extractWithNER_failure_not_cached_witness :
  let env := servingEnv longBody (Throw nlpCrash) in
  nerCache (snd (extractWithNER env (acmePage longBody) (lit "a") (oneItemWorld [])))
  = ∅.
Proof.
  cbv zeta.
  destruct (extractWithNER (servingEnv longBody (Throw nlpCrash)) (acmePage longBody)
              (lit "a") (oneItemWorld [])) as [[r|e] w1] eqn:E;
    [vm_compute in E; discriminate E|].
  destruct (extractWithNER_failure_not_cached _ _ _ _ _ _ E) as (H & _).
  cbn [fst snd]. rewrite H. reflexivity.
Defined.

(** ** getExtractionMethod *)

Lemma getExtractionMethod_decode (d : CompanyData) :
  includes (lit "name") (getExtractionMethod d) = negb (missing (companyName d))
  /\ includes (lit "website") (getExtractionMethod d) = negb (missing (website d))
  /\ includes (lit "industry") (getExtractionMethod d) = negb (missing (industry d))
  /\ includes (lit "headcount") (getExtractionMethod d)
     = negb (missing (headcountRange d))
  /\ includes (lit "location") (getExtractionMethod d) = negb (missing (hqLocation d))
  /\ str_eqb (getExtractionMethod d) (lit "none")
     = missing (companyName d) && missing (website d) && missing (industry d)
       && missing (headcountRange d) && missing (hqLocation d).
Proof.
  unfold getExtractionMethod, pushIf.
  destruct (missing (companyName d)), (missing (website d)),
    (missing (industry d)), (missing (headcountRange d)), (missing (hqLocation d));
    vm_compute; repeat split.
Qed.

(** X6: the label getExtractionMethod computes is "none" exactly when all
    five fields are null or empty; it contains "name", "website",
    "industry", "headcount", "location" exactly for the fields that are
    present, so two records get the same label exactly when the same fields
    are present in both. *)
Theorem getExtractionMethod_tells_fields (d d' : CompanyData) :
  (getExtractionMethod d = lit "none"
   <-> missing (companyName d) = true /\ missing (website d) = true
       /\ missing (industry d) = true /\ missing (headcountRange d) = true
       /\ missing (hqLocation d) = true)
  /\ (includes (lit "name") (getExtractionMethod d) = negb (missing (companyName d))
      /\ includes (lit "website") (getExtractionMethod d) = negb (missing (website d))
      /\ includes (lit "industry") (getExtractionMethod d)
         = negb (missing (industry d))
      /\ includes (lit "headcount") (getExtractionMethod d)
         = negb (missing (headcountRange d))
      /\ includes (lit "location") (getExtractionMethod d)
         = negb (missing (hqLocation d)))
  /\ (getExtractionMethod d = getExtractionMethod d'
      <-> missing (companyName d) = missing (companyName d')
          /\ missing (website d) = missing (website d')
          /\ missing (industry d) = missing (industry d')
          /\ missing (headcountRange d) = missing (headcountRange d')
          /\ missing (hqLocation d) = missing (hqLocation d')).
Proof.
  destruct (getExtractionMethod_decode d) as (A1 & A2 & A3 & A4 & A5 & A6).
  destruct (getExtractionMethod_decode d') as (B1 & B2 & B3 & B4 & B5 & B6).
  split; [|split].
  - rewrite <- str_eqb_eq, A6, !andb_true_iff. tauto.
  - now repeat split.
  - split.
    + intros E. rewrite E in A1, A2, A3, A4, A5.
      rewrite B1 in A1. rewrite B2 in A2. rewrite B3 in A3.
      rewrite B4 in A4. rewrite B5 in A5.
      assert (NI : forall a b : bool, negb a = negb b -> a = b)
        by (intros [] []; simpl; congruence).
      repeat split; apply NI; congruence.
    + intros (E1 & E2 & E3 & E4 & E5).
      unfold getExtractionMethod, pushIf. now rewrite E1, E2, E3, E4, E5.
Qed.

(** ** Stepping by a relation *)

Section Steps.

Variable R : World -> World -> Prop.
Hypothesis Rrefl : forall w, R w w.
Hypothesis Rtrans : forall a b c, R a b -> R b c -> R a c.

Lemma steps_same {A} (m : M A) : (forall w, snd (m w) = w) -> steps R m.
Proof. intros H w o w' E. specialize (H w). rewrite E in H. simpl in H. now subst. Qed.

Lemma steps_ret {A} (a : A) : steps R (ret a).
Proof. now apply steps_same. Qed.

Lemma steps_throw {A} e : steps R (@throw A e).
Proof. now apply steps_same. Qed.

Lemma steps_lift {A} (o : Outcome A) : steps R (lift o).
Proof. now apply steps_same. Qed.

Lemma steps_newDate : steps R newDate.
Proof. now apply steps_same. Qed.

Lemma steps_cacheGet k : steps R (cacheGet k).
Proof. now apply steps_same. Qed.

Lemma steps_bind {A B} (m : M A) (k : A -> M B) :
  steps R m -> (forall a, steps R (k a)) -> steps R (bind m k).
Proof.
  intros Hm Hk w o w' E.
  apply bind_inv in E as [(a & w1 & E1 & E2)|(e & E1 & _)].
  - exact (Rtrans _ _ _ (Hm _ _ _ E1) (Hk _ _ _ _ E2)).
  - exact (Hm _ _ _ E1).
Qed.

Lemma steps_try_catch {A} (m : M A) (h : Thrown -> M A) :
  steps R m -> (forall e, steps R (h e)) -> steps R (try_catch m h).
Proof.
  intros Hm Hh w o w' E. unfold try_catch in E.
  destruct (m w) as [[a|e] w1] eqn:Em.
  - inversion E; subst. exact (Hm _ _ _ Em).
  - exact (Rtrans _ _ _ (Hm _ _ _ Em) (Hh _ _ _ _ E)).
Qed.

Lemma steps_try_finally {A} (m : M A) (f : M unit) :
  steps R m -> steps R f -> steps R (try_finally m f).
Proof.
  intros Hm Hf w o w' E. unfold try_finally in E.
  destruct (m w) as [o1 w1] eqn:Em. destruct (f w1) as [[u|e] w2] eqn:Ef;
    inversion E; subst; exact (Rtrans _ _ _ (Hm _ _ _ Em) (Hf _ _ _ Ef)).
Qed.

End Steps.

Create HintDb steps.
#[export] Hint Resolve steps_ret steps_throw steps_lift steps_newDate
  steps_cacheGet steps_bind steps_try_catch steps_try_finally : steps.
#[export] Hint Resolve list_elem_of_here list_elem_of_further : steps.
#[export] Hint Extern 1 (steps _ (if ?b then _ else _)) => destruct b : steps.
#[export] Hint Extern 1 (steps _ (match ?x with Some _ => _ | None => _ end)) =>
  destruct x : steps.

Section BodySteps.

Variable env : Env.
Variable R : World -> World -> Prop.
Variables itemId url : jsstring.
Hypothesis L : BodyLeaves R itemId url.

Lemma steps_extractWithNER page : steps R (extractWithNER env page itemId).
Proof.
  destruct L. unfold extractWithNER, nerOfText. eauto 20 with steps.
Qed.

Lemma steps_parseCompanyData page : steps R (parseCompanyData env page itemId).
Proof.
  pose proof steps_extractWithNER. destruct L.
  unfold parseCompanyData, parseCompanyDataTry, layer1, layer3.
  eauto 20 with steps.
Qed.

Lemma steps_eachCard elements contacts : steps R (eachCard elements contacts).
Proof.
  destruct L. intros w o w' E. apply eachCard_run in E as [-> _]. auto.
Qed.

Lemma steps_parseContacts page : steps R (parseContacts env page itemId).
Proof.
  pose proof steps_extractWithNER. pose proof steps_eachCard. destruct L.
  unfold parseContacts, parseContactsTry, contactsFromNER.
  eauto 20 with steps.
Qed.

Lemma steps_processItemTry jobId : steps R (processItemTry env itemId url jobId).
Proof.
  pose proof steps_parseCompanyData. pose proof steps_parseContacts. destruct L.
  unfold processItemTry, applyRateLimit, fetchHtml.
  eauto 30 with steps.
Qed.

Lemma steps_processItemCatch error : steps R (processItemCatch itemId error).
Proof. destruct L. unfold processItemCatch. eauto 10 with steps. Qed.

(** The try and catch blocks of processItem step by any relation that admits
    the effects of the body. *)
Lemma steps_body jobId :
  steps R (try_catch (processItemTry env itemId url jobId) (processItemCatch itemId)).
Proof.
  pose proof steps_processItemTry. pose proof steps_processItemCatch. destruct L.
  eauto with steps.
Qed.

End BodySteps.

(** ** What processItem leaves alone *)

Lemma Forall2_diag {A} (R : A -> A -> Prop) (l : list A) :
  (forall x, R x x) -> Forall2 R l l.
Proof. intros H. induction l; constructor; auto. Qed.

Lemma Forall2_compose {A} (R : A -> A -> Prop) (l1 l2 l3 : list A) :
  (forall x y z, R x y -> R y z -> R x z) ->
  Forall2 R l1 l2 -> Forall2 R l2 l3 -> Forall2 R l1 l3.
Proof.
  intros T H. revert l3. induction H as [|x y l k Hxy _ IH]; intros l3 H3.
  - inversion H3. constructor.
  - inversion H3; subst. constructor; eauto.
Qed.

Lemma Forall2_map_r {A} (R : A -> A -> Prop) (f : A -> A) (l : list A) :
  (forall x, R x (f x)) -> Forall2 R l (map f l).
Proof. intros H. induction l; simpl; constructor; auto. Qed.

Lemma Forall2_elem {A} (R : A -> A -> Prop) (l k : list A) x :
  Forall2 R l k -> x ∈ l -> exists y, y ∈ k /\ R x y.
Proof.
  induction 1 as [|a b l k Hab _ IH]; intros Hx.
  - inversion Hx.
  - apply elem_of_cons in Hx as [->|Hx].
    + exists b. split; [apply list_elem_of_here|exact Hab].
    + destruct (IH Hx) as (y & Hy & Hr). exists y.
      split; [now apply list_elem_of_further|exact Hr].
Qed.

Lemma itemKept_refl itemId a : itemKept itemId a a.
Proof. unfold itemKept. auto. Qed.

Lemma itemKept_trans itemId a b c :
  itemKept itemId a b -> itemKept itemId b c -> itemKept itemId a c.
Proof.
  unfold itemKept. intros (A1 & A2 & A3 & A4 & A5) (B1 & B2 & B3 & B4 & B5).
  repeat split; try congruence.
  intros N. rewrite <- (A5 N). apply B5. now rewrite A1.
Qed.

Lemma jobKept_refl jobId a : jobKept jobId a a.
Proof. unfold jobKept. auto. Qed.

Lemma jobKept_trans jobId a b c :
  jobKept jobId a b -> jobKept jobId b c -> jobKept jobId a c.
Proof.
  unfold jobKept. intros (A1 & A2 & A3 & A4 & A5) (B1 & B2 & B3 & B4 & B5).
  repeat split; try congruence.
  intros N. rewrite <- (A5 N). apply B5. now rewrite A1.
Qed.

Lemma dbKept_refl itemId jobId d : dbKept itemId jobId d d.
Proof.
  split; apply Forall2_diag; [apply itemKept_refl | apply jobKept_refl].
Qed.

Lemma dbKept_trans itemId jobId a b c :
  dbKept itemId jobId a b -> dbKept itemId jobId b c -> dbKept itemId jobId a c.
Proof.
  intros [A1 A2] [B1 B2]. split.
  - exact (Forall2_compose _ _ _ _ (itemKept_trans itemId) A1 B1).
  - exact (Forall2_compose _ _ _ _ (jobKept_trans jobId) A2 B2).
Qed.

Lemma setItem_kept now itemId status data it :
  itemKept itemId it (setItem now itemId status data it).
Proof.
  unfold itemKept, setItem.
  destruct (str_eqb (Item.id it) itemId) eqn:E; simpl.
  - apply str_eqb_eq in E. repeat split; try reflexivity. intros N. contradiction.
  - auto.
Qed.

Lemma setJob_kept now jobId c f s j : jobKept jobId j (setJob now jobId c f s j).
Proof.
  unfold jobKept, setJob.
  destruct (str_eqb (Job.id j) jobId) eqn:E; simpl.
  - apply str_eqb_eq in E. repeat split; try reflexivity. intros N. contradiction.
  - auto.
Qed.

Lemma updateItemStatus_kept itemId jobId status data :
  steps (fun w w' => dbKept itemId jobId (db w) (db w'))
    (updateItemStatus itemId status data).
Proof.
  intros w o w' E. unfold updateItemStatus, repoCall in E.
  assert (K : dbKept itemId jobId (db w)
                (mkDB (scrapingJobs (db w))
                   (map (setItem (clock w) itemId status data)
                      (scrapingItems (db w))))).
  { split; simpl.
    - apply Forall2_map_r. intros it. apply setItem_kept.
    - apply Forall2_diag, jobKept_refl. }
  destruct (faults w) as [|[e|] rest]; inversion E; subst; simpl;
    try exact K; apply dbKept_refl.
Qed.

Lemma updateJobProgress_kept itemId jobId :
  steps (fun w w' => dbKept itemId jobId (db w) (db w')) (updateJobProgress jobId).
Proof.
  intros w o w' E. unfold updateJobProgress, repoCall in E.
  assert (K : dbKept itemId jobId (db w) (recalcJob (clock w) jobId (db w))).
  { split; simpl.
    - apply Forall2_diag, itemKept_refl.
    - apply Forall2_map_r. intros j. apply setJob_kept. }
  destruct (faults w) as [|[e|] rest]; inversion E; subst; simpl;
    try exact K; apply dbKept_refl.
Qed.

Lemma dbKept_leaves itemId url jobId :
  BodyLeaves (fun w w' => dbKept itemId jobId (db w) (db w')) itemId url.
Proof.
  constructor.
  - intros w. apply dbKept_refl.
  - intros a b c. apply dbKept_trans.
  - intros ms w o w' E. inversion E; subst. apply dbKept_refl.
  - intros w o w' E. inversion E; subst. apply dbKept_refl.
  - intros w o w' E. inversion E; subst. apply dbKept_refl.
  - intros t w o w' E. inversion E; subst. apply dbKept_refl.
  - intros r w o w' E. inversion E; subst. apply dbKept_refl.
  - intros w o w' E. inversion E; subst. apply dbKept_refl.
  - intros s data _. apply updateItemStatus_kept.
Qed.

(** X7: processItem touches one item and one job.  Whatever happens, the
    two tables keep their rows in place; every row keeps its id (and an item
    its job, url and creation time, a job its owner, totalUrls and creation
    time); the rows of every other item and of every other job are exactly
    as before. *)
Theorem processItem_touches_one_item (env : Env) (itemId url jobId : jsstring)
    (w : World) :
  let w' := snd (processItem env itemId url jobId w) in
  dbKept itemId jobId (db w) (db w')
  /\ length (scrapingItems (db w')) = length (scrapingItems (db w))
  /\ length (scrapingJobs (db w')) = length (scrapingJobs (db w))
  /\ (forall it, it ∈ scrapingItems (db w) -> Item.id it <> itemId ->
        it ∈ scrapingItems (db w'))
  /\ (forall j, j ∈ scrapingJobs (db w) -> Job.id j <> jobId ->
        j ∈ scrapingJobs (db w')).
Proof.
  cbv zeta.
  assert (S : steps (fun w w' => dbKept itemId jobId (db w) (db w'))
                (processItem env itemId url jobId)).
  { unfold processItem. apply steps_try_finally.
    - intros a b c. apply dbKept_trans.
    - apply steps_body, dbKept_leaves.
    - unfold processItemFinally. apply steps_try_catch.
      + intros a b c. apply dbKept_trans.
      + apply updateJobProgress_kept.
      + intros e. apply steps_ret. intros x. apply dbKept_refl. }
  destruct (processItem env itemId url jobId w) as [o w'] eqn:E. simpl.
  pose proof (S _ _ _ E) as [KI KJ].
  split; [now split|]. split; [symmetry; exact (Forall2_length _ _ _ KI)|].
  split; [symmetry; exact (Forall2_length _ _ _ KJ)|]. split.
  - intros it Hin N. destruct (Forall2_elem _ _ _ _ KI Hin) as (y & Hy & K).
    destruct K as (_ & _ & _ & _ & K). now rewrite (K N) in Hy.
  - intros j Hin N. destruct (Forall2_elem _ _ _ _ KJ Hin) as (y & Hy & K).
    destruct K as (_ & _ & _ & _ & K). now rewrite (K N) in Hy.
Qed.

Lemma processItem_touches_one_item_witness :
  let env := rejectingEnv dnsFailure in
  let w := mixedJobWorld in
  let w' := snd (processItem env (lit "c") (lit "http://acme.test/") (lit "job-1") w) in
  sampleItem "d" "job-2" "failed" ∈ scrapingItems (db w')
  /\ sampleJob "job-2" 1 ∈ scrapingJobs (db w').
Proof.
  cbv zeta.
  destruct (processItem_touches_one_item (rejectingEnv dnsFailure) (lit "c")
              (lit "http://acme.test/") (lit "job-1") mixedJobWorld)
    as (_ & _ & _ & HI & HJ).
  split.
  - apply HI.
    + vm_compute. do 3 apply list_elem_of_further. apply list_elem_of_here.
    + intros H. vm_compute in H. discriminate H.
  - apply HJ.
    + vm_compute. apply list_elem_of_further. apply list_elem_of_here.
    + intros H. vm_compute in H. discriminate H.
Defined.

(** ** The calls processItem makes *)

Lemma addsOnly_refl P w : addsOnly P w w.
Proof. exists []. now rewrite app_nil_r. Qed.

Lemma addsOnly_trans P a b c : addsOnly P a b -> addsOnly P b c -> addsOnly P a c.
Proof.
  intros (e1 & E1 & F1) (e2 & E2 & F2). exists (e1 ++ e2).
  split; [now rewrite E2, E1, app_assoc|]. now apply Forall_app.
Qed.

Lemma addsOnly_emit (P : Event -> Prop) ev : P ev -> steps (addsOnly P) (emit ev).
Proof.
  intros H w o w' E. inversion E; subst. exists [ev]. split; [reflexivity|].
  now constructor.
Qed.

Lemma addsOnly_silent (P : Event -> Prop) {A} (m : M A) :
  (forall w, trace (snd (m w)) = trace w) -> steps (addsOnly P) m.
Proof.
  intros H w o w' E. specialize (H w). rewrite E in H. exists [].
  split; [now rewrite app_nil_r|constructor].
Qed.

Lemma bodyEvent_leaves itemId url :
  BodyLeaves (addsOnly (bodyEvent itemId url)) itemId url.
Proof.
  constructor.
  - apply addsOnly_refl.
  - apply addsOnly_trans.
  - intros ms. now apply addsOnly_emit.
  - now apply addsOnly_emit.
  - now apply addsOnly_emit.
  - intros t. now apply addsOnly_emit.
  - intros r. now apply addsOnly_silent.
  - now apply addsOnly_silent.
  - intros s data Hs w o w' E. unfold updateItemStatus, repoCall in E.
    exists [RepoUpdateItemStatus itemId s].
    split; [|constructor; [now split|constructor]].
    destruct (faults w) as [|[e|] rest]; inversion E; subst; reflexivity.
Qed.

(** X8: the calls of one processItem, in order: first calls that concern
    only its own item and url (updateItemStatus for itemId with status
    processing, completed or failed; the delay; HTTP GET of url;
    extractWithNER with key itemId; compromise), none of them
    updateJobProgress, and then exactly one updateJobProgress, for jobId. *)
Theorem processItem_calls (env : Env) (itemId url jobId : jsstring) (w : World) :
  exists evs,
    trace (snd (processItem env itemId url jobId w))
    = trace w ++ evs ++ [RepoUpdateJobProgress jobId]
    /\ Forall (bodyEvent itemId url) evs.
Proof.
  unfold processItem, try_finally.
  destruct (try_catch (processItemTry env itemId url jobId)
              (processItemCatch itemId) w) as [o w1] eqn:Ebody.
  destruct (steps_body env _ itemId url (bodyEvent_leaves itemId url) jobId
              _ _ _ Ebody) as (evs & Hevs & HP).
  destruct (processItemFinally_runs jobId w1) as (w2 & Hfin & Htr).
  rewrite Hfin. simpl. exists evs. split; [|exact HP].
  now rewrite Htr, Hevs, app_assoc.
Qed.

(** ** The repository on rows that are not there, and its invariants *)

Lemma map_id_on {A} (f : A -> A) (l : list A) :
  (forall x, x ∈ l -> f x = x) -> map f l = l.
Proof.
  induction l as [|a l IH]; intros H; simpl; [reflexivity|].
  rewrite (H a) by apply list_elem_of_here. f_equal. apply IH.
  intros x Hx. apply H. now apply list_elem_of_further.
Qed.

(** X9: updateItemStatus for an id that no row has changes nothing and
    still returns normally (unless the database rejects the call): a missing
    item is not an error. *)
Theorem updateItemStatus_unknown_item (itemId status : jsstring) (data : ItemPatch)
    (w : World) :
  (forall it, it ∈ scrapingItems (db w) -> Item.id it <> itemId) ->
  db (snd (updateItemStatus itemId status data w)) = db w
  /\ ((forall e, head (faults w) <> Some (Some e)) ->
      fst (updateItemStatus itemId status data w) = Ok tt).
Proof.
  intros H. unfold updateItemStatus, repoCall.
  assert (E : mkDB (scrapingJobs (db w))
                (map (setItem (clock w) itemId status data) (scrapingItems (db w)))
              = db w).
  { destruct (db w) as [jobs items]. simpl in *. f_equal. apply map_id_on.
    intros it Hin. unfold setItem.
    destruct (str_eqb (Item.id it) itemId) eqn:B; [|reflexivity].
    apply str_eqb_eq in B. now destruct (H it Hin). }
  destruct (faults w) as [|[e|] rest]; simpl; rewrite ?E; split; auto.
  intros N. now destruct (N e).
Qed.

Lemma updateItemStatus_unknown_item_witness :
  db (snd (updateItemStatus (lit "zzz") (lit "failed") noPatch mixedJobWorld))
  = db mixedJobWorld.
Proof.
  apply (updateItemStatus_unknown_item (lit "zzz") (lit "failed") noPatch
           mixedJobWorld).
  intros it Hin. vm_compute in Hin.
  repeat (apply elem_of_cons in Hin as [->|Hin];
          [intros H; vm_compute in H; discriminate H|]).
  inversion Hin.
Defined.

(** X10: after updateJobProgress the counters of the job are bounded by its
    items: failedUrls <= processedUrls <= number of items of the job; the
    status is one of processing, completed, failed (never pending); and when
    it is completed or failed every item of the job is completed or failed. *)
Theorem updateJobProgress_bounds (jobId : jsstring) (w w' : World)
    (j' : Job.ScrapingJobEntity) :
  updateJobProgress jobId w = (Ok tt, w') ->
  j' ∈ scrapingJobs (db w') -> Job.id j' = jobId ->
  let snapshot := itemsOfJob jobId (db w') in
  Job.failedUrls j' <= Job.processedUrls j' <= length snapshot
  /\ Job.status j' ∈ [lit "processing"; lit "completed"; lit "failed"]
  /\ (terminal (Job.status j') ->
      0 < length snapshot
      /\ forall it, it ∈ snapshot -> terminal (Item.status it)).
Proof.
  intros Hrun Hin Hid. apply updateJobProgress_ok in Hrun as [Hdb _].
  cbv zeta. rewrite Hdb in *. rewrite itemsOfJob_recalc.
  unfold recalcJob in Hin. simpl in Hin.
  apply list_elem_of_fmap in Hin as (j & -> & Hj).
  rewrite setJob_id in Hid. apply str_eqb_eq in Hid.
  unfold setJob. rewrite Hid. simpl.
  set (items := itemsOfJob jobId (db w)).
  pose proof (failed_le_processed items) as L1.
  pose proof (filter_length_le isProcessed items) as L2.
  split; [lia|]. split.
  - unfold jobStatusOf.
    destruct ((_ =? _) && _); [destruct (_ =? _)|];
      repeat (first [apply list_elem_of_here | apply list_elem_of_further]).
  - destruct statuses_distinct as (D1 & D2 & D3).
    unfold jobStatusOf.
    destruct (Nat.eqb_spec (length (List.filter isProcessed items)) (length items))
      as [E|E]; simpl.
    + destruct (Nat.ltb_spec 0 (length items)) as [P|P].
      * intros _. split; [exact P|].
        intros it Hit. 
        assert (F : List.filter isProcessed items = items).
        { clear - E. induction items as [|x l IH]; [reflexivity|].
          simpl in *. destruct (isProcessed x); simpl in *.
          - f_equal. apply IH. lia.
          - pose proof (filter_length_le isProcessed l). lia. }
        rewrite <- F in Hit. apply list_elem_of_In, filter_In in Hit as [_ Hp].
        unfold isProcessed in Hp. apply orb_true_iff in Hp.
        unfold terminal. rewrite <- !str_eqb_eq. exact Hp.
      * intros [T|T]; congruence.
    + intros [T|T]; congruence.
Qed.

Lemma updateJobProgress_bounds_witness :
  let w' := snd (updateJobProgress (lit "job-2") mixedJobWorld) in
  Forall (fun j' => Job.id j' = lit "job-2" ->
            Job.failedUrls j' <= Job.processedUrls j' <= 1
            /\ Job.status j' ∈ [lit "processing"; lit "completed"; lit "failed"])
    (scrapingJobs (db w')).
Proof.
  cbv zeta. apply Forall_forall. intros j' Hin Hid.
  destruct (updateJobProgress_bounds (lit "job-2") mixedJobWorld _ j' eq_refl Hin Hid)
    as (B & S & _).
  split; [exact B | exact S].
Defined.

(** ** The paths of processItem *)

Lemma sameStore_refl w : sameStore w w.
Proof. now repeat split. Qed.

Lemma sameStore_trans a b c : sameStore a b -> sameStore b c -> sameStore a c.
Proof. unfold sameStore. intros (A1 & A2 & A3) (B1 & B2 & B3). repeat split; congruence. Qed.

Section Quiet.

Variable env : Env.

Lemma sameStore_same {A} (m : M A) :
  (forall w, sameStore w (snd (m w))) -> steps sameStore m.
Proof. intros H w o w' E. specialize (H w). now rewrite E in H. Qed.

Lemma sameStore_emit ev : steps sameStore (emit ev).
Proof. apply sameStore_same. intros w. now repeat split. Qed.

Lemma sameStore_cacheSet k r : steps sameStore (cacheSet k r).
Proof. apply sameStore_same. intros w. now repeat split. Qed.

Lemma sameStore_cacheDelete k : steps sameStore (cacheDelete k).
Proof. apply sameStore_same. intros w. now repeat split. Qed.

Lemma sameStore_extractWithNER page key : steps sameStore (extractWithNER env page key).
Proof.
  pose proof sameStore_refl. pose proof sameStore_trans.
  pose proof sameStore_emit. pose proof sameStore_cacheSet.
  unfold extractWithNER, nerOfText. eauto 20 with steps.
Qed.

Lemma sameStore_parseCompanyData page itemId :
  steps sameStore (parseCompanyData env page itemId).
Proof.
  pose proof sameStore_refl. pose proof sameStore_trans.
  pose proof sameStore_extractWithNER.
  unfold parseCompanyData, parseCompanyDataTry, layer1, layer3.
  eauto 20 with steps.
Qed.

Lemma sameStore_parseContacts page itemId :
  steps sameStore (parseContacts env page itemId).
Proof.
  pose proof sameStore_refl. pose proof sameStore_trans.
  pose proof sameStore_extractWithNER.
  assert (forall els cs, steps sameStore (eachCard els cs)).
  { intros els cs w o w' E. apply eachCard_run in E as [-> _].
    apply sameStore_refl. }
  unfold parseContacts, parseContactsTry, contactsFromNER.
  eauto 20 with steps.
Qed.

Lemma sameStore_applyRateLimit : steps sameStore (applyRateLimit env).
Proof.
  pose proof sameStore_refl. pose proof sameStore_emit.
  unfold applyRateLimit. eauto with steps.
Qed.

Lemma sameStore_fetchHtml url : steps sameStore (fetchHtml env url).
Proof.
  pose proof sameStore_refl. pose proof sameStore_trans. pose proof sameStore_emit.
  unfold fetchHtml. eauto 10 with steps.
Qed.

Lemma applyRateLimit_returns w o w' : applyRateLimit env w = (o, w') -> o = Ok tt.
Proof.
  unfold applyRateLimit, emit, ret.
  destruct (0 <? REQUEST_DELAY_MS env)%Z; now inversion 1.
Qed.

Lemma fetchHtml_outcome url w o w' :
  fetchHtml env url w = (o, w') ->
  match o with
  | Ok html => axios_get env url = Ok html
  | Throw e => exists error, axios_get env url = Throw error
                             /\ e = ErrorObj (fetchErrorMessage error)
  end.
Proof.
  destruct (axios_get env url) as [html|error] eqn:G.
  - rewrite (fetchHtml_success env url html w G). now inversion 1.
  - rewrite (fetchHtml_failure env url error w G). inversion 1. eauto.
Qed.

Lemma updateItemStatus_accepted itemId status data w w' :
  updateItemStatus itemId status data w = (Ok tt, w') ->
  db w' = mkDB (scrapingJobs (db w))
            (map (setItem (clock w) itemId status data) (scrapingItems (db w)))
  /\ clock w' = clock w /\ nerCache w' = nerCache w.
Proof.
  unfold updateItemStatus, repoCall.
  destruct (faults w) as [|[e|] rest]; intros H; inversion H; subst; simpl; auto.
Qed.

(** The try block of processItem returns normally only along one path. *)
Lemma processItemTry_ok_inv itemId url jobId w w' :
  processItemTry env itemId url jobId w = (Ok tt, w') ->
  exists w2 html page w4 cd w6 cs w7,
    updateItemStatus itemId (lit "processing") (processingPatch (clock w)) w
    = (Ok tt, w2)
    /\ sameStore w2 w4 /\ nerCache w4 = nerCache w
    /\ axios_get env url = Ok html /\ cheerio_load env html = Ok page
    /\ parseCompanyData env page itemId w4 = (Ok cd, w6)
    /\ parseContacts env page itemId w6 = (Ok cs, w7)
    /\ sameStore w2 w7
    /\ updateItemStatus itemId (lit "completed")
         (completedPatch (clock w7) url html cd cs)
         (mkWorld (db w7) (delete itemId (nerCache w7)) (faults w7) (clock w7)
            (trace w7))
       = (Ok tt, w').
Proof.
  intros Hrun. unfold processItemTry in Hrun.
  apply bind_inv in Hrun as [(t & w1 & E1 & Hrun)|(e & _ & N)]; [|discriminate N].
  inversion E1; subst t w1. clear E1.
  apply bind_inv in Hrun as [([] & w2 & E2 & Hrun)|(e & _ & N)]; [|discriminate N].
  apply bind_inv in Hrun as [([] & w3 & E3 & Hrun)|(e & _ & N)]; [|discriminate N].
  apply bind_inv in Hrun as [(html & w4 & E4 & Hrun)|(e & _ & N)]; [|discriminate N].
  apply bind_inv in Hrun as [(page & w5 & E5 & Hrun)|(e & _ & N)]; [|discriminate N].
  apply bind_inv in Hrun as [(cd & w6 & E6 & Hrun)|(e & _ & N)]; [|discriminate N].
  apply bind_inv in Hrun as [(cs & w7 & E7 & Hrun)|(e & _ & N)]; [|discriminate N].
  apply bind_inv in Hrun as [([] & w8 & E8 & Hrun)|(e & _ & N)]; [|discriminate N].
  apply bind_inv in Hrun as [(t1 & w9 & E9 & Hrun)|(e & _ & N)]; [|discriminate N].
  apply bind_inv in Hrun as [(t2 & w10 & E10 & Hrun)|(e & _ & N)]; [|discriminate N].
  inversion E5; subst w5. inversion E8; subst w8.
  inversion E9; subst t1 w9. inversion E10; subst t2 w10. simpl in Hrun.
  pose proof (sameStore_applyRateLimit _ _ _ E3) as S3.
  pose proof (sameStore_fetchHtml _ _ _ _ E4) as S4.
  pose proof (sameStore_parseCompanyData _ _ _ _ _ E6) as S6.
  pose proof (sameStore_parseContacts _ _ _ _ _ E7) as S7.
  pose proof (fetchHtml_outcome _ _ _ _ E4) as G. simpl in G.
  exists w2, html, page, w4, cd, w6, cs, w7.
  split; [exact E2|]. split; [exact (sameStore_trans _ _ _ S3 S4)|].
  split.
  { rewrite (cacheSilent_fetchHtml env _ _ _ _ E4).
    rewrite (cacheSilent_applyRateLimit env _ _ _ E3).
    exact (cacheSilent_updateItemStatus _ _ _ _ _ _ E2). }
  split; [exact G|]. split; [exact H0|]. split; [exact E6|]. split; [exact E7|].
  split; [exact (sameStore_trans _ _ _ (sameStore_trans _ _ _ S3 S4)
                   (sameStore_trans _ _ _ S6 S7))|].
  exact Hrun.
Qed.

End Quiet.

Lemma processItemFinally_items jobId w :
  scrapingItems (db (snd (processItemFinally jobId w))) = scrapingItems (db w).
Proof.
  unfold processItemFinally, try_catch, updateJobProgress, repoCall, ret.
  now destruct (faults w) as [|[e|] rest].
Qed.

Lemma setItem_row now itemId status data it :
  Item.id it = itemId ->
  setItem now itemId status data it
  = Item.mk (Item.id it) (Item.jobId it) (Item.url it) status
      (patched (p_lastError data) (Item.lastError it))
      (patched (p_startedAt data) (Item.startedAt it))
      (patched (p_finishedAt data) (Item.finishedAt it))
      (patched (p_companyName data) (Item.companyName it))
      (patched (p_website data) (Item.website it))
      (patched (p_industry data) (Item.industry it))
      (patched (p_headcountRange data) (Item.headcountRange it))
      (patched (p_hqLocation data) (Item.hqLocation it))
      (patched (p_contacts data) (Item.contacts it))
      (patched (p_rawData data) (Item.rawData it))
      (Item.createdAt it) now.
Proof. intros H. apply str_eqb_eq in H. unfold setItem. now rewrite H. Qed.

Lemma filter_length_impl {A} (P Q : A -> Prop)
    `{!forall x, Decision (P x)} `{!forall x, Decision (Q x)} (l : list A) :
  (forall x, x ∈ l -> P x -> Q x) ->
  length (filter P l) <= length (filter Q l).
Proof.
  induction l as [|a l IH]; intros Himp; [reflexivity|].
  rewrite !filter_cons.
  assert (IH' : length (filter P l) <= length (filter Q l)).
  { apply IH. intros x Hx. apply Himp. now right. }
  destruct (decide (P a)) as [p|p]; destruct (decide (Q a)) as [q|q]; simpl; try lia.
  exfalso. apply q, Himp; [left|exact p].
Qed.

Section Paths.

Variable env : Env.

Lemma processItem_success_path (itemId url jobId : jsstring) (w w1 : World) :
  processItemTry env itemId url jobId w = (Ok tt, w1) ->
  exists html page cd cs wa wb,
    axios_get env url = Ok html /\ cheerio_load env html = Ok page
    /\ nerCache wa = nerCache w
    /\ parseCompanyData env page itemId wa = (Ok cd, wb)
    /\ fst (parseContacts env page itemId wb) = Ok cs
    /\ fst (processItem env itemId url jobId w) = Ok tt
    /\ forall it', it' ∈ scrapingItems (db (snd (processItem env itemId url jobId w))) ->
         Item.id it' = itemId ->
         Item.status it' = lit "completed" /\ Item.lastError it' = None
         /\ Item.companyName it' = companyName cd /\ Item.website it' = website cd
         /\ Item.industry it' = industry cd
         /\ Item.headcountRange it' = headcountRange cd
         /\ Item.hqLocation it' = hqLocation cd /\ Item.contacts it' = cs
         /\ Item.rawData it' = Some (mkRawData url (length html) (clock w))
         /\ Item.startedAt it' = Some (clock w)
         /\ Item.finishedAt it' = Some (clock w).
Proof.
  intros Hrun.
  destruct (processItemTry_ok_inv env _ _ _ _ _ Hrun)
    as (w2 & html & page & w4 & cd & w6 & cs & w7
        & E2 & S4 & N4 & G & Ld & E6 & E7 & S7 & E8).
  apply updateItemStatus_accepted in E2 as (D2 & C2 & _).
  apply updateItemStatus_accepted in E8 as (D8 & _ & _). simpl in D8.
  destruct S7 as (D7 & _ & C7).
  exists html, page, cd, cs, w4, w6.
  split; [exact G|]. split; [exact Ld|]. split; [exact N4|].
  split; [exact E6|]. split; [now rewrite E7|].
  assert (P : processItem env itemId url jobId w
              = (fst (processItem env itemId url jobId w),
                 snd (processItemFinally jobId w1))
              /\ fst (processItem env itemId url jobId w) = Ok tt).
  { unfold processItem, try_finally, try_catch. rewrite Hrun.
    destruct (processItemFinally_runs jobId w1) as (w9 & -> & _). now split. }
  destruct P as [P1 P2]. split; [exact P2|].
  rewrite P1. simpl. rewrite processItemFinally_items, D8, D7, D2, C7, C2. simpl.
  intros it' Hin Hid.
  apply list_elem_of_fmap in Hin as (it1 & -> & Hin).
  apply list_elem_of_fmap in Hin as (it & -> & Hin).
  rewrite !setItem_id in Hid.
  rewrite (setItem_row _ _ _ _ (setItem _ _ _ _ it)) by (now rewrite setItem_id).
  rewrite (setItem_row _ _ _ _ it Hid). simpl. now repeat split.
Qed.

(** X11: when the try block of processItem returns normally, the fetch
    and cheerio.load succeeded, processItem returns normally, and every row
    of the item is written as completed: lastError null, the five company
    fields and the contacts exactly as parseCompanyData and then
    parseContacts returned them for the loaded page (run on the cache the
    task started with), rawData recording the url and the length of the
    html, startedAt and finishedAt set. *)
Theorem processItem_success (itemId url jobId : jsstring) (w w1 : World) :
  processItemTry env itemId url jobId w = (Ok tt, w1) ->
  exists html page cd cs wa wb,
    axios_get env url = Ok html /\ cheerio_load env html = Ok page
    /\ nerCache wa = nerCache w
    /\ parseCompanyData env page itemId wa = (Ok cd, wb)
    /\ fst (parseContacts env page itemId wb) = Ok cs
    /\ fst (processItem env itemId url jobId w) = Ok tt
    /\ forall it', it' ∈ scrapingItems (db (snd (processItem env itemId url jobId w))) ->
         Item.id it' = itemId ->
         Item.status it' = lit "completed" /\ Item.lastError it' = None
         /\ Item.companyName it' = companyName cd /\ Item.website it' = website cd
         /\ Item.industry it' = industry cd
         /\ Item.headcountRange it' = headcountRange cd
         /\ Item.hqLocation it' = hqLocation cd /\ Item.contacts it' = cs
         /\ Item.rawData it' = Some (mkRawData url (length html) (clock w))
         /\ Item.startedAt it' = Some (clock w)
         /\ Item.finishedAt it' = Some (clock w).
Proof. exact (processItem_success_path itemId url jobId w w1). Qed.

Lemma processItem_failure_path (itemId url jobId : jsstring) (w w1 : World)
    (error : Thrown) :
  processItemTry env itemId url jobId w = (Throw error, w1) ->
  (forall e, head (faults w1) <> Some (Some e)) ->
  fst (processItem env itemId url jobId w) = Ok tt
  /\ forall it', it' ∈ scrapingItems (db (snd (processItem env itemId url jobId w))) ->
       Item.id it' = itemId ->
       Item.status it' = lit "failed"
       /\ Item.lastError it' = Some (messageOf error)
       /\ Item.finishedAt it' = Some (clock w1).
Proof.
  intros Hrun Hf.
  assert (C : exists w2, processItemCatch itemId error w1 = (Ok tt, w2)
                /\ scrapingItems (db w2)
                   = map (setItem (clock w1) itemId (lit "failed")
                            (failedPatch (clock w1) (messageOf error)))
                       (scrapingItems (db w1))).
  { unfold processItemCatch, bind, newDate, updateItemStatus, repoCall.
    destruct (faults w1) as [|[e|] rest]; simpl.
    - eexists. split; reflexivity.
    - now destruct (Hf e).
    - eexists. split; reflexivity. }
  destruct C as (w2 & Hc & Hitems).
  assert (P : processItem env itemId url jobId w
              = (Ok tt, snd (processItemFinally jobId w2))).
  { unfold processItem, try_finally, try_catch. rewrite Hrun, Hc.
    now destruct (processItemFinally_runs jobId w2) as (w9 & -> & _). }
  rewrite P. simpl. split; [reflexivity|].
  rewrite processItemFinally_items, Hitems.
  intros it' Hin Hid. apply list_elem_of_fmap in Hin as (it & -> & Hin).
  rewrite setItem_id in Hid. rewrite (setItem_row _ _ _ _ it Hid). simpl.
  now repeat split.
Qed.

(** X12: when the try block of processItem throws, for whatever reason
    (the database rejecting an item update, the fetch, cheerio.load), and
    the database accepts the update of the catch block, processItem returns
    normally and every row of the item has status failed, the message of
    the error as lastError, and finishedAt set. *)
Theorem processItem_failure (itemId url jobId : jsstring) (w w1 : World)
    (error : Thrown) :
  processItemTry env itemId url jobId w = (Throw error, w1) ->
  (forall e, head (faults w1) <> Some (Some e)) ->
  fst (processItem env itemId url jobId w) = Ok tt
  /\ forall it', it' ∈ scrapingItems (db (snd (processItem env itemId url jobId w))) ->
       Item.id it' = itemId ->
       Item.status it' = lit "failed"
       /\ Item.lastError it' = Some (messageOf error)
       /\ Item.finishedAt it' = Some (clock w1).
Proof. exact (processItem_failure_path itemId url jobId w w1 error). Qed.

Lemma processItem_terminal_rows (itemId url jobId : jsstring) (w : World) :
  fst (processItem env itemId url jobId w) = Ok tt ->
  forall it', it' ∈ scrapingItems (db (snd (processItem env itemId url jobId w))) ->
    Item.id it' = itemId ->
    terminal (Item.status it') /\ is_Some (Item.finishedAt it').
Proof.
  intros Hok it' Hin Hid.
  destruct (processItemTry env itemId url jobId w) as [[[]|error] w1] eqn:Hrun.
  - destruct (processItem_success_path _ _ _ _ _ Hrun)
      as (html & page & cd & cs & wa & wb & _ & _ & _ & _ & _ & _ & H).
    destruct (H it' Hin Hid) as (S & _ & _ & _ & _ & _ & _ & _ & _ & _ & F).
    split; [now left|]. rewrite F. eauto.
  - assert (Hf : forall e, head (faults w1) <> Some (Some e)).
    { intros e He. rewrite (processItem_outcome env), Hrun in Hok.
      rewrite processItemCatch_outcome in Hok.
      destruct (faults w1) as [|[e'|] rest]; simpl in He; try discriminate.
    }
    destruct (processItem_failure_path _ _ _ _ _ _ Hrun Hf) as (_ & H).
    destruct (H it' Hin Hid) as (S & _ & F).
    split; [now right|]. rewrite F. eauto.
Qed.

(** X13: when processItem returns normally, every row of its item has a
    terminal status, completed or failed, with finishedAt set: a task that
    returns never leaves its item pending or processing. *)
Theorem processItem_returns_terminal (itemId url jobId : jsstring) (w : World) :
  fst (processItem env itemId url jobId w) = Ok tt ->
  forall it', it' ∈ scrapingItems (db (snd (processItem env itemId url jobId w))) ->
    Item.id it' = itemId ->
    terminal (Item.status it') /\ is_Some (Item.finishedAt it').
Proof. exact (processItem_terminal_rows itemId url jobId w). Qed.

Lemma processItem_ends_with_recalculation (itemId url jobId : jsstring) (w : World) :
  snd (processItem env itemId url jobId w)
  = snd (updateJobProgress jobId (afterBody env itemId url jobId w))
  /\ scrapingItems (db (snd (processItem env itemId url jobId w)))
     = scrapingItems (db (afterBody env itemId url jobId w)).
Proof.
  unfold processItem, try_finally, afterBody.
  destruct (try_catch (processItemTry env itemId url jobId)
              (processItemCatch itemId) w) as [o w2].
  simpl. pose proof (processItemFinally_items jobId w2) as Hi.
  unfold processItemFinally, try_catch, ret in *.
  destruct (updateJobProgress jobId w2) as [[[]|e] w3]; simpl in *; auto.
Qed.

(** X14: the recalculation at the end of processItem reads the items after
    the task has written its own: processItem ends in the state that
    updateJobProgress(jobId) leaves when it starts from the state the try
    and catch blocks left, and when processItem returns normally every row
    of the item is completed or failed in that state already.  So whenever
    the database accepts that recalculation, the counters it writes are
    those of the items it read, and processedUrls counts the rows of the
    task's own item among them. *)
Theorem processItem_counts_own_item (itemId url jobId : jsstring) (w : World) :
  let w2 := afterBody env itemId url jobId w in
  snd (processItem env itemId url jobId w) = snd (updateJobProgress jobId w2)
  /\ (fst (processItem env itemId url jobId w) = Ok tt ->
      (forall it, it ∈ scrapingItems (db w2) -> Item.id it = itemId ->
         terminal (Item.status it))
      /\ forall w' j', updateJobProgress jobId w2 = (Ok tt, w') ->
           j' ∈ scrapingJobs (db w') -> Job.id j' = jobId ->
           countsRule (itemsOfJob jobId (db w2)) j'
           /\ length (filter (fun it => Item.id it = itemId)
                        (itemsOfJob jobId (db w2)))
              <= Job.processedUrls j').
Proof.
  cbv zeta.
  destruct (processItem_ends_with_recalculation itemId url jobId w) as [Hend Hitems].
  split; [exact Hend|]. intros Hok.
  assert (Ht : forall it, it ∈ scrapingItems (db (afterBody env itemId url jobId w)) ->
                 Item.id it = itemId -> terminal (Item.status it)).
  { intros it Hin Hid. rewrite <- Hitems in Hin.
    exact (proj1 (processItem_terminal_rows itemId url jobId w Hok it Hin Hid)). }
  split; [exact Ht|]. intros w' j' Hrun Hin Hid.
  apply updateJobProgress_ok in Hrun as [Hdb _]. rewrite Hdb in Hin.
  destruct (recalcJob_row _ _ _ _ Hin Hid) as (C & _ & _).
  split; [exact C|]. destruct C as [-> _].
  apply filter_length_impl. intros it Hit Hi.
  apply itemsOfJob_spec in Hit as [Hit _].
  destruct (Ht it Hit Hi) as [S|S]; [now left|now right].
Qed.

End Paths.

(** ** A database that rejects nothing *)

Lemma noFaults_leaves itemId url :
  BodyLeaves (fun w w' => faults w = [] -> faults w' = []) itemId url.
Proof.
  constructor; try (intros; intros w o w' E; inversion E; subst; simpl; tauto).
  - tauto.
  - intros a b c H1 H2 H. auto.
  - intros s data _ w o w' E H. unfold updateItemStatus, repoCall in E.
    rewrite H in E. now inversion E.
Qed.

Section Reliable.

Variable env : Env.

Lemma processItem_rejected_run (itemId url jobId : jsstring) (w : World)
    (e : Thrown) (rest : list (option Thrown)) :
  faults w = Some e :: rest ->
  exists o w',
    processItem env itemId url jobId w = (o, w')
    /\ trace w' = trace w ++ [RepoUpdateItemStatus itemId (lit "processing");
                              RepoUpdateItemStatus itemId (lit "failed");
                              RepoUpdateJobProgress jobId]
    /\ nerCache w' = nerCache w
    /\ ((forall e', head rest <> Some (Some e')) ->
        o = Ok tt
        /\ scrapingItems (db w')
           = map (setItem (clock w) itemId (lit "failed")
                    (failedPatch (clock w) (messageOf e)))
               (scrapingItems (db w)))
    /\ (forall e', head rest = Some (Some e') ->
        o = Throw e' /\ scrapingItems (db w') = scrapingItems (db w)).
Proof.
  intros Hf.
  unfold processItem, try_finally, try_catch, processItemTry.
  unfold bind at 1. unfold newDate at 1.
  unfold bind at 1. unfold updateItemStatus at 1, repoCall at 1.
  rewrite Hf.
  unfold processItemCatch, bind, newDate, updateItemStatus, repoCall. simpl.
  unfold processItemFinally, try_catch, updateJobProgress, repoCall.
  destruct rest as [|[e2|] [|[e3|] rest']]; simpl; eexists _, _;
    (split; [reflexivity|]); simpl;
    (split; [now rewrite <- !app_assoc|]); (split; [reflexivity|]);
    (split; [intros H; try (now destruct (H e2)); now split
            |intros e' H; try discriminate H; inversion H; subst; now split]).
Qed.

(** X15: when the database rejects the first call of processItem (marking
    the item processing), nothing is fetched and nothing is extracted: the
    only calls made are that one, the update to failed, and
    updateJobProgress.  If the update to failed is accepted the item is
    failed with the message of the rejection as lastError; if it is rejected
    too, processItem throws that second rejection and the item is left as it
    was. *)
Theorem processItem_rejected_at_start (itemId url jobId : jsstring) (w : World)
    (e : Thrown) (rest : list (option Thrown)) :
  faults w = Some e :: rest ->
  let o := fst (processItem env itemId url jobId w) in
  let w' := snd (processItem env itemId url jobId w) in
  trace w' = trace w ++ [RepoUpdateItemStatus itemId (lit "processing");
                         RepoUpdateItemStatus itemId (lit "failed");
                         RepoUpdateJobProgress jobId]
  /\ nerCache w' = nerCache w
  /\ ((forall e', head rest <> Some (Some e')) ->
      o = Ok tt
      /\ scrapingItems (db w')
         = map (setItem (clock w) itemId (lit "failed")
                  (failedPatch (clock w) (messageOf e)))
             (scrapingItems (db w)))
  /\ (forall e', head rest = Some (Some e') ->
      o = Throw e' /\ scrapingItems (db w') = scrapingItems (db w)).
Proof.
  intros Hf. cbv zeta.
  destruct (processItem_rejected_run itemId url jobId w e rest Hf)
    as (o & w' & -> & H). exact H.
Qed.

End Reliable.

Lemma processItem_rejected_at_start_witness :
  let env := servingEnv [] (Ok (mkNlp [] [] [])) in
  trace (snd (processItem env (lit "a") (lit "http://acme.test/") (lit "job-1")
                (oneItemWorld [Some dbDown])))
  = [RepoUpdateItemStatus (lit "a") (lit "processing");
     RepoUpdateItemStatus (lit "a") (lit "failed");
     RepoUpdateJobProgress (lit "job-1")].
Proof.
  cbv zeta.
  exact (proj1 (processItem_rejected_at_start (servingEnv [] (Ok (mkNlp [] [] [])))
                  (lit "a") (lit "http://acme.test/") (lit "job-1")
                  (oneItemWorld [Some dbDown]) dbDown [] eq_refl)).
Defined.

Lemma processItem_success_witness :
  let env := servingEnv longBody (Ok rocketDoc) in
  let url := lit "http://acme.test/" in
  let w' := snd (processItem env (lit "a") url (lit "job-1") (oneItemWorld [])) in
  Forall (fun it' => Item.id it' = lit "a" ->
            Item.status it' = lit "completed" /\ Item.lastError it' = None)
    (scrapingItems (db w')).
Proof.
  cbv zeta. apply Forall_forall. intros it' Hin Hid.
  destruct (processItemTry (servingEnv longBody (Ok rocketDoc)) (lit "a")
              (lit "http://acme.test/") (lit "job-1") (oneItemWorld []))
    as [[[]|err] w1] eqn:Hrun; [|vm_compute in Hrun; discriminate Hrun].
  destruct (processItem_success _ _ _ _ _ _ Hrun)
    as (html & page & cd & cs & wa & wb & _ & _ & _ & _ & _ & _ & H).
  destruct (H it' Hin Hid) as (S & E & _). now split.
Defined.

Lemma processItem_failure_witness :
  let env := rejectingEnv dnsFailure in
  let url := lit "http://acme.test/" in
  let w' := snd (processItem env (lit "a") url (lit "job-1") (oneItemWorld [])) in
  Forall (fun it' => Item.id it' = lit "a" ->
            Item.status it' = lit "failed"
            /\ Item.lastError it' = Some (lit "DNS resolution failed"))
    (scrapingItems (db w')).
Proof.
  cbv zeta. apply Forall_forall. intros it' Hin Hid.
  destruct (processItemTry (rejectingEnv dnsFailure) (lit "a")
              (lit "http://acme.test/") (lit "job-1") (oneItemWorld []))
    as [[[]|err] w1] eqn:Hrun; [vm_compute in Hrun; discriminate Hrun|].
  assert (Hf : forall e, head (faults w1) <> Some (Some e)).
  { vm_compute in Hrun. inversion Hrun; subst. intros e H. discriminate H. }
  destruct (processItem_failure _ _ _ _ _ _ _ Hrun Hf) as (_ & H).
  destruct (H it' Hin Hid) as (S & E & _). split; [exact S|].
  rewrite E. vm_compute in Hrun. inversion Hrun; subst. reflexivity.
Defined.

Lemma processItem_returns_terminal_witness :
  let env := rejectingEnv dnsFailure in
  let url := lit "http://acme.test/" in
  let w' := snd (processItem env (lit "a") url (lit "job-1") (oneItemWorld [])) in
  Forall (fun it' => Item.id it' = lit "a" -> terminal (Item.status it'))
    (scrapingItems (db w')).
Proof.
  cbv zeta. apply Forall_forall. intros it' Hin Hid.
  exact (proj1 (processItem_returns_terminal (rejectingEnv dnsFailure) (lit "a")
                  (lit "http://acme.test/") (lit "job-1") (oneItemWorld [])
                  eq_refl it' Hin Hid)).
Defined.

(** ** The cache entry of a task *)

Lemma otherKeys_leaves itemId url :
  BodyLeaves (fun w w' => forall k, k <> itemId -> nerCache w' !! k = nerCache w !! k)
    itemId url.
Proof.
  constructor; try (intros; intros w o w' E; inversion E; subst; simpl; tauto).
  - tauto.
  - intros a b c H1 H2 k N. now rewrite (H2 k N), (H1 k N).
  - intros r w o w' E k N. inversion E; subst. simpl.
    now rewrite lookup_insert_ne by congruence.
  - intros w o w' E k N. inversion E; subst. simpl.
    now rewrite lookup_delete_ne by congruence.
  - intros s data _ w o w' E k N.
    now rewrite (cacheSilent_updateItemStatus _ _ _ _ _ _ E).
Qed.

Section CacheEntry.

Variable env : Env.

Lemma processItemTry_entry itemId url jobId w o w' :
  processItemTry env itemId url jobId w = (o, w') ->
  nerCache w' = nerCache w \/ nerCache w' !! itemId = None.
Proof.
  intros Hrun. unfold processItemTry in Hrun.
  apply bind_inv in Hrun as [(t & w1 & E1 & Hrun)|(e & E1 & _)];
    [|left; exact (cacheSilent_newDate _ _ _ E1)].
  inversion E1; subst t w1. clear E1.
  apply bind_inv in Hrun as [(u & w2 & E2 & Hrun)|(e & E2 & _)];
    [|left; exact (cacheSilent_updateItemStatus _ _ _ _ _ _ E2)].
  apply bind_inv in Hrun as [(u3 & w3 & E3 & Hrun)|(e & E3 & _)].
  2:{ left. rewrite (cacheSilent_applyRateLimit env _ _ _ E3).
      exact (cacheSilent_updateItemStatus _ _ _ _ _ _ E2). }
  apply bind_inv in Hrun as [(html & w4 & E4 & Hrun)|(e & E4 & _)].
  2:{ left. rewrite (cacheSilent_fetchHtml env _ _ _ _ E4).
      rewrite (cacheSilent_applyRateLimit env _ _ _ E3).
      exact (cacheSilent_updateItemStatus _ _ _ _ _ _ E2). }
  apply bind_inv in Hrun as [(page & w5 & E5 & Hrun)|(e & E5 & _)].
  2:{ left. rewrite (cacheSilent_lift _ _ _ _ E5).
      rewrite (cacheSilent_fetchHtml env _ _ _ _ E4).
      rewrite (cacheSilent_applyRateLimit env _ _ _ E3).
      exact (cacheSilent_updateItemStatus _ _ _ _ _ _ E2). }
  apply bind_inv in Hrun as [(cd & w6 & E6 & Hrun)|(e & E6 & _)].
  2:{ destruct (try_catch_default (parseCompanyDataTry env page itemId)
                  nullCompanyData w5) as (? & ? & T & _).
      unfold parseCompanyData in E6. rewrite T in E6. discriminate E6. }
  apply bind_inv in Hrun as [(cs & w7 & E7 & Hrun)|(e & E7 & _)].
  2:{ destruct (try_catch_default (parseContactsTry env page itemId) None w6)
        as (? & ? & T & _).
      unfold parseContacts in E7. rewrite T in E7. discriminate E7. }
  apply bind_inv in Hrun as [(u8 & w8 & E8 & Hrun)|(e & E8 & _)];
    [|discriminate E8].
  right.
  assert (C8 : nerCache w8 !! itemId = None).
  { inversion E8; subst. simpl. apply lookup_delete_eq. }
  assert (S : cacheSilent
                (scrapedAt <- newDate ;; finishedAt <- newDate ;;
                 updateItemStatus itemId (lit "completed")
                   (mkPatch None (Some (Some finishedAt)) (Some None)
                      (Some (companyName cd)) (Some (website cd))
                      (Some (industry cd)) (Some (headcountRange cd))
                      (Some (hqLocation cd)) (Some cs)
                      (Some (Some (mkRawData url (length html) scrapedAt)))))).
  { pose proof cacheSilent_updateItemStatus. auto with cache. }
  now rewrite (S _ _ _ Hrun).
Qed.

(** X16: processItem uses the cache entry of its own item only, and does
    not leave it behind: afterwards the cache is either exactly as before or
    as before with the entry of itemId deleted.  So an item without an entry
    before the task has none after it, and the entries of other items are
    never written or removed. *)
Theorem processItem_cache_entry (itemId url jobId : jsstring) (w : World) :
  let c' := nerCache (snd (processItem env itemId url jobId w)) in
  (c' = nerCache w \/ c' = delete itemId (nerCache w))
  /\ (forall k, k <> itemId -> c' !! k = nerCache w !! k)
  /\ (nerCache w !! itemId = None -> c' = nerCache w).
Proof.
  cbv zeta.
  destruct (processItem env itemId url jobId w) as [o w'] eqn:Hrun. simpl.
  assert (Other : forall k, k <> itemId -> nerCache w' !! k = nerCache w !! k).
  { assert (S : steps (fun w w' => forall k, k <> itemId ->
                         nerCache w' !! k = nerCache w !! k)
                  (processItem env itemId url jobId)).
    { unfold processItem. apply steps_try_finally.
      - intros a b c H1 H2 k N. now rewrite (H2 k N), (H1 k N).
      - apply steps_body, otherKeys_leaves.
      - intros a u b E k _. now rewrite (cacheSilent_processItemFinally _ _ _ _ E). }
    exact (S _ _ _ Hrun). }
  assert (Own : nerCache w' = nerCache w \/ nerCache w' !! itemId = None).
  { unfold processItem, try_finally in Hrun.
    destruct (try_catch (processItemTry env itemId url jobId)
                (processItemCatch itemId) w) as [o1 w1] eqn:Ebody.
    assert (C1 : nerCache w1 = nerCache w \/ nerCache w1 !! itemId = None).
    { unfold try_catch in Ebody.
      destruct (processItemTry env itemId url jobId w) as [[u|e] w0] eqn:Etry.
      - inversion Ebody; subst. exact (processItemTry_entry _ _ _ _ _ _ Etry).
      - rewrite (cacheSilent_processItemCatch _ _ _ _ _ Ebody).
        exact (processItemTry_entry _ _ _ _ _ _ Etry). }
    destruct (processItemFinally jobId w1) as [[u|e] w2] eqn:Efin;
      inversion Hrun; subst;
      now rewrite (cacheSilent_processItemFinally _ _ _ _ Efin). }
  assert (Del : nerCache w' !! itemId = None -> nerCache w' = delete itemId (nerCache w)).
  { intros N. apply map_eq. intros k. destruct (decide (k = itemId)) as [->|D].
    - now rewrite lookup_delete_eq.
    - rewrite lookup_delete_ne by congruence. now apply Other. }
  split; [|split].
  - destruct Own as [E|N]; [now left|right; now apply Del].
  - exact Other.
  - intros N. destruct Own as [E|N']; [exact E|].
    rewrite (Del N'). now apply delete_id.
Qed.

End CacheEntry.

Lemma processItem_cache_entry_witness :
  let env := servingEnv longBody (Ok rocketDoc) in
  let w' := snd (processItem env (lit "a") (lit "http://acme.test/") (lit "job-1")
                   staleCacheWorld) in
  nerCache w' !! lit "b" = Some (mkNer (Some (lit "Old Corp")) None [] [])
  /\ nerCache w' = nerCache staleCacheWorld.
Proof.
  cbv zeta.
  destruct (processItem_cache_entry (servingEnv longBody (Ok rocketDoc)) (lit "a")
              (lit "http://acme.test/") (lit "job-1") staleCacheWorld)
    as (_ & Other & Same).
  split.
  - rewrite Other; [reflexivity|]. intros H. vm_compute in H. discriminate H.
  - apply Same. reflexivity.
Defined.

(** ** What the e-mail pattern matches *)

Lemma span_app p s : fst (span p s) ++ snd (span p s) = s.
Proof.
  induction s as [|c r IH]; simpl; [reflexivity|].
  destruct (p c); [|reflexivity]. destruct (span p r) as [run rest].
  simpl in *. now rewrite IH.
Qed.

Lemma tldLength_bounds s t : tldLength s = Some t -> 2 <= t <= length s.
Proof.
  unfold tldLength. pose proof (span_app isAlpha s) as A.
  destruct (span isAlpha s) as [letters rest]. simpl in A.
  destruct (2 <=? length letters) eqn:L; simpl; [|discriminate].
  destruct (negb (wordAt (head rest))); [|discriminate].
  intros H. inversion H; subst. apply Nat.leb_le in L.
  rewrite length_app. lia.
Qed.

Lemma domainRest_bounds k s m :
  domainRest k s = Some m -> 3 <= m <= length s /\ (k = 0 -> 4 <= m).
Proof.
  revert k m. induction s as [|c r IH]; intros k m; simpl; [discriminate|].
  destruct (isDomainChar c); [|discriminate].
  destruct (domainRest (S k) r) as [n|] eqn:D.
  - intros H. inversion H; subst. destruct (IH _ _ D) as ([L1 L2] & _). lia.
  - destruct (c =? 46)%N; destruct k as [|k']; simpl;
      try (intros H; discriminate H).
    destruct (tldLength r) as [t|] eqn:T; [|intros H; discriminate H].
    intros H. inversion H; subst. apply tldLength_bounds in T. lia.
Qed.

Lemma matchAt_shape prev s n :
  matchAt prev s = Some n ->
  6 <= n <= length s /\ 64%N ∈ take n s.
Proof.
  unfold matchAt. destruct (xorb _ _); [|discriminate].
  pose proof (span_app isLocalChar s) as A.
  destruct (span isLocalChar s) as [localPart rest]. simpl in A.
  destruct rest as [|c afterAt]; [discriminate|].
  destruct (N.eq_dec c 64%N) as [->|N].
  - destruct (1 <=? length localPart) eqn:L; [|discriminate].
    destruct (domainRest 0 afterAt) as [m|] eqn:D; [|discriminate].
    intros H. inversion H; subst. apply Nat.leb_le in L.
    destruct (domainRest_bounds _ _ _ D) as ([_ M2] & M4). specialize (M4 eq_refl).
    rewrite length_app. simpl. split; [lia|].
    rewrite take_app_ge by lia.
    apply elem_of_app. right.
    replace (length localPart + 1 + m - length localPart) with (S m) by lia.
    simpl. apply list_elem_of_here.
  - intros H. exfalso.
    repeat match type of H with
           | context [match ?x with _ => _ end] => destruct x; try discriminate H
           end; congruence.
Qed.

Lemma scanEmails_pieces prev skip s e :
  e ∈ scanEmails prev skip s ->
  6 <= length e /\ 64%N ∈ e /\ pieceOf e s.
Proof.
  revert prev skip. induction s as [|c r IH]; intros prev skip; simpl.
  - intros H. inversion H.
  - assert (Later : forall p k, e ∈ scanEmails p k r ->
                      6 <= length e /\ 64%N ∈ e /\ pieceOf e (c :: r)).
    { intros p k H. destruct (IH _ _ H) as (L & A & b & a & ->).
      split; [exact L|]. split; [exact A|]. now exists (c :: b), a. }
    destruct skip as [|k]; [|apply Later].
    destruct (matchAt prev (c :: r)) as [n|] eqn:M; [|apply Later].
    intros H. apply elem_of_cons in H as [->|H]; [|now apply Later in H].
    destruct (matchAt_shape _ _ _ M) as ([L1 L2] & A).
    split; [rewrite length_take; lia|]. split; [exact A|].
    exists [], (drop n (c :: r)). simpl. now rewrite take_drop.
Qed.

(** X17: every address the e-mail pattern finds is a contiguous piece of
    the text it was given, has at least six code units and contains "@". *)
Theorem matchEmails_pieces (bodyText e : jsstring) :
  e ∈ matchEmails bodyText ->
  6 <= length e /\ 64%N ∈ e /\ pieceOf e bodyText.
Proof. apply scanEmails_pieces. Qed.

Lemma matchEmails_pieces_witness :
  6 <= length (lit "jane@acme.com")
  /\ pieceOf (lit "jane@acme.com") (lit "Mail jane@acme.com, please").
Proof.
  assert (H : lit "jane@acme.com" ∈ matchEmails (lit "Mail jane@acme.com, please")).
  { vm_compute. apply list_elem_of_here. }
  destruct (matchEmails_pieces _ _ H) as (L & _ & P). split; [exact L | exact P].
Defined.

(** * The services *)

Lemma svcBind_inv {A B} (m : Svc A) (k : A -> Svc B) s r s' :
  svcBind m k s = (r, s') ->
  (exists a s1, m s = (Done a, s1) /\ k a s1 = (r, s'))
  \/ (exists e, m s = (Raise e, s') /\ r = Raise e).
Proof.
  unfold svcBind. destruct (m s) as [[a|e] s1]; intros H.
  - left. eauto.
  - right. inversion H; subst. eauto.
Qed.

Lemma catching_inv {A} (body : Svc A) (handler : Raised -> Svc A) s r s' :
  catching body handler s = (r, s') ->
  (exists a, body s = (Done a, s') /\ r = Done a)
  \/ (exists e s1, body s = (Raise e, s1) /\ handler e s1 = (r, s')).
Proof.
  unfold catching. destruct (body s) as [[a|e] s1]; intros H.
  - left. inversion H; subst. eauto.
  - right. eauto.
Qed.

Lemma List_filter_sublist {A} (p : A -> bool) (l : list A) :
  List.filter p l `sublist_of` l.
Proof.
  induction l as [|x l IH]; simpl; [constructor|].
  destruct (p x); now constructor.
Qed.

Lemma List_filter_elem {A} (p : A -> bool) (l : list A) (x : A) :
  x ∈ List.filter p l <-> x ∈ l /\ p x = true.
Proof. rewrite !list_elem_of_In. apply filter_In. Qed.

Lemma length_zero_nil {A} (l : list A) : (length l =? 0) = true <-> l = [].
Proof. destruct l; simpl; split; intros H; try reflexivity; discriminate H. Qed.

Lemma length_pos_cons {A} (l : list A) : (0 <? length l) = true <-> l <> [].
Proof.
  destruct l; simpl; split; intros H; try discriminate H; try congruence.
  reflexivity.
Qed.

(** ** parseUrlsFromFile *)

Lemma parseUrlsFromFile_run env content s :
  Service.parseUrlsFromFile env (mkFile (Some content)) s
  = (let urls := List.filter (fun line => 0 <? length line)
                   (map trim (splitLines content)) in
     let validUrls := List.filter (isURL env) urls in
     if (length validUrls =? 0) && (0 <? length urls)
     then Raise (BadRequestException (lit
       "No valid URLs found in file. URLs must be valid http:// or https:// URLs"))
     else Done validUrls, s).
Proof.
  unfold Service.parseUrlsFromFile, catching, svcBind, svcRet, svcThrow. simpl.
  destruct (_ && _); reflexivity.
Qed.

Lemma parseUrlsFromFile_unread env s :
  Service.parseUrlsFromFile env (mkFile None) s
  = (Raise (BadRequestException (lit
      "Failed to parse file. Please ensure it is a valid text file with one URL per line")),
     s).
Proof. reflexivity. Qed.

Lemma parseUrlsFromFile_done env file urls s s' :
  Service.parseUrlsFromFile env file s = (Done urls, s') ->
  s' = s /\ exists content, buffer file = Some content
  /\ urls = List.filter (isURL env)
              (List.filter (fun line => 0 <? length line)
                 (map trim (splitLines content))).
Proof.
  destruct file as [[content|]].
  - rewrite parseUrlsFromFile_run. cbv zeta.
    destruct (_ && _); intros H; inversion H; subst.
    split; [reflexivity|]. exists content. split; reflexivity.
  - rewrite parseUrlsFromFile_unread. intros H; discriminate H.
Qed.

(** X18: the list parseUrlsFromFile returns is exactly the lines of the
    file, trimmed, in the order of the file and as often as they occur,
    without the blank ones and without those the validator refuses; so every
    URL returned is trimmed, not empty and valid; reading the file changes
    nothing. *)
Theorem parseUrlsFromFile_urls env file urls s s' :
  Service.parseUrlsFromFile env file s = (Done urls, s') ->
  s' = s
  /\ exists content, buffer file = Some content
     /\ urls = List.filter (isURL env)
                 (List.filter (fun line => 0 <? length line)
                    (map trim (splitLines content)))
     /\ urls `sublist_of` map trim (splitLines content)
     /\ Forall trimmed urls
     /\ forall u, u ∈ urls <->
          u <> [] /\ isURL env u = true
          /\ exists line, line ∈ splitLines content /\ u = trim line.
Proof.
  intros H. apply parseUrlsFromFile_done in H as (-> & content & Hb & ->).
  split; [reflexivity|]. exists content. split; [exact Hb|].
  split; [reflexivity|]. split; [|split].
  - etransitivity; apply List_filter_sublist.
  - apply Forall_forall. intros u Hu.
    apply List_filter_elem in Hu as [Hu _].
    apply List_filter_elem in Hu as [Hu _].
    apply list_elem_of_fmap in Hu as (line & -> & _). apply trim_trimmed.
  - intros u. rewrite !List_filter_elem, list_elem_of_fmap.
    split.
    + intros [[(line & -> & Hl) Hne] Hv]. apply length_pos_cons in Hne. eauto.
    + intros (Hne & Hv & line & Hl & ->).
      split; [split; [eauto|now apply length_pos_cons]|exact Hv].
Qed.

(** X19: parseUrlsFromFile refuses a file that was read exactly when some
    line is not blank and the validator refuses every line that is not
    blank; a file of blank lines is not refused: it gives the empty list. *)
Theorem parseUrlsFromFile_refuses env content s :
  ((exists r, fst (Service.parseUrlsFromFile env (mkFile (Some content)) s) = Raise r)
   <-> (exists line, line ∈ splitLines content /\ trim line <> [])
       /\ (forall line, line ∈ splitLines content -> trim line <> [] ->
             isURL env (trim line) = false))
  /\ ((forall line, line ∈ splitLines content -> trim line = []) ->
      Service.parseUrlsFromFile env (mkFile (Some content)) s = (Done [], s)).
Proof.
  rewrite parseUrlsFromFile_run. cbv zeta.
  set (urls := List.filter (fun line => 0 <? length line)
                 (map trim (splitLines content))).
  assert (Hu : forall u, u ∈ urls <->
            exists line, line ∈ splitLines content /\ u = trim line /\ u <> []).
  { intros u. unfold urls. rewrite List_filter_elem, list_elem_of_fmap.
    split.
    - intros [(l & -> & Hl) Hne]. apply length_pos_cons in Hne. eauto.
    - intros (l & Hl & -> & Hne). split; [eauto|]. now apply length_pos_cons. }
  assert (H1 : (0 <? length urls) = true <->
            exists line, line ∈ splitLines content /\ trim line <> []).
  { rewrite length_pos_cons. split.
    - intros Hne. destruct urls as [|u r] eqn:Eu; [congruence|].
      destruct (proj1 (Hu u)) as (line & Hl & -> & Hn); [left|]. eauto.
    - intros (line & Hl & Hn) Eu.
      assert (Hin : trim line ∈ urls) by (apply Hu; eauto).
      rewrite Eu in Hin. inversion Hin. }
  assert (H2 : (length (List.filter (isURL env) urls) =? 0) = true <->
            forall line, line ∈ splitLines content -> trim line <> [] ->
              isURL env (trim line) = false).
  { rewrite length_zero_nil. split.
    - intros Ef line Hl Hn.
      destruct (isURL env (trim line)) eqn:Ev; [|reflexivity].
      assert (Hin : trim line ∈ List.filter (isURL env) urls).
      { apply List_filter_elem. split; [|exact Ev]. apply Hu. eauto. }
      rewrite Ef in Hin. inversion Hin.
    - intros Hall. destruct (List.filter (isURL env) urls) as [|u r] eqn:Ef;
        [reflexivity|].
      assert (Hin : u ∈ List.filter (isURL env) urls) by (rewrite Ef; left).
      apply List_filter_elem in Hin as [Hin Hv].
      apply Hu in Hin as (line & Hl & -> & Hn).
      rewrite (Hall line Hl Hn) in Hv. discriminate Hv. }
  split; [split|].
  - intros [r Hr].
    destruct ((length (List.filter (isURL env) urls) =? 0) && (0 <? length urls))
      eqn:E; [|discriminate Hr].
    apply andb_true_iff in E as [E1 E2]. split; [now apply H1|now apply H2].
  - intros [Ha Hb]. apply H1 in Ha. apply H2 in Hb. rewrite Ha, Hb. simpl. eauto.
  - intros Hblank.
    assert (Eu : urls = []).
    { destruct urls as [|u r] eqn:Eu; [reflexivity|]. exfalso.
      destruct (proj1 (Hu u)) as (line & Hl & -> & Hn); [left|].
      exact (Hn (Hblank line Hl)). }
    rewrite Eu. reflexivity.
Qed.

Lemma parseUrlsFromFile_urls_witness :
  exists urls s',
    Service.parseUrlsFromFile sampleSvcEnv sampleUpload (sampleSys emptyJobWorld)
    = (Done urls, s')
    /\ urls = [lit "http://acme.test/"; lit "https://globex.test/about"]
    /\ s' = sampleSys emptyJobWorld.
Proof.
  eexists _, _. split; [vm_compute; reflexivity|].
  split; [reflexivity|].
  exact (proj1 (parseUrlsFromFile_urls sampleSvcEnv sampleUpload _ _ _ eq_refl)).
Defined.

(** ** ScrapingQueueService *)

Lemma enqueueSingleUrlJob_run env itemId url jobId s :
  QueueService.enqueueSingleUrlJob env itemId url jobId s
  = (match assigned env (adds s) with
     | Some id => Done id
     | None =>
         match queueReply env (adds s) with
         | AddRejected e => Raise (OtherError e)
         | AddAccepted _ =>
             Raise (OtherError (ErrorObj
               (lit "Failed to create scraping job - job ID not assigned")))
         end
     end,
     mkSys (world s)
       (queue s ++ (if stored env (adds s)
                    then [taskOf (mkData itemId url jobId)] else []))
       (uuids s) (adds s + 1)).
Proof.
  unfold QueueService.enqueueSingleUrlJob, QueueService.add, catching, svcBind,
    svcRet, svcThrow, assigned, stored, taskOf.
  destruct (queueReply env (adds s)) as [e|id].
  - now rewrite app_nil_r.
  - destruct (optOrNull id); reflexivity.
Qed.

Lemma list_snoc_neq {A} (l : list A) (x : A) : l ++ [x] <> l.
Proof.
  intros H. apply (f_equal length) in H. rewrite length_app in H. simpl in H. lia.
Qed.

(** X20: enqueueSingleUrlJob returns the id the queue gave, and throws when
    the queue rejected the task or gave it no id; the task is in the queue
    afterwards whenever the queue stored it, also when the call throws for
    the missing id. *)
Theorem enqueueSingleUrlJob_outcome env itemId url jobId s :
  let run := QueueService.enqueueSingleUrlJob env itemId url jobId s in
  (forall id, fst run = Done id <->
     exists given, queueReply env (adds s) = AddAccepted (Some given)
                   /\ given = id /\ id <> [])
  /\ (queue (snd run) = queue s ++ [taskOf (mkData itemId url jobId)] <->
        exists id, queueReply env (adds s) = AddAccepted id)
  /\ (queue (snd run) = queue s <->
        exists e, queueReply env (adds s) = AddRejected e)
  /\ (forall id, queueReply env (adds s) = AddAccepted id -> optOrNull id = None ->
        fst run = Raise (OtherError (ErrorObj
          (lit "Failed to create scraping job - job ID not assigned"))))
  /\ world (snd run) = world s /\ adds (snd run) = adds s + 1.
Proof.
  cbv zeta. rewrite enqueueSingleUrlJob_run. unfold assigned, stored. simpl.
  destruct (queueReply env (adds s)) as [e|[id|]] eqn:E; simpl.
  - rewrite app_nil_r. repeat split; try reflexivity.
    + intros H; discriminate H.
    + intros (g & H & _); discriminate H.
    + intros H. symmetry in H. now apply list_snoc_neq in H.
    + intros [id H]; discriminate H.
    + eauto.
    + intros id H; discriminate H.
  - unfold orNull, truthy. destruct id as [|c r]; simpl.
    + repeat split; try reflexivity; eauto.
      * intros H; discriminate H.
      * intros (g & H & -> & Hne). congruence.
      * intros H. now apply list_snoc_neq in H.
      * intros [e H]; discriminate H.
    + repeat split; try reflexivity; eauto.
      * intros H. inversion H; subst. exists (c :: r). repeat split. discriminate.
      * intros (g & H & <- & _). now inversion H.
      * intros H. now apply list_snoc_neq in H.
      * intros [e H]; discriminate H.
      * intros id H. inversion H; subst. intros H'; discriminate H'.
  - repeat split; try reflexivity; eauto.
    + intros H; discriminate H.
    + intros (g & H & _); discriminate H.
    + intros H. now apply list_snoc_neq in H.
    + intros [e H]; discriminate H.
Qed.

Lemma enqueueEach_run env items : forall s rs s',
  QueueService.enqueueEach env items s = (rs, s') ->
  world s' = world s /\ uuids s' = uuids s
  /\ adds s' = adds s + length items
  /\ queue s' = queue s ++ storedTasks env (adds s) items
  /\ length rs = length items
  /\ Forall (fun r => forall e, r = Raise e -> exists t, e = OtherError t) rs
  /\ (forall ids, QueueService.allOf rs = Done ids ->
        length ids = length items
        /\ storedTasks env (adds s) items = map taskOf items
        /\ Forall2 (fun k id => assigned env k = Some id)
             (seq (adds s) (length items)) ids).
Proof.
  induction items as [|item rest IH]; intros s rs s' H; simpl in H.
  - inversion H; subst. simpl. rewrite app_nil_r.
    split; [reflexivity|]. split; [reflexivity|]. split; [lia|].
    split; [reflexivity|]. split; [reflexivity|]. split; [constructor|].
    intros ids Hd. inversion Hd. repeat split. constructor.
  - destruct item as [i u j]. rewrite enqueueSingleUrlJob_run in H.
    destruct (QueueService.enqueueEach env rest _) as [rs1 s2] eqn:E.
    apply IH in E as (Hw & Hu & Ha & Hq & Hl & Hr & Hd). simpl in *.
    inversion H; subst. clear H.
    split; [exact Hw|]. split; [exact Hu|]. split; [lia|].
    split; [rewrite Hq, <- app_assoc; reflexivity|].
    split; [simpl; now rewrite Hl|].
    split.
    + constructor; [|exact Hr]. intros e He.
      unfold assigned in He.
      destruct (queueReply env (adds s)) as [t|id]; [|destruct (optOrNull id)];
        inversion He; eauto.
    + intros ids Hall. simpl in Hall.
      destruct (assigned env (adds s)) as [id|] eqn:Eas.
      * destruct (QueueService.allOf rs1) as [l|r] eqn:El; [|discriminate Hall].
        inversion Hall; subst. destruct (Hd l eq_refl) as (Hl1 & Hs1 & Hf).
        assert (Hst : stored env (adds s) = true).
        { unfold assigned in Eas. unfold stored.
          destruct (queueReply env (adds s)); [discriminate Eas|reflexivity]. }
        rewrite Hst, Hs1. simpl. split; [now rewrite Hl1|]. split; [reflexivity|].
        constructor; [exact Eas|]. replace (S (adds s)) with (adds s + 1) by lia.
        exact Hf.
      * destruct (queueReply env (adds s)); discriminate Hall.
Qed.

Lemma enqueueMultipleUrlJobs_run env items s :
  exists rs s',
    QueueService.enqueueEach env items s = (rs, s')
    /\ QueueService.enqueueMultipleUrlJobs env items s = (QueueService.allOf rs, s').
Proof.
  unfold QueueService.enqueueMultipleUrlJobs, catching, svcThrow.
  destruct (QueueService.enqueueEach env items s) as [rs s'].
  exists rs, s'. split; [reflexivity|]. destruct (QueueService.allOf rs); reflexivity.
Qed.

Lemma allOf_raise rs r :
  Forall (fun r => forall e, r = Raise e -> exists t, e = OtherError t) rs ->
  QueueService.allOf rs = Raise r -> exists t, r = OtherError t.
Proof.
  induction 1 as [|x l Hx Hl IH]; simpl; [discriminate|].
  destruct x as [a|e].
  - destruct (QueueService.allOf l); [discriminate|].
    intros H; inversion H; subst. now apply IH.
  - intros H; inversion H; subst. now apply Hx.
Qed.

Lemma enqueueMultipleUrlJobs_inv env items s r s' :
  QueueService.enqueueMultipleUrlJobs env items s = (r, s') ->
  world s' = world s /\ uuids s' = uuids s
  /\ adds s' = adds s + length items
  /\ queue s' = queue s ++ storedTasks env (adds s) items
  /\ (forall ids, r = Done ids ->
        length ids = length items
        /\ storedTasks env (adds s) items = map taskOf items
        /\ Forall2 (fun k id => assigned env k = Some id)
             (seq (adds s) (length items)) ids)
  /\ (forall e, r = Raise e -> exists t, e = OtherError t).
Proof.
  destruct (enqueueMultipleUrlJobs_run env items s) as (rs & s1 & E & ->).
  intros H; inversion H; subst.
  apply enqueueEach_run in E as (Hw & Hu & Ha & Hq & Hl & Hr & Hd).
  split; [exact Hw|]. split; [exact Hu|]. split; [exact Ha|].
  split; [exact Hq|]. split; [exact Hd|].
  intros e He. eapply allOf_raise; eauto.
Qed.

Lemma storedTasks_sublist env items : forall n,
  storedTasks env n items `sublist_of` map taskOf items.
Proof.
  induction items as [|item rest IH]; intros n; simpl; [constructor|].
  destruct (stored env n); simpl; constructor; apply IH.
Qed.

Lemma storedTasks_elem env items : forall n k item,
  items !! k = Some item -> stored env (n + k) = true ->
  taskOf item ∈ storedTasks env n items.
Proof.
  induction items as [|x rest IH]; intros n k item Hk Hs; [discriminate Hk|].
  simpl. apply elem_of_app. destruct k as [|k]; simpl in Hk.
  - inversion Hk; subst. rewrite Nat.add_0_r in Hs. rewrite Hs. left. left.
  - right. apply (IH (n + 1) k); [exact Hk|].
    now replace (n + 1 + k) with (n + S k) by lia.
Qed.

(** X21: enqueueMultipleUrlJobs hands every item to the queue, whatever
    becomes of the others.  Afterwards the queue holds what it held before
    and, of the tasks of the call, exactly those it stored, whether the call
    returns or throws: a task the queue stored is not taken back.  When the
    call returns, these are the tasks of all the items, and there is one id
    per item. *)
Theorem enqueueMultipleUrlJobs_all_issued env items s r s' :
  QueueService.enqueueMultipleUrlJobs env items s = (r, s') ->
  adds s' = adds s + length items
  /\ world s' = world s
  /\ queue s' ≡ₚ queue s ++ storedTasks env (adds s) items
  /\ (forall k item, items !! k = Some item -> stored env (adds s + k) = true ->
        taskOf item ∈ queue s')
  /\ (forall ids, r = Done ids ->
        storedTasks env (adds s) items = map taskOf items
        /\ length ids = length items).
Proof.
  intros H. apply enqueueMultipleUrlJobs_inv in H
    as (Hw & _ & Ha & Hq & Hd & _).
  split; [exact Ha|]. split; [exact Hw|].
  split; [now rewrite Hq|]. split.
  - intros k item Hk Hs. rewrite Hq. apply elem_of_app. right.
    now apply (storedTasks_elem env items (adds s) k).
  - intros ids ->. destruct (Hd ids eq_refl) as (Hl & Hs & _). auto.
Qed.

(** X22: enqueueMultipleUrlJobs returns exactly when the queue stores every
    task and gives each an id. *)
Theorem enqueueMultipleUrlJobs_returns_iff env items s :
  (exists ids, fst (QueueService.enqueueMultipleUrlJobs env items s) = Done ids)
  <-> forall k, k < length items -> assigned env (adds s + k) <> None.
Proof.
  destruct (enqueueMultipleUrlJobs_run env items s) as (rs & s1 & E & ->).
  simpl. revert s rs s1 E.
  induction items as [|item rest IH]; intros s rs s1 E; simpl in E.
  - inversion E; subst. simpl. split; [intros _ k Hk; lia|eauto].
  - rewrite enqueueSingleUrlJob_run in E.
    destruct (QueueService.enqueueEach env rest _) as [rs1 s2] eqn:E1.
    inversion E; subst. clear E.
    specialize (IH _ _ _ E1). simpl in IH. simpl.
    destruct (assigned env (adds s)) as [id|] eqn:Eas.
    + split.
      * intros [ids Hd].
        destruct (QueueService.allOf rs1) as [l|r] eqn:El; [|discriminate Hd].
        intros k Hk. destruct k as [|k].
        -- rewrite Nat.add_0_r, Eas. discriminate.
        -- replace (adds s + S k) with (adds s + 1 + k) by lia.
           apply (proj1 IH); [eauto|lia].
      * intros Hall.
        destruct (proj2 IH) as [l Hl].
        { intros k Hk. replace (adds s + 1 + k) with (adds s + S k) by lia.
          apply Hall. lia. }
        rewrite Hl. eauto.
    + split.
      * intros [ids Hd]. destruct (queueReply env (adds s)); discriminate Hd.
      * intros Hall. exfalso. apply (Hall 0); [lia|].
        now rewrite Nat.add_0_r.
Qed.

Lemma enqueueMultipleUrlJobs_all_issued_witness :
  let run := QueueService.enqueueMultipleUrlJobs flakySvcEnv sampleData
               (sampleSys emptyJobWorld) in
  fst run = Raise (OtherError (ErrorObj (lit "Connection is closed.")))
  /\ map (fun q => d_itemId (q_data q)) (queue (snd run)) = [lit "a"; lit "c"]
  /\ adds (snd run) = 0 + 3
  /\ queue (snd run)
     ≡ₚ queue (sampleSys emptyJobWorld) ++ storedTasks flakySvcEnv 0 sampleData.
Proof.
  cbv zeta. split; [reflexivity|]. split; [reflexivity|].
  destruct (enqueueMultipleUrlJobs_all_issued flakySvcEnv sampleData
              (sampleSys emptyJobWorld) _ _ (surjective_pairing _))
    as (Ha & _ & Hq & _).
  split; [exact Ha|exact Hq].
Defined.

(** ** createJob *)

Lemma createJob_split env userId file useMockServer :
  Service.createJob env userId file useMockServer
  = catching
      ((if negb (present file) && negb useMockServer then
          svcThrow (BadRequestException (lit
            "Either provide a file with URLs or select mock server mode"))
        else svcRet tt) ~;;
       (if present file && useMockServer then
          svcThrow (BadRequestException (lit
            "Cannot provide both file and mock server mode. Choose one input method"))
        else svcRet tt) ~;;
       urls <~ match file with
               | Some f => Service.parseUrlsFromFile env f
               | None =>
                   mockServerUrl <~ Service.getMockServerUrl env ;;
                   svcRet (repeat mockServerUrl 15)
               end ;;
       (if length urls =? 0 then
          svcThrow (BadRequestException (lit
            "No valid URLs found. Please provide a file with at least one URL"))
        else svcRet tt) ~;;
       createJobWrites env userId urls)
      (fun error =>
         match error with
         | BadRequestException _ | NotFoundException _ => svcThrow error
         | OtherError _ => svcThrow (BadRequestException tryAgain)
         end).
Proof. reflexivity. Qed.

Lemma newItem_rows now jobId urls : forall ids,
  map (newItem now)
    (zip ids (map (fun url => mkCreateItem jobId url (Some (lit "pending"))) urls))
  = map (pendingItem now jobId) (zip ids urls).
Proof.
  induction urls as [|url urls IH]; intros [|id ids]; simpl; try reflexivity.
  f_equal. apply IH.
Qed.

Lemma rows_tasks env now jobId n urls :
  map (fun item => mkData (Item.id item) (Item.url item) jobId)
    (map (pendingItem now jobId) (itemIdsFrom env n urls))
  = map (fun p => mkData (fst p) (snd p) jobId) (itemIdsFrom env n urls).
Proof. rewrite map_map. reflexivity. Qed.

Lemma createJobWrites_run env userId urls s r s' :
  createJobWrites env userId urls s = (r, s') ->
  let now := clock (world s) in
  let id := newUuid env (uuids s) in
  let jobs := scrapingJobs (db (world s)) in
  let items := scrapingItems (db (world s)) in
  let job := pendingJob now id userId (length urls) in
  let rows := map (pendingItem now id) (itemIdsFrom env (uuids s) urls) in
  match rejection 0 (world s) with
  | Some e =>
      r = Raise (OtherError e) /\ db (world s') = db (world s)
      /\ queue s' = queue s
  | None =>
      match rejection 1 (world s) with
      | Some e =>
          r = Raise (OtherError e)
          /\ db (world s') = mkDB (jobs ++ [job]) items
          /\ queue s' = queue s
      | None =>
          match rejection 2 (world s) with
          | Some e =>
              r = Raise (OtherError e)
              /\ db (world s') = mkDB (jobs ++ [job]) (items ++ rows)
              /\ queue s' = queue s
          | None =>
              db (world s')
              = recalcJob now id (mkDB (jobs ++ [job]) (items ++ rows))
              /\ exists r0 s3,
                   QueueService.enqueueMultipleUrlJobs env
                     (map (fun p => mkData (fst p) (snd p) id)
                        (itemIdsFrom env (uuids s) urls)) s3 = (r0, s')
                   /\ queue s3 = queue s /\ adds s3 = adds s
                   /\ r = match r0 with Done _ => Done id | Raise e => Raise e end
          end
      end
  end.
Proof.
  destruct s as [w q u a]. destruct w as [d nc fs c tr].
  unfold createJobWrites, svcBind, freshIds, repo, Repository.createJob,
    Repository.createItems, updateJobProgress, repoRun, repoCall, rejection.
  destruct fs as [|[e1|] [|[e2|] [|[e3|] fs]]]; simpl;
    rewrite ?length_map, ?newItem_rows;
    change (newJob c (newUuid env u) _)
      with (pendingJob c (newUuid env u) userId (length urls));
    fold (itemIdsFrom env u urls); rewrite ?rows_tasks.
  all: try (intros H; inversion H; subst; simpl; repeat split; reflexivity).
  all: destruct (QueueService.enqueueMultipleUrlJobs env _ _) as [r0 s1] eqn:E;
    intros H;
    pose proof (enqueueMultipleUrlJobs_inv _ _ _ _ _ E) as (Hw & _);
    assert (Hs : s' = s1
                 /\ r = match r0 with
                        | Done _ => Done (newUuid env u)
                        | Raise e => Raise e
                        end)
      by (destruct r0; inversion H; auto);
    destruct Hs as [-> ->];
    (split; [rewrite Hw; reflexivity|]);
    eexists _, _; (split; [exact E|]); simpl; auto.
Qed.

Lemma createJobWrites_raise env userId urls s e s' :
  createJobWrites env userId urls s = (Raise e, s') -> exists t, e = OtherError t.
Proof.
  intros H. apply createJobWrites_run in H. cbv zeta in H.
  destruct (rejection 0 (world s)) as [e0|]; [destruct H as [H _]; inversion H; eauto|].
  destruct (rejection 1 (world s)) as [e1|]; [destruct H as [H _]; inversion H; eauto|].
  destruct (rejection 2 (world s)) as [e2|]; [destruct H as [H _]; inversion H; eauto|].
  destruct H as (_ & r0 & s3 & E & _ & _ & Hr).
  apply enqueueMultipleUrlJobs_inv in E as (_ & _ & _ & _ & _ & He).
  destruct r0 as [ids|e']; [discriminate Hr|]. inversion Hr; subst. now apply He.
Qed.

Lemma parseUrlsFromFile_total env f :
  (exists urls, forall s, Service.parseUrlsFromFile env f s = (Done urls, s))
  \/ (exists m, (forall s, Service.parseUrlsFromFile env f s
                           = (Raise (BadRequestException m), s))
               /\ m ∈ createJobMessages).
Proof.
  destruct f as [[content|]].
  - pose proof (parseUrlsFromFile_run env content) as H. cbv zeta in H.
    destruct (_ && _).
    + right. eexists. split; [exact H|]. unfold createJobMessages.
      do 2 right. left.
    + left. eauto.
  - right. eexists. split; [apply parseUrlsFromFile_unread|].
    unfold createJobMessages. do 3 right. left.
Qed.

Lemma createJob_after_urls env userId urls s r s' :
  (let (r0, s1) :=
     ((if length urls =? 0
       then svcThrow (BadRequestException (lit
              "No valid URLs found. Please provide a file with at least one URL"))
       else svcRet ()) ~;;
      createJobWrites env userId urls) s in
   match r0 with
   | Done a => (Done a, s1)
   | Raise r1 =>
       match r1 with
       | OtherError _ => svcThrow (BadRequestException tryAgain)
       | _ => svcThrow r1
       end s1
   end) = (r, s') ->
  (exists m, r = Raise (BadRequestException m) /\ m ∈ createJobMessages /\ s' = s)
  \/ (exists r0,
        urls <> []
        /\ createJobWrites env userId urls s = (r0, s')
        /\ r = match r0 with
               | Done jobId => Done jobId
               | Raise _ => Raise (BadRequestException tryAgain)
               end).
Proof.
  unfold svcBind at 1. destruct urls as [|u urls]; cbn [length Nat.eqb].
  - intros H; inversion H; subst. left. eexists. split; [reflexivity|].
    split; [|reflexivity]. unfold createJobMessages. do 5 right. left.
  - unfold svcRet at 1.
    destruct (createJobWrites env userId (u :: urls) s) as [[a|e] s1] eqn:E;
      intros H.
    + inversion H; subst. right. exists (Done a). split; [discriminate|]. auto.
    + destruct (createJobWrites_raise _ _ _ _ _ _ E) as [t ->].
      inversion H; subst. right. exists (Raise (OtherError t)).
      split; [discriminate|]. auto.
Qed.

Lemma createJob_inv env userId file useMockServer s r s' :
  Service.createJob env userId file useMockServer s = (r, s') ->
  (exists m, r = Raise (BadRequestException m) /\ m ∈ createJobMessages /\ s' = s)
  \/ (exists urls r0,
        requested env file urls /\ useMockServer = negb (present file)
        /\ urls <> []
        /\ createJobWrites env userId urls s = (r0, s')
        /\ r = match r0 with
               | Done jobId => Done jobId
               | Raise _ => Raise (BadRequestException tryAgain)
               end).
Proof.
  rewrite createJob_split. unfold catching.
  destruct file as [f|], useMockServer; cbn [present negb andb].
  - intros H; inversion H; subst. left. eexists. split; [reflexivity|].
    split; [|reflexivity]. unfold createJobMessages. right. left.
  - unfold svcBind at 1 2. unfold svcRet at 1 2. unfold svcBind at 1.
    destruct (parseUrlsFromFile_total env f) as [[urls E]|(m & E & Hm)];
      rewrite E.
    + intros H. apply createJob_after_urls in H as [H|(r0 & Hne & Hr & ->)];
        [now left|].
      right. exists urls, r0. split; [exact E|].
      split; [reflexivity|]. split; [exact Hne|]. split; [exact Hr|reflexivity].
    + intros H; inversion H; subst. left. eauto.
  - unfold svcBind at 1 2. unfold svcRet at 1 2. unfold svcBind at 1 2.
    unfold Service.getMockServerUrl.
    destruct (MOCK_COMPANY_DATA_SERVER_URL env) as [[|c u]|] eqn:Em; simpl optOrNull.
    + intros H; inversion H; subst. left. eexists. split; [reflexivity|].
      split; [|reflexivity]. unfold createJobMessages. do 4 right. left.
    + unfold svcRet at 1 2.
      intros H. apply createJob_after_urls in H as [H|(r0 & Hne & Hr & ->)];
        [now left|].
      right. exists (repeat (c :: u) 15), r0.
      split; [exists (c :: u); split; [exact Em|split; [discriminate|reflexivity]]|].
      split; [reflexivity|]. split; [exact Hne|]. split; [exact Hr|reflexivity].
    + intros H; inversion H; subst. left. eexists. split; [reflexivity|].
      split; [|reflexivity]. unfold createJobMessages. do 4 right. left.
  - intros H; inversion H; subst. left. eexists. split; [reflexivity|].
    split; [|reflexivity]. unfold createJobMessages. left.
Qed.

Lemma List_filter_none {A} (p : A -> bool) (l : list A) :
  (forall x, x ∈ l -> p x = false) -> List.filter p l = [].
Proof.
  induction l as [|a l IH]; intros H; simpl; [reflexivity|].
  rewrite (H a) by apply list_elem_of_here. apply IH.
  intros x Hx. apply H. now apply list_elem_of_further.
Qed.

Lemma List_filter_all {A} (p : A -> bool) (l : list A) :
  (forall x, x ∈ l -> p x = true) -> List.filter p l = l.
Proof.
  induction l as [|a l IH]; intros H; simpl; [reflexivity|].
  rewrite (H a) by apply list_elem_of_here. f_equal. apply IH.
  intros x Hx. apply H. now apply list_elem_of_further.
Qed.

Lemma itemIdsFrom_length env n urls :
  length (itemIdsFrom env n urls) = length urls.
Proof.
  unfold itemIdsFrom. rewrite length_zip, length_map, length_seq. lia.
Qed.

Lemma recalcJob_started now jobId userId total d rows :
  unusedJobId jobId d -> rows <> [] ->
  (forall it, it ∈ rows -> Item.jobId it = jobId /\ Item.status it = lit "pending") ->
  recalcJob now jobId
    (mkDB (scrapingJobs d ++ [pendingJob now jobId userId total])
          (scrapingItems d ++ rows))
  = mkDB (scrapingJobs d ++ [startedJob now jobId userId total])
         (scrapingItems d ++ rows).
Proof.
  intros [Hj Hi] Hne Hrows. unfold recalcJob, itemsOfJob. simpl.
  rewrite !List.filter_app.
  rewrite (List_filter_none _ (scrapingItems d)), (List_filter_all _ rows); simpl.
  - rewrite !(List_filter_none _ rows).
    + f_equal. rewrite map_app. simpl. f_equal.
      * apply map_id_on. intros j Hin. unfold setJob.
        destruct (str_eqb (Job.id j) jobId) eqn:E; [|reflexivity].
        apply str_eqb_eq in E. now apply Hj in Hin.
      * unfold setJob, pendingJob, startedJob. simpl.
        replace (str_eqb jobId jobId) with true
          by (symmetry; now apply str_eqb_eq).
        destruct rows; [congruence|reflexivity].
    + intros it Hin. unfold isFailed. apply str_eqb_neq.
      rewrite (proj2 (Hrows it Hin)). intros H; vm_compute in H; discriminate H.
    + intros it Hin. unfold isProcessed. apply orb_false_iff.
      rewrite (proj2 (Hrows it Hin)). split; apply str_eqb_neq;
        intros H; vm_compute in H; discriminate H.
  - intros it Hin. apply str_eqb_eq. now apply Hrows.
  - intros it Hin. apply str_eqb_neq. now apply Hi.
Qed.

Lemma pendingRows now jobId l it :
  it ∈ map (pendingItem now jobId) l ->
  Item.jobId it = jobId /\ Item.status it = lit "pending".
Proof.
  intros H. apply list_elem_of_fmap in H as (p & -> & _). split; reflexivity.
Qed.

Lemma createJob_done env userId file useMockServer s jobId s' :
  unusedJobId (newUuid env (uuids s)) (db (world s)) ->
  Service.createJob env userId file useMockServer s = (Done jobId, s') ->
  exists urls,
    requested env file urls /\ urls <> []
    /\ useMockServer = negb (present file)
    /\ jobId = newUuid env (uuids s)
    /\ scrapingJobs (db (world s'))
       = scrapingJobs (db (world s))
         ++ [startedJob (clock (world s)) jobId userId (length urls)]
    /\ scrapingItems (db (world s'))
       = scrapingItems (db (world s))
         ++ map (pendingItem (clock (world s)) jobId)
              (itemIdsFrom env (uuids s) urls)
    /\ queue s'
       = queue s ++ map (taskFor jobId) (itemIdsFrom env (uuids s) urls).
Proof.
  intros Hfresh H.
  apply createJob_inv in H as [(m & H & _)|(urls & r0 & Hreq & Hm & Hne & Hw & Hr)];
    [discriminate H|].
  destruct r0 as [id|e]; [|discriminate Hr]. inversion Hr; subst id. clear Hr.
  apply createJobWrites_run in Hw. cbv zeta in Hw.
  destruct (rejection 0 (world s)); [destruct Hw as [Hw _]; discriminate Hw|].
  destruct (rejection 1 (world s)); [destruct Hw as [Hw _]; discriminate Hw|].
  destruct (rejection 2 (world s)); [destruct Hw as [Hw _]; discriminate Hw|].
  destruct Hw as (Hdb & r0 & s3 & E & Hq & Ha & Hr).
  destruct r0 as [ids|e]; [|discriminate Hr]. inversion Hr; subst jobId. clear Hr.
  apply enqueueMultipleUrlJobs_inv in E as (_ & _ & _ & Hq' & Hd & _).
  destruct (Hd ids eq_refl) as (_ & Hst & _).
  exists urls. split; [exact Hreq|]. split; [exact Hne|]. split; [exact Hm|].
  split; [reflexivity|].
  rewrite recalcJob_started in Hdb.
  - rewrite Hdb. simpl. split; [reflexivity|]. split; [reflexivity|].
    rewrite Hq', Hq, Hst, map_map. reflexivity.
  - exact Hfresh.
  - intros Hnil. apply (f_equal length) in Hnil.
    rewrite length_map, itemIdsFrom_length in Hnil.
    destruct urls; [congruence|discriminate Hnil].
  - apply pendingRows.
Qed.

Lemma recalcJob_keeps now jobId d j :
  j ∈ scrapingJobs d ->
  exists j', j' ∈ scrapingJobs (recalcJob now jobId d)
    /\ Job.id j' = Job.id j /\ Job.userId j' = Job.userId j
    /\ Job.totalUrls j' = Job.totalUrls j.
Proof.
  intros H. unfold recalcJob. cbv zeta. simpl.
  eexists. split; [apply list_elem_of_fmap; eexists; split; [reflexivity|exact H]|].
  unfold setJob. destruct (str_eqb (Job.id j) jobId); repeat split.
Qed.

Lemma createJob_failed env userId file useMockServer s s' :
  rejection 0 (world s) = None ->
  Service.createJob env userId file useMockServer s
  = (Raise (BadRequestException tryAgain), s') ->
  exists urls,
    requested env file urls /\ urls <> []
    /\ (exists j, j ∈ scrapingJobs (db (world s'))
          /\ Job.id j = newUuid env (uuids s)
          /\ Job.userId j = Some userId
          /\ Job.totalUrls j = length urls)
    /\ (rejection 1 (world s) = None ->
          scrapingItems (db (world s'))
          = scrapingItems (db (world s))
            ++ map (pendingItem (clock (world s)) (newUuid env (uuids s)))
                 (itemIdsFrom env (uuids s) urls))
    /\ (rejection 1 (world s) = None -> rejection 2 (world s) = None ->
          queue s'
          = queue s
            ++ storedTasks env (adds s)
                 (map (jobData (newUuid env (uuids s)))
                    (itemIdsFrom env (uuids s) urls)))
    /\ (rejection 1 (world s) <> None \/ rejection 2 (world s) <> None ->
          queue s' = queue s).
Proof.
  intros H0 H.
  apply createJob_inv in H as [(m & H & Hm & _)|(urls & r0 & Hreq & _ & Hne & Hw & Hr)].
  - inversion H; subst m. exfalso. revert Hm. unfold createJobMessages, tryAgain.
    rewrite !elem_of_cons, elem_of_nil. intros Hm.
    repeat (destruct Hm as [Hm|Hm]; [vm_compute in Hm; discriminate Hm|]).
    exact Hm.
  - exists urls. split; [exact Hreq|]. split; [exact Hne|].
    apply createJobWrites_run in Hw. cbv zeta in Hw. rewrite H0 in Hw.
    assert (Hin : pendingJob (clock (world s)) (newUuid env (uuids s)) userId
                    (length urls)
                  ∈ scrapingJobs (db (world s))
                    ++ [pendingJob (clock (world s)) (newUuid env (uuids s))
                          userId (length urls)]).
    { apply elem_of_app. right. left. }
    destruct (rejection 1 (world s)) as [e1|].
    { destruct Hw as (_ & Hdb & Hq). rewrite Hdb, Hq. simpl.
      split; [eexists; split; [exact Hin|repeat split]|].
      split; [intros C; discriminate C|].
      split; [intros C; discriminate C|reflexivity]. }
    destruct (rejection 2 (world s)) as [e2|].
    { destruct Hw as (_ & Hdb & Hq). rewrite Hdb, Hq. simpl.
      split; [eexists; split; [exact Hin|repeat split]|].
      split; [reflexivity|].
      split; [intros _ C; discriminate C|reflexivity]. }
    destruct Hw as (Hdb & r1 & s3 & E & Hq & Ha & _).
    apply enqueueMultipleUrlJobs_inv in E as (_ & _ & _ & Hq' & _ & _).
    match type of Hdb with _ = recalcJob _ _ ?d => set (d1 := d) in Hdb end.
    rewrite Hdb. split.
    + destruct (recalcJob_keeps (clock (world s)) (newUuid env (uuids s))
                  d1 _ Hin)
        as (j' & Hj' & Hid & Hu & Ht).
      exists j'. split; [exact Hj'|]. rewrite Hid, Hu, Ht. repeat split.
    + split; [reflexivity|].
      split; [intros _ _; rewrite Hq', Hq, Ha; reflexivity|].
      intros [C|C]; congruence.
Qed.

Lemma findJob_spec jobId userId jobs :
  match List.find (fun j => str_eqb (Job.id j) jobId
                            && bool_decide (Job.userId j = Some userId)) jobs with
  | Some j => j ∈ jobs /\ ownedBy jobId userId j
  | None => forall j, j ∈ jobs -> ~ ownedBy jobId userId j
  end.
Proof.
  destruct (List.find _ jobs) as [j|] eqn:E.
  - apply find_some in E as [Hin Hp]. apply andb_true_iff in Hp as [H1 H2].
    apply str_eqb_eq in H1. apply bool_decide_eq_true in H2.
    split; [now apply list_elem_of_In|]. split; assumption.
  - intros j Hin [H1 H2]. apply list_elem_of_In in Hin.
    pose proof (find_none _ _ E j Hin) as Hp. simpl in Hp.
    apply andb_false_iff in Hp as [Hp|Hp].
    + apply str_eqb_neq in Hp. contradiction.
    + apply bool_decide_eq_false in Hp. contradiction.
Qed.

Lemma getJob_run jobId userId s :
  exists r s',
    Service.getJob jobId userId s = (r, s')
    /\ db (world s') = db (world s) /\ queue s' = queue s
    /\ trace (world s') = trace (world s)
    /\ r = match rejection 0 (world s) with
           | Some _ => Raise (BadRequestException notRetrieved)
           | None =>
               match List.find (fun j => str_eqb (Job.id j) jobId
                                  && bool_decide (Job.userId j = Some userId))
                       (scrapingJobs (db (world s))) with
               | None => Raise (NotFoundException notFound)
               | Some j =>
                   match rejection 1 (world s) with
                   | Some _ => Raise (BadRequestException notRetrieved)
                   | None => Done (j, itemsOfJob jobId (db (world s)))
                   end
               end
           end.
Proof.
  destruct s as [w q u a]. destruct w as [d nc fs c tr].
  unfold Service.getJob, catching, svcBind, repo, Repository.findJobById,
    Repository.findItemsByJobId, repoRun, rejection.
  destruct fs as [|[e1|] [|[e2|] fs]]; simpl;
    try (match goal with |- context [List.find ?p ?l] =>
           destruct (List.find p l) end); simpl;
    eexists _, _; repeat split.
Qed.


(** X23: whatever createJob throws is a BadRequestException with one of
    seven messages; unless the message is the one that asks to try again,
    the request was refused before anything was done: no row, no
    identifier, no task. *)
Theorem createJob_refusals env userId file useMockServer s e s' :
  Service.createJob env userId file useMockServer s = (Raise e, s') ->
  exists m, e = BadRequestException m
    /\ m ∈ tryAgain :: createJobMessages
    /\ (m <> tryAgain -> s' = s).
Proof.
  intros H.
  apply createJob_inv in H as [(m & H & Hm & ->)|(urls & r0 & _ & _ & _ & _ & Hr)].
  - inversion H; subst e. exists m. split; [reflexivity|].
    split; [now right|reflexivity].
  - destruct r0 as [id|e0]; [discriminate Hr|]. inversion Hr; subst e.
    exists tryAgain. split; [reflexivity|]. split; [left|congruence].
Qed.

Lemma createJob_refusals_witness :
  let s := sampleSys emptyJobWorld in
  let run := Service.createJob noIdSvcEnv (lit "alice") None true s in
  fst run = Raise (BadRequestException
              (lit "Mock server is not configured. Please contact the administrator"))
  /\ snd run = s
  /\ exists m, BadRequestException
                (lit "Mock server is not configured. Please contact the administrator")
              = BadRequestException m
       /\ m ∈ tryAgain :: createJobMessages
       /\ (m <> tryAgain -> snd run = s).
Proof.
  cbv zeta. split; [reflexivity|]. split; [reflexivity|].
  exact (createJob_refusals noIdSvcEnv (lit "alice") None true
           (sampleSys emptyJobWorld) _ _ eq_refl).
Defined.

(** X24: when createJob returns, and the identifier the database gave to
    the job was not in use, the job id returned is that identifier; the
    database holds one more job, owned by the caller, "processing", with
    totalUrls the number of URLs asked for and no URL processed or failed;
    it holds one more "pending" item per URL, in the order of the URLs; and
    the queue holds one more task per item. *)
Theorem createJob_success env userId file useMockServer s jobId s' :
  unusedJobId (newUuid env (uuids s)) (db (world s)) ->
  Service.createJob env userId file useMockServer s = (Done jobId, s') ->
  exists urls,
    requested env file urls /\ urls <> []
    /\ useMockServer = negb (present file)
    /\ jobId = newUuid env (uuids s)
    /\ scrapingJobs (db (world s'))
       = scrapingJobs (db (world s))
         ++ [startedJob (clock (world s)) jobId userId (length urls)]
    /\ scrapingItems (db (world s'))
       = scrapingItems (db (world s))
         ++ map (pendingItem (clock (world s)) jobId)
              (itemIdsFrom env (uuids s) urls)
    /\ queue s'
       ≡ₚ queue s ++ map (taskFor jobId) (itemIdsFrom env (uuids s) urls).
Proof.
  intros Hfresh H.
  destruct (createJob_done _ _ _ _ _ _ _ Hfresh H)
    as (urls & H1 & H2 & H3 & H4 & H5 & H6 & H7).
  exists urls. rewrite H7. auto 10.
Qed.

Lemma createJob_success_witness :
  let s := sampleSys emptyJobWorld in
  let run := Service.createJob sampleSvcEnv (lit "alice") (Some sampleUpload)
               false s in
  fst run = Done (lit "id-0")
  /\ map Item.url (scrapingItems (db (world (snd run))))
     = [lit "http://acme.test/"; lit "https://globex.test/about"]
  /\ exists urls,
       requested sampleSvcEnv (Some sampleUpload) urls /\ urls <> []
       /\ false = negb (present (Some sampleUpload))
       /\ lit "id-0" = newUuid sampleSvcEnv (uuids s)
       /\ scrapingJobs (db (world (snd run)))
          = scrapingJobs (db (world s))
            ++ [startedJob (clock (world s)) (lit "id-0") (lit "alice")
                  (length urls)]
       /\ scrapingItems (db (world (snd run)))
          = scrapingItems (db (world s))
            ++ map (pendingItem (clock (world s)) (lit "id-0"))
                 (itemIdsFrom sampleSvcEnv (uuids s) urls)
       /\ queue (snd run)
          ≡ₚ queue s
             ++ map (taskFor (lit "id-0"))
                  (itemIdsFrom sampleSvcEnv (uuids s) urls).
Proof.
  cbv zeta. split; [reflexivity|]. split; [reflexivity|].
  apply (createJob_success sampleSvcEnv (lit "alice") (Some sampleUpload) false
           (sampleSys emptyJobWorld)).
  - split.
    + intros j Hj. apply list_elem_of_singleton in Hj. subst j.
      intros C; vm_compute in C; discriminate C.
    + intros it Hit. inversion Hit.
  - reflexivity.
Defined.

(** X25: nothing is undone when createJob fails after the job was inserted:
    the caller is asked to try again, yet the row of the job stays in the
    database, and the rows of the items stay if their insert was accepted.
    When the database accepted the insert of the items and the
    recalculation too, the queue holds afterwards what it held before and,
    of the tasks of the job, exactly those it stored, none taken back; when
    the database rejected one of the two, no task was handed to the queue. *)
Theorem createJob_no_rollback env userId file useMockServer s s' :
  rejection 0 (world s) = None ->
  Service.createJob env userId file useMockServer s
  = (Raise (BadRequestException tryAgain), s') ->
  exists urls,
    requested env file urls /\ urls <> []
    /\ (exists j, j ∈ scrapingJobs (db (world s'))
          /\ Job.id j = newUuid env (uuids s)
          /\ Job.userId j = Some userId
          /\ Job.totalUrls j = length urls)
    /\ (rejection 1 (world s) = None ->
          scrapingItems (db (world s'))
          = scrapingItems (db (world s))
            ++ map (pendingItem (clock (world s)) (newUuid env (uuids s)))
                 (itemIdsFrom env (uuids s) urls))
    /\ (rejection 1 (world s) = None -> rejection 2 (world s) = None ->
          queue s'
          ≡ₚ queue s
             ++ storedTasks env (adds s)
                  (map (jobData (newUuid env (uuids s)))
                     (itemIdsFrom env (uuids s) urls))
          /\ forall k p, itemIdsFrom env (uuids s) urls !! k = Some p ->
               stored env (adds s + k) = true ->
               taskFor (newUuid env (uuids s)) p ∈ queue s')
    /\ (rejection 1 (world s) <> None \/ rejection 2 (world s) <> None ->
          queue s' = queue s).
Proof.
  intros H0 H.
  destruct (createJob_failed _ _ _ _ _ _ H0 H)
    as (urls & H1 & H2 & H3 & H4 & H5 & H6).
  exists urls. split; [exact H1|]. split; [exact H2|]. split; [exact H3|].
  split; [exact H4|]. split; [|exact H6].
  intros R1 R2. rewrite (H5 R1 R2). split; [reflexivity|].
  intros k p Hk Hs. apply elem_of_app. right.
  apply (storedTasks_elem env _ (adds s) k (jobData (newUuid env (uuids s)) p));
    [|exact Hs].
  now rewrite list_lookup_fmap, Hk.
Qed.

Lemma createJob_no_rollback_witness :
  let s := sampleSys emptyJobWorld in
  let run := Service.createJob flakySvcEnv (lit "alice") (Some sampleUpload)
               false s in
  fst run = Raise (BadRequestException tryAgain)
  /\ map Job.id (scrapingJobs (db (world (snd run)))) = [lit "job-1"; lit "id-0"]
  /\ map Item.url (scrapingItems (db (world (snd run))))
     = [lit "http://acme.test/"; lit "https://globex.test/about"]
  /\ map (fun q => d_url (q_data q)) (queue (snd run)) = [lit "http://acme.test/"]
  /\ exists urls,
       requested flakySvcEnv (Some sampleUpload) urls /\ urls <> []
       /\ (exists j, j ∈ scrapingJobs (db (world (snd run)))
             /\ Job.id j = newUuid flakySvcEnv (uuids s)
             /\ Job.userId j = Some (lit "alice")
             /\ Job.totalUrls j = length urls)
       /\ (rejection 1 (world s) = None ->
             scrapingItems (db (world (snd run)))
             = scrapingItems (db (world s))
               ++ map (pendingItem (clock (world s)) (newUuid flakySvcEnv (uuids s)))
                    (itemIdsFrom flakySvcEnv (uuids s) urls))
       /\ (rejection 1 (world s) = None -> rejection 2 (world s) = None ->
             queue (snd run)
             ≡ₚ queue s
                ++ storedTasks flakySvcEnv (adds s)
                     (map (jobData (newUuid flakySvcEnv (uuids s)))
                        (itemIdsFrom flakySvcEnv (uuids s) urls))
             /\ forall k p, itemIdsFrom flakySvcEnv (uuids s) urls !! k = Some p ->
                  stored flakySvcEnv (adds s + k) = true ->
                  taskFor (newUuid flakySvcEnv (uuids s)) p ∈ queue (snd run))
       /\ (rejection 1 (world s) <> None \/ rejection 2 (world s) <> None ->
             queue (snd run) = queue s).
Proof.
  cbv zeta. split; [reflexivity|]. split; [reflexivity|].
  split; [reflexivity|]. split; [reflexivity|].
  apply (createJob_no_rollback flakySvcEnv (lit "alice") (Some sampleUpload) false
           (sampleSys emptyJobWorld)); reflexivity.
Defined.

(** ** getJob *)

(** X26: the job getJob returns has the id asked for and belongs to the
    caller, and the items returned are the items of that job, all of them
    and no other. *)
Theorem getJob_access jobId userId s job items s' :
  Service.getJob jobId userId s = (Done (job, items), s') ->
  job ∈ scrapingJobs (db (world s))
  /\ Job.id job = jobId /\ Job.userId job = Some userId
  /\ forall it, it ∈ items <->
       it ∈ scrapingItems (db (world s)) /\ Item.jobId it = jobId.
Proof.
  destruct (getJob_run jobId userId s) as (r & s1 & -> & Hdb & Hq & _ & ->).
  pose proof (findJob_spec jobId userId (scrapingJobs (db (world s)))) as Hf.
  destruct (rejection 0 (world s)); [intros H; discriminate H|].
  destruct (List.find _ _) as [j|]; [|intros H; discriminate H].
  destruct (rejection 1 (world s)); intros H; inversion H; subst.
  destruct Hf as [Hin [Hi Hu]]. split; [exact Hin|]. split; [exact Hi|].
  split; [exact Hu|]. intros it. apply itemsOfJob_spec.
Qed.

Lemma getJob_access_witness :
  let s := sampleSys ownedWorld in
  let run := Service.getJob (lit "job-1") (lit "alice") s in
  map Item.id (snd (match fst run with Done p => p | Raise _ => (sampleJob "none" 0, []) end))
  = [lit "a"; lit "b"]
  /\ exists job items,
       fst run = Done (job, items)
       /\ job ∈ scrapingJobs (db (world s))
       /\ Job.id job = lit "job-1" /\ Job.userId job = Some (lit "alice")
       /\ forall it, it ∈ items <->
            it ∈ scrapingItems (db (world s)) /\ Item.jobId it = lit "job-1".
Proof.
  cbv zeta. split; [reflexivity|].
  eexists _, _. split; [reflexivity|].
  exact (getJob_access (lit "job-1") (lit "alice") (sampleSys ownedWorld)
           _ _ _ eq_refl).
Defined.

(** X27: getJob answers "not found" exactly when the database accepted the
    query and holds no job with this id that belongs to the caller: the job
    of another user is answered like a job that does not exist. *)
Theorem getJob_not_found jobId userId s :
  fst (Service.getJob jobId userId s) = Raise (NotFoundException notFound)
  <-> rejection 0 (world s) = None
      /\ forall j, j ∈ scrapingJobs (db (world s)) -> ~ ownedBy jobId userId j.
Proof.
  destruct (getJob_run jobId userId s) as (r & s1 & -> & _ & _ & _ & ->). simpl.
  pose proof (findJob_spec jobId userId (scrapingJobs (db (world s)))) as Hf.
  destruct (rejection 0 (world s)).
  { split; [intros H; discriminate H|intros [H _]; discriminate H]. }
  destruct (List.find _ _) as [j|].
  - destruct Hf as [Hin Ho]. split.
    + destruct (rejection 1 (world s)); intros H; discriminate H.
    + intros [_ H]. exfalso. exact (H j Hin Ho).
  - split; auto.
Qed.

(** X28: getJob only reads: it leaves the database, the queue and the trace
    as they were; what it throws is the NotFoundException above or a
    BadRequestException that hides the error of the database. *)
Theorem getJob_reads_only jobId userId s r s' :
  Service.getJob jobId userId s = (r, s') ->
  db (world s') = db (world s) /\ queue s' = queue s
  /\ trace (world s') = trace (world s)
  /\ forall e, r = Raise e ->
       e = NotFoundException notFound \/ e = BadRequestException notRetrieved.
Proof.
  destruct (getJob_run jobId userId s) as (r1 & s1 & -> & Hdb & Hq & Ht & ->).
  intros H; inversion H; subst. split; [exact Hdb|]. split; [exact Hq|].
  split; [exact Ht|]. intros e.
  destruct (rejection 0 (world s)); [intros He; inversion He; auto|].
  destruct (List.find _ _); [|intros He; inversion He; auto].
  destruct (rejection 1 (world s)); intros He; inversion He; auto.
Qed.

Lemma getJob_reads_only_witness :
  let s := mkSys (worldOf (db ownedWorld) [Some dbDown] 1000%N) [] 0 0 in
  let run := Service.getJob (lit "job-1") (lit "alice") s in
  fst run = Raise (BadRequestException notRetrieved)
  /\ db (world (snd run)) = db (world s) /\ queue (snd run) = queue s
  /\ trace (world (snd run)) = trace (world s)
  /\ forall e, fst run = Raise e ->
       e = NotFoundException notFound \/ e = BadRequestException notRetrieved.
Proof.
  cbv zeta. split; [reflexivity|].
  exact (getJob_reads_only (lit "job-1") (lit "alice") _ _ _
           (surjective_pairing _)).
Defined.

Lemma trimStart_snoc_space a c :
  is_space c = true ->
  (trimStart (a ++ [c]) = [] /\ trimStart a = [])
  \/ trimStart (a ++ [c]) = trimStart a ++ [c].
Proof.
  intros Hc. induction a as [|x a IH]; simpl.
  - rewrite Hc. now left.
  - destruct (is_space x); [exact IH|]. now right.
Qed.

Lemma trim_snoc_space a c : is_space c = true -> trim (a ++ [c]) = trim a.
Proof.
  intros Hc. unfold trim, trimEnd.
  destruct (trimStart_snoc_space a c Hc) as [[E1 E2]|E1]; rewrite E1;
    [now rewrite E2|].
  rewrite rev_app_distr. simpl. now rewrite Hc.
Qed.

Lemma splitFrom_lines n : forall s cur, length s <= n ->
  Forall2 (fun a b => b = a \/ b = a ++ [13%N])
    (splitFrom cur s) (splitAtLineFeeds cur s).
Proof.
  induction n as [|n IH]; intros s cur Hn.
  - destruct s; [|simpl in Hn; lia]. simpl. constructor; [now left|constructor].
  - destruct s as [|c r]; [simpl; constructor; [now left|constructor]|].
    simpl in Hn. simpl.
    destruct (c =? 10)%N eqn:E10.
    + constructor; [now left|]. apply IH. lia.
    + destruct r as [|c' r'].
      * simpl. constructor; [now left|constructor].
      * destruct ((c =? 13)%N && (c' =? 10)%N) eqn:E.
        -- apply andb_true_iff in E as [E1 E2]. apply N.eqb_eq in E1. subst c.
           simpl. rewrite E2. constructor; [now right|].
           apply IH. simpl in Hn. lia.
        -- apply (IH (c' :: r') (c :: cur)). lia.
Qed.

(** X29: once trimmed, the lines parseUrlsFromFile reads are those of the
    text cut at its line feeds alone: a carriage return before a line feed
    makes no difference to the entries of the file. *)
Theorem splitLines_line_feeds content :
  map trim (splitLines content) = map trim (splitAtLineFeeds [] content).
Proof.
  unfold splitLines.
  pose proof (splitFrom_lines (length content) content [] (le_n _)) as H.
  induction H as [|a b la lb Hab _ IH]; [reflexivity|]. simpl. f_equal; [|exact IH].
  destruct Hab as [->| ->]; [reflexivity|]. symmetry. now apply trim_snoc_space.
Qed.
